(** * Shannon n-gram text generator: a shallow embedding of [generator.py]

    The development embeds the [TextGenerator] class of [src/generator.py]
    and proves properties of its probability conversion, Markov chain
    construction, weighted sampling, the seven generation procedures, the
    anchor-word integration and the level dispatch.

    Modelling conventions.
    - A Python [str] is a Rocq [string]; one [ascii] stands for one
      character.  The embedding is of text in the ASCII range, where
      [str.lower], [str.upper], [str.strip], [int] and [repr] are the
      functions defined here; a theorem that depends on them states
      [is_ascii] of the strings concerned.
    - A Python [int] is a [Z].  A Python [float] is an IEEE 754 double
      ([float]): a number a double holds, an infinity or NaN.  Every
      operation rounds its exact result to the nearest double, ties to
      even, and overflows to an infinity; converting or dividing integers
      raises [OverflowError] where CPython does.  The sign of a zero is not
      kept: no operation of the program tells the two zeros apart.
    - A Python [dict] is an association list in insertion order.
    - An exception is a value of [exn]; code that can raise returns an
      [outcome].
    - The process-wide generator of the [random] module is an explicit state
      [rng], threaded through every procedure that draws from it.
    - A [while] loop is a [Fixpoint] over a fuel counter that keeps the
      loop test as it is written; running out of fuel is the outcome
      [OutOfFuel], and the callers pass a fuel that is proved sufficient. *)

From Stdlib Require Import ZArith QArith Qabs Qpower List String Ascii Bool.
From Stdlib Require Import Lia Lqa.
From Stdlib Require Qcanon.
From Stdlib Require Import Permutation.
From Stdlib Require DecimalString DecimalZ DecimalPos.
Import ListNotations.

Close Scope Q_scope.
Open Scope string_scope.
Open Scope list_scope.

(* ================================================================== *)
(** * Python values                                                    *)
(* ================================================================== *)

Module Py.

(** The exceptions the embedded code can raise. *)
Inductive exn : Type :=
| ValueError (msg : string)
| IndexError
| ZeroDivisionError
| OverflowError.

(** What running a piece of code yields. *)
Inductive outcome (A : Type) : Type :=
| Returns (a : A)
| Raises (e : exn)
| OutOfFuel.

Arguments Returns {A} a.
Arguments Raises {A} e.
Arguments OutOfFuel {A}.

Definition obind {A B} (o : outcome A) (f : A -> outcome B) : outcome B :=
  match o with
  | Returns a => f a
  | Raises e => Raises e
  | OutOfFuel => OutOfFuel
  end.

(** [for x in l: f x], collecting the results; stops at the first raise. *)
Fixpoint omap {A B} (f : A -> outcome B) (l : list A) : outcome (list B) :=
  match l with
  | [] => Returns []
  | x :: l' =>
      obind (f x) (fun y => obind (omap f l') (fun ys => Returns (y :: ys)))
  end.

(** [for x in l: a = f a x], from the accumulator [a]; stops at the first
    raise. *)
Fixpoint ofold {A B} (f : A -> B -> outcome A) (l : list B) (a : A)
  : outcome A :=
  match l with
  | [] => Returns a
  | x :: l' => obind (f a x) (ofold f l')
  end.

(** ** Strings *)

(** A string of characters of the ASCII range. *)
Definition is_ascii_char (c : ascii) : bool := (nat_of_ascii c <? 128)%nat.

Fixpoint is_ascii (s : string) : bool :=
  match s with
  | EmptyString => true
  | String c s' => is_ascii_char c && is_ascii s'
  end.

Definition is_lower (c : ascii) : bool :=
  let n := nat_of_ascii c in (97 <=? n)%nat && (n <=? 122)%nat.

Definition is_upper (c : ascii) : bool :=
  let n := nat_of_ascii c in (65 <=? n)%nat && (n <=? 90)%nat.

Definition upper_char (c : ascii) : ascii :=
  if is_lower c then ascii_of_nat (nat_of_ascii c - 32) else c.

Definition lower_char (c : ascii) : ascii :=
  if is_upper c then ascii_of_nat (nat_of_ascii c + 32) else c.

(** [s.upper()] and [s.lower()] on ASCII text: the 26 letters change
    case, every other character of the range stays. *)
Fixpoint upper (s : string) : string :=
  match s with
  | EmptyString => EmptyString
  | String c s' => String (upper_char c) (upper s')
  end.

Fixpoint lower (s : string) : string :=
  match s with
  | EmptyString => EmptyString
  | String c s' => String (lower_char c) (lower s')
  end.

(** [needle in hay] on strings: substring test. *)
Fixpoint contains (needle hay : string) : bool :=
  prefix needle hay
  || match hay with
     | EmptyString => false
     | String _ hay' => contains needle hay'
     end.

(** [s.split(sep)] for a non-empty [sep]: the leftmost occurrences of
    [sep], not overlapping, cut the string.  [skip] counts the characters of
    a separator just matched that are still to be passed over. *)
Fixpoint split_aux (sep : string) (skip : nat) (s : string) : list string :=
  match s with
  | EmptyString => [EmptyString]
  | String c s' =>
      match skip with
      | S k => split_aux sep k s'
      | O =>
          if prefix sep s
          then EmptyString :: split_aux sep (String.length sep - 1) s'
          else match split_aux sep 0 s' with
               | p :: ps => String c p :: ps
               | [] => [String c EmptyString]
               end
      end
  end.

Definition split (sep s : string) : list string := split_aux sep 0 s.

(** [sep.join(l)]. *)
Definition join (sep : string) (l : list string) : string :=
  String.concat sep l.

(** [drop k s] is [s[k:]] for [k >= 0]. *)
Fixpoint drop (k : nat) (s : string) : string :=
  match k, s with
  | O, _ => s
  | S k', String _ s' => drop k' s'
  | S _, EmptyString => EmptyString
  end.

(** [l[:n]] on a list, for any integer [n]: a negative [n] counts from the
    end. *)
Definition slice_to {A} (l : list A) (n : Z) : list A :=
  if (0 <=? n)%Z then firstn (Z.to_nat n) l
  else firstn (Z.to_nat (Z.of_nat (List.length l) + n)) l.

(** [l[1:]]. *)
Definition slice_from1 {A} (l : list A) : list A := tl l.

(** [l[-1]] and [l[-2]]; [None] stands for the [IndexError]. *)
Definition last1 {A} (l : list A) : option A :=
  match rev l with
  | x :: _ => Some x
  | [] => None
  end.

Definition last2 {A} (l : list A) : option A :=
  match rev l with
  | _ :: x :: _ => Some x
  | _ => None
  end.

(** [l[i] = v] for an index in range (the only use in the source). *)
Fixpoint set_nth {A} (i : nat) (v : A) (l : list A) : list A :=
  match l, i with
  | [], _ => []
  | _ :: l', O => v :: l'
  | x :: l', S i' => x :: set_nth i' v l'
  end.

(** Truth value of an optional string: [None] and [''] are false. *)
Definition truthy (o : option string) : bool :=
  match o with
  | Some (String _ _) => true
  | _ => false
  end.

(** ** Dictionaries *)

Section Dict.
Context {K V : Type}.
Variable eqb : K -> K -> bool.

(** [d.get(k)]. *)
Fixpoint get (k : K) (d : list (K * V)) : option V :=
  match d with
  | [] => None
  | (k', v) :: d' => if eqb k k' then Some v else get k d'
  end.

(** [k in d]. *)
Definition mem (k : K) (d : list (K * V)) : bool :=
  match get k d with Some _ => true | None => false end.

(** [d[k] = f(d[k])], where [f None] is the value stored for a new key;
    a new key goes last, an old one keeps its place. *)
Fixpoint update (k : K) (f : option V -> V) (d : list (K * V))
  : list (K * V) :=
  match d with
  | [] => [(k, f None)]
  | (k', v) :: d' =>
      if eqb k k' then (k', f (Some v)) :: d' else (k', v) :: update k f d'
  end.
End Dict.

Definition keys {K V} (d : list (K * V)) : list K := map fst d.
Definition values {K V} (d : list (K * V)) : list V := map snd d.

(** ** Numbers *)

(** A [float] is an IEEE 754 double.  A finite one is the rational number
    it holds, in lowest terms, so that two finite floats are the same
    number exactly when they are equal. *)
Inductive float : Type :=
| Finite (q : Q)
| Infinity (negative : bool)
| NaN.

(** [2 ** e] *)
Definition pow2 (e : Z) : Q := Qpower 2 e.

(** The integer [k] with [2 ** k <= n / d < 2 ** (k + 1)], for [n > 0]. *)
Definition exponent (n : Z) (d : positive) : Z :=
  let k := (Z.log2 n - Z.log2 (Z.pos d))%Z in
  if (if (0 <=? k)%Z then (Z.pos d * 2 ^ k <=? n)%Z
      else (Z.pos d <=? n * 2 ^ (- k))%Z)
  then k else (k - 1)%Z.

(** [n / d / 2 ** e] as a fraction of two integers. *)
Definition scaled (n : Z) (d : positive) (e : Z) : Z * Z :=
  if (0 <=? e)%Z then (n, Z.pos d * 2 ^ e)%Z else (n * 2 ^ (- e), Z.pos d)%Z.

(** The integer nearest to [num / den], the even one of two at the same
    distance. *)
Definition nearest_even (num den : Z) : Z :=
  let k := (num / den)%Z in
  match (2 * (num mod den) ?= den)%Z with
  | Lt => k
  | Gt => (k + 1)%Z
  | Eq => if Z.even k then k else (k + 1)%Z
  end.

(** The exponent of the last bit of the double nearest to [n / d]: the
    significand has 53 bits, and no bit lies below [2 ** -1074]. *)
Definition last_bit (n : Z) (d : positive) : Z :=
  Z.max (exponent n d - 52) (-1074).

(** The significand of the double nearest to [n / d], in units of the last
    bit. *)
Definition significand (n : Z) (d : positive) : Z :=
  nearest_even (fst (scaled n d (last_bit n d)))
               (snd (scaled n d (last_bit n d))).

(** The magnitude of the double nearest to [n / d], for [n > 0]; [None]
    when it is [2 ** 1024] or more, which a double does not hold. *)
Definition round_magnitude (n : Z) (d : positive) : option Q :=
  let e := last_bit n d in
  let k := significand n d in
  if ((0 <=? e) && (2 ^ 1024 <=? k * 2 ^ e))%Z then None
  else Some (Qred (inject_Z k * pow2 e)).

(** The double nearest to a rational number: round to nearest, ties to
    even, an infinity on overflow. *)
Definition nearest_double (q : Q) : float :=
  let q := Qred q in
  match Qnum q with
  | Z0 => Finite 0
  | Zpos n =>
      match round_magnitude (Zpos n) (Qden q) with
      | Some v => Finite v
      | None => Infinity false
      end
  | Zneg n =>
      match round_magnitude (Zpos n) (Qden q) with
      | Some v => Finite (Qopp v)
      | None => Infinity true
      end
  end.

(** [x + y] and [x * y] on floats. *)
Definition fadd (x y : float) : float :=
  match x, y with
  | NaN, _ | _, NaN => NaN
  | Infinity a, Infinity b => if Bool.eqb a b then Infinity a else NaN
  | Infinity a, Finite _ => Infinity a
  | Finite _, Infinity b => Infinity b
  | Finite a, Finite b => nearest_double (a + b)
  end.

Definition Qnegative (q : Q) : bool := negb (Qle_bool 0 q).

Definition fmul (x y : float) : float :=
  match x, y with
  | NaN, _ | _, NaN => NaN
  | Infinity a, Infinity b => Infinity (xorb a b)
  | Infinity a, Finite q | Finite q, Infinity a =>
      if Qeq_bool q 0 then NaN else Infinity (xorb a (Qnegative q))
  | Finite a, Finite b => nearest_double (a * b)
  end.

(** [x / y] on floats: a zero divisor raises, whatever [x] is. *)
Definition fdiv (x y : float) : outcome float :=
  match y with
  | Finite b =>
      if Qeq_bool b 0 then Raises ZeroDivisionError
      else match x with
           | Finite a => Returns (nearest_double (a / b))
           | Infinity s => Returns (Infinity (xorb s (Qnegative b)))
           | NaN => Returns NaN
           end
  | Infinity _ =>
      match x with
      | Finite _ => Returns (Finite 0)
      | _ => Returns NaN
      end
  | NaN => Returns NaN
  end.

(** The conversion of an integer operand of a float operation: an integer
    whose nearest double would be infinite raises. *)
Definition of_int (n : Z) : outcome float :=
  match nearest_double (inject_Z n) with
  | Infinity _ => Raises OverflowError
  | x => Returns x
  end.

(** [a / b] (true division) on integers: the double nearest to the exact
    quotient. *)
Definition truediv (a b : Z) : outcome float :=
  if (b =? 0)%Z then Raises ZeroDivisionError
  else match nearest_double (inject_Z a / inject_Z b) with
       | Infinity _ => Raises OverflowError
       | x => Returns x
       end.

(** [x < y], [x <= y] and [math.isfinite(x)] on floats. *)
Definition flt (x y : float) : bool :=
  match x, y with
  | NaN, _ | _, NaN => false
  | Finite a, Finite b => negb (Qle_bool b a)
  | Infinity a, Infinity b => a && negb b
  | Infinity a, Finite _ => a
  | Finite _, Infinity b => negb b
  end.

Definition fle (x y : float) : bool :=
  match x, y with
  | NaN, _ | _, NaN => false
  | Finite a, Finite b => Qle_bool a b
  | Infinity a, Infinity b => a || negb b
  | Infinity a, Finite _ => a
  | Finite _, Infinity b => negb b
  end.

Definition isfinite (x : float) : bool :=
  match x with Finite _ => true | _ => false end.

(** The float [0.0]. *)
Definition is_zero (x : float) : Prop :=
  exists q : Q, x = Finite q /\ (q == 0)%Q.

(** [sum] over integers, and over floats: the running total starts from
    the integer 0 and each addition is rounded, as [sum] does up to
    CPython 3.11. *)
Definition zsum (l : list Z) : Z := fold_left Z.add l 0%Z.
Definition fsum (l : list float) : float := fold_left fadd l (Finite 0).

(** [repr(s)]: the string between quotes, double ones when it holds a
    single quote and no double one, with the backslash, the quote used and
    the characters that do not print escaped. *)
Definition double_quote : ascii := ascii_of_nat 34.

Fixpoint has_char (c : ascii) (s : string) : bool :=
  match s with
  | EmptyString => false
  | String c' s' => Ascii.eqb c c' || has_char c s'
  end.

Definition quote_of (s : string) : ascii :=
  if has_char "'" s && negb (has_char double_quote s)
  then double_quote else "'"%char.

Definition hex_digit (n : nat) : ascii :=
  nth n (list_ascii_of_string "0123456789abcdef") "0"%char.

Definition printable (c : ascii) : bool :=
  let n := nat_of_ascii c in
  ((32 <=? n)%nat && (n <? 127)%nat)
  || ((161 <=? n)%nat && negb (n =? 173)%nat).

Definition repr_char (quote c : ascii) : string :=
  let n := nat_of_ascii c in
  if Ascii.eqb c quote || Ascii.eqb c "\"%char
  then String "\" (String c EmptyString)
  else if (n =? 9)%nat then "\t"
  else if (n =? 10)%nat then "\n"
  else if (n =? 13)%nat then "\r"
  else if printable c then String c EmptyString
  else String "\" (String "x" (String (hex_digit (n / 16))
                                  (String (hex_digit (n mod 16)) EmptyString))).

Fixpoint repr_body (quote : ascii) (s : string) : string :=
  match s with
  | EmptyString => EmptyString
  | String c s' => (repr_char quote c ++ repr_body quote s')%string
  end.

Definition repr (s : string) : string :=
  let quote := quote_of s in
  String quote (repr_body quote s ++ String quote EmptyString)%string.

(** The message of the [ValueError] of [int(s)]: the literal is shown by
    the first 200 characters of its [repr]. *)
Definition invalid_literal (s : string) : string :=
  ("invalid literal for int() with base 10: "
   ++ substring 0 200 (repr s))%string.

(** [int(s)] on a string: optional blanks around an optional sign and
    decimal digits, single underscores allowed between digits. *)
Definition is_space (c : ascii) : bool :=
  let n := nat_of_ascii c in
  (n =? 32)%nat || ((9 <=? n)%nat && (n <=? 13)%nat).

Definition is_digit (c : ascii) : bool :=
  let n := nat_of_ascii c in (48 <=? n)%nat && (n <=? 57)%nat.

Fixpoint lstrip (s : string) : string :=
  match s with
  | String c s' => if is_space c then lstrip s' else s
  | EmptyString => EmptyString
  end.

Fixpoint rstrip (s : string) : string :=
  match s with
  | EmptyString => EmptyString
  | String c s' =>
      match rstrip s' with
      | EmptyString => if is_space c then EmptyString else String c EmptyString
      | t => String c t
      end
  end.

Fixpoint digits (need_digit : bool) (acc : Z) (s : string) : option Z :=
  match s with
  | EmptyString => if need_digit then None else Some acc
  | String c s' =>
      if is_digit c
      then digits false (10 * acc + Z.of_nat (nat_of_ascii c - 48))%Z s'
      else if Ascii.eqb c "_"%char && negb need_digit
           then digits true acc s'
           else None
  end.

Definition int (s : string) : outcome Z :=
  let body := rstrip (lstrip s) in
  let parsed :=
    match body with
    | String "-"%char t => option_map Z.opp (digits true 0%Z t)
    | String "+"%char t => digits true 0%Z t
    | t => digits true 0%Z t
    end in
  match parsed with
  | Some n => Returns n
  | None => Raises (ValueError (invalid_literal s))
  end.

End Py.

(* ================================================================== *)
(** * The [random] module                                              *)
(* ================================================================== *)

(** The source draws from Python's process-wide generator through
    [random.choices], [random.choice] and [random.randint].  The generator
    is modelled as a position in an arbitrary sequence of raw draws; the
    three functions follow [Lib/random.py] of CPython on top of the two
    primitives [random] (a float in [0, 1)) and [randbelow] (an integer
    below a positive bound), each of which consumes one raw draw. *)

Module Random.
Import Py.

Record rng : Type := mkRng { source : nat -> N; pos : nat }.

(** Code that draws from the generator and may raise. *)
Definition M (A : Type) : Type := rng -> outcome A * rng.

Definition ret {A} (a : A) : M A := fun r => (Returns a, r).

Definition raise {A} (e : exn) : M A := fun r => (Raises e, r).

Definition out_of_fuel {A} : M A := fun r => (OutOfFuel, r).

Definition bind {A B} (m : M A) (f : A -> M B) : M B :=
  fun r =>
    match m r with
    | (Returns a, r') => f a r'
    | (Raises e, r') => (Raises e, r')
    | (OutOfFuel, r') => (OutOfFuel, r')
    end.

(** A pure computation that may raise, run inside [M]. *)
Definition lift {A} (o : outcome A) : M A := fun r => (o, r).

Definition next_raw (r : rng) : N * rng :=
  (source r (pos r), mkRng (source r) (S (pos r))).

(** [random.random()]: a multiple of 2^-53 in [0, 1). *)
Definition random : M float :=
  fun r =>
    let (x, r') := next_raw r in
    (Returns
       (Finite (Qred (Qmake (Z.of_N (x mod 9007199254740992))
                        9007199254740992))),
     r').

(** [random._randbelow(n)] for [n > 0]. *)
Definition randbelow (n : nat) : M nat :=
  fun r =>
    let (x, r') := next_raw r in
    (Returns (N.to_nat (x mod N.of_nat n)), r').

(** [random.choice(seq)]. *)
Definition choice {A} (seq : list A) : M A :=
  match seq with
  | [] => raise IndexError
  | _ :: _ =>
      bind (randbelow (List.length seq)) (fun i =>
      match nth_error seq i with
      | Some x => ret x
      | None => raise IndexError
      end)
  end.

(** [random.randint(a, b)], that is [randrange(a, b + 1)]. *)
Definition randint (a b : Z) : M Z :=
  let width := (b + 1 - a)%Z in
  if (0 <? width)%Z
  then bind (randbelow (Z.to_nat width)) (fun i => ret (a + Z.of_nat i)%Z)
  else raise (ValueError "empty range in randrange").

(** [itertools.accumulate(weights)]: the running sums. *)
Fixpoint accumulate_from (acc : float) (ws : list float) : list float :=
  match ws with
  | [] => []
  | w :: ws' => let acc' := fadd acc w in acc' :: accumulate_from acc' ws'
  end.

Definition accumulate (ws : list float) : list float :=
  match ws with
  | [] => []
  | w :: ws' => w :: accumulate_from w ws'
  end.

(** [bisect.bisect_right(a, x, lo, hi)]. *)
Fixpoint bisect (fuel : nat) (a : list float) (x : float) (lo hi : nat)
  : outcome nat :=
  if (lo <? hi)%nat then
    match fuel with
    | O => OutOfFuel
    | S fuel' =>
        let mid := ((lo + hi) / 2)%nat in
        if flt x (nth mid a (Finite 0))
        then bisect fuel' a x lo mid
        else bisect fuel' a x (S mid) hi
    end
  else Returns lo.

(** [random.choices(population, weights=weights, k=1)[0]]. *)
Definition choices {A} (population : list A) (weights : list float) : M A :=
  let n := List.length population in
  let cum_weights := accumulate weights in
  if negb (List.length cum_weights =? n)%nat
  then raise (ValueError "The number of weights does not match the population")
  else
    match last1 cum_weights with
    | None => raise IndexError
    | Some last =>
        let total := fadd last (Finite 0) in
        if fle total (Finite 0)
        then raise (ValueError "Total of weights must be greater than zero")
        else if negb (isfinite total)
        then raise (ValueError "Total of weights must be finite")
        else
          bind random (fun u =>
          bind (lift (bisect n cum_weights (fmul u total) 0 (n - 1))) (fun i =>
          match nth_error population i with
          | Some x => ret x
          | None => raise IndexError
          end))
    end.

End Random.

Declare Scope py_scope.
Delimit Scope py_scope with py.
Notation "x <- m ;; k" := (Random.bind m (fun x => k))
  (at level 61, m at next level, right associativity) : py_scope.
Open Scope py_scope.

(* ================================================================== *)
(** * [class TextGenerator]                                            *)
(* ================================================================== *)

Module Generator.
Import Py Random.

(** A frequency table, as loaded from JSON: n-gram string to count. *)
Definition freq : Type := list (string * Z).

(** A probability distribution: token to probability. *)
Definition dist : Type := list (string * float).

(** The key of a Markov chain: a string for a chain built from bigrams, a
    2-tuple of strings for one built from trigrams. *)
Inductive context : Type :=
| Ctx1 (w : string)
| Ctx2 (w1 w2 : string).

Definition context_eqb (a b : context) : bool :=
  match a, b with
  | Ctx1 x, Ctx1 y => String.eqb x y
  | Ctx2 x1 x2, Ctx2 y1 y2 => String.eqb x1 y1 && String.eqb x2 y2
  | _, _ => false
  end.

Definition chains : Type := list (context * dist).

(** The attributes of a [TextGenerator].  [length_distribution] is
    [sentence_stats['length_distribution']], and [None] when
    [sentence_stats] is empty or has no such entry. *)
Record TextGenerator : Type := mkTextGenerator {
  author : string;
  data_dir : string;
  char_unigrams : freq;
  char_bigrams : freq;
  char_trigrams : freq;
  word_unigrams : freq;
  word_bigrams : freq;
  word_trigrams : freq;
  length_distribution : option freq;
  char_unigram_probs : dist;
  char_bigram_chains : chains;
  char_trigram_chains : chains;
  word_unigram_probs : dist;
  word_bigram_chains : chains;
  word_trigram_chains : chains
}.

(** ** Model construction *)

(** [_frequencies_to_probabilities] *)
Definition _frequencies_to_probabilities (frequencies : freq) : outcome dist :=
  match frequencies with
  | [] => Returns []
  | _ :: _ =>
      let total := zsum (values frequencies) in
      omap (fun kc : string * Z =>
              let (key, count) := kc in
              obind (truediv count total) (fun p => Returns (key, p)))
           frequencies
  end.

(** [chains[prefix][next_item] += count] on the nested default
    dictionaries: a missing prefix starts from an empty dictionary, a
    missing item from [0.0]; the integer [count] is converted to a float
    for the addition, which raises when it is too large. *)
Definition add_float (next_item : string) (c : float) (d : dist) : dist :=
  update String.eqb next_item
    (fun ov => fadd (match ov with Some v => v | None => Finite 0 end) c) d.

Definition add_count (prefix : context) (next_item : string) (count : Z)
  (ch : chains) : outcome chains :=
  obind (of_int count) (fun c =>
  Returns
    (update context_eqb prefix
       (fun od => add_float next_item c
                    (match od with Some d => d | None => [] end))
       ch)).

(** The body of the first loop of [_build_markov_chains]. *)
Definition add_ngram (ch : chains) (entry : string * Z) : outcome chains :=
  let (ngram_str, count) := entry in
  match split "||" ngram_str with
  | [p0; p1] => add_count (Ctx1 p0) p1 count ch
  | [p0; p1; p2] => add_count (Ctx2 p0 p1) p2 count ch
  | _ => Returns ch
  end.

(** The first loop: the counts accumulated under each prefix. *)
Definition accumulate_counts (ngrams : freq) : outcome chains :=
  ofold add_ngram ngrams [].

(** The body of the second loop: one prefix is normalised by its total. *)
Definition normalize (d : dist) : outcome dist :=
  let total := fsum (values d) in
  omap (fun kv : string * float =>
          let (next_item, v) := kv in
          obind (fdiv v total) (fun p => Returns (next_item, p)))
       d.

(** [_build_markov_chains] *)
Definition _build_markov_chains (ngrams : freq) : outcome chains :=
  obind (accumulate_counts ngrams) (fun ch =>
  omap (fun pd : context * dist =>
          let (prefix, d) := pd in
          obind (normalize d) (fun d' => Returns (prefix, d')))
       ch).

(** [__init__]: the seven tables are what [_load_json] returned for the
    seven files (an empty table for a missing file), and
    [_build_ngram_models] derives the six models from them. *)
Definition init (author data_dir : string)
  (cu cb ct wu wb wt : freq) (ld : option freq) : outcome TextGenerator :=
  obind (_frequencies_to_probabilities cu) (fun cup =>
  obind (_build_markov_chains cb) (fun cbc =>
  obind (_build_markov_chains ct) (fun ctc =>
  obind (_frequencies_to_probabilities wu) (fun wup =>
  obind (_build_markov_chains wb) (fun wbc =>
  obind (_build_markov_chains wt) (fun wtc =>
  Returns (mkTextGenerator author data_dir cu cb ct wu wb wt ld
             cup cbc ctc wup wbc wtc))))))).

(** ** Sampling *)

(** [_weighted_choice] *)
Definition _weighted_choice (choices : dist) : M (option string) :=
  match choices with
  | [] => ret None
  | _ :: _ =>
      let items := keys choices in
      let weights := values choices in
      fun r =>
        match Random.choices items weights r with
        | (Returns x, r') => (Returns (Some x), r')
        | (OutOfFuel, r') => (OutOfFuel, r')
        | (Raises _, r') =>
            match items with
            | [] => ret None r'
            | _ :: _ => (x <- choice items ;; ret (Some x)) r'
            end
        end
  end.

(** [chain.get(key, {})]; a key [None] is in no chain. *)
Definition chain_get (ch : chains) (key : option context) : dist :=
  match key with
  | None => []
  | Some k => match get context_eqb k ch with Some d => d | None => [] end
  end.

(** [lengths.extend([int(length_str)] * count)] over the distribution. *)
Fixpoint expand_lengths (length_dist : freq) : outcome (list Z) :=
  match length_dist with
  | [] => Returns []
  | (length_str, count) :: rest =>
      obind (int length_str) (fun n =>
      obind (expand_lengths rest) (fun more =>
      Returns (repeat n (Z.to_nat count) ++ more)))
  end.

(** [_sample_sentence_length] *)
Definition _sample_sentence_length (self : TextGenerator) : M Z :=
  match length_distribution self with
  | None => randint 5 20
  | Some length_dist =>
      lengths <- lift (expand_lengths length_dist) ;;
      match lengths with
      | [] => randint 5 20
      | _ :: _ => choice lengths
      end
  end.

(** ** Character-level generation *)

Definition chars : list string :=
  ["a"; "b"; "c"; "d"; "e"; "f"; "g"; "h"; "i"; "j"; "k"; "l"; "m"; "n";
   "o"; "p"; "q"; "r"; "s"; "t"; "u"; "v"; "w"; "x"; "y"; "z"; " "].

(** [random.choice(chars) for _ in range(n)] *)
Fixpoint char0_loop (n : nat) : M (list string) :=
  match n with
  | O => ret []
  | S n' => c <- choice chars ;; cs <- char0_loop n' ;; ret (c :: cs)
  end.

(** [generate_char_0] *)
Definition generate_char_0 (self : TextGenerator) (length : Z) : M string :=
  cs <- char0_loop (Z.to_nat length) ;; ret (join "" cs).

(** [if x: result.append(x)] *)
Definition seed (o : option string) (result : list string) : list string :=
  match o with
  | Some c => if truthy o then result ++ [c] else result
  | None => result
  end.

(** The [for _ in range(n)] loop of [generate_char_1]. *)
Fixpoint char1_loop (self : TextGenerator) (n : nat) (result : list string)
  : M (list string) :=
  match n with
  | O => ret result
  | S n' =>
      char <- _weighted_choice (char_unigram_probs self) ;;
      char1_loop self n' (seed char result)
  end.

(** [generate_char_1] *)
Definition generate_char_1 (self : TextGenerator) (length : Z) : M string :=
  result <- char1_loop self (Z.to_nat length) [] ;; ret (join "" result).

(** The [while len(result) < length] loop of [generate_char_2]. *)
Fixpoint char2_loop (self : TextGenerator) (fuel : nat) (length : Z)
  (current : option string) (result : list string) : M (list string) :=
  if (Z.of_nat (List.length result) <? length)%Z then
    match fuel with
    | O => out_of_fuel
    | S fuel' =>
        next_char <- _weighted_choice
                       (chain_get (char_bigram_chains self)
                                  (option_map Ctx1 current)) ;;
        next_char <- match next_char with
                     | None => _weighted_choice (char_unigram_probs self)
                     | Some _ => ret next_char
                     end ;;
        match next_char with
        | Some c =>
            if truthy next_char
            then char2_loop self fuel' length next_char (result ++ [c])
            else ret result
        | None => ret result
        end
    end
  else ret result.

(** [generate_char_2] *)
Definition generate_char_2 (self : TextGenerator) (length : Z) : M string :=
  match char_bigram_chains self with
  | [] => generate_char_1 self length
  | _ :: _ =>
      current <- _weighted_choice (char_unigram_probs self) ;;
      result <- char2_loop self (Z.to_nat length) length current
                  (seed current []) ;;
      ret (join "" (slice_to result length))
  end.

(** [(result[-2], result[-1])]: an [IndexError] on fewer than two items. *)
Definition last_pair (result : list string) : M context :=
  match last2 result with
  | None => raise IndexError
  | Some a =>
      match last1 result with
      | None => raise IndexError
      | Some b => ret (Ctx2 a b)
      end
  end.

(** One pass through the body of the [while] loop of [generate_char_3], up
    to the test of [next_char]: the character drawn, if any. *)
Definition char3_next (self : TextGenerator) (result : list string)
  : M (option string) :=
  context <- last_pair result ;;
  next_char <- _weighted_choice
                 (chain_get (char_trigram_chains self) (Some context)) ;;
  next_char <- match next_char with
               | None =>
                   _weighted_choice
                     (chain_get (char_bigram_chains self)
                                (option_map Ctx1 (last1 result)))
               | Some _ => ret next_char
               end ;;
  match next_char with
  | None => _weighted_choice (char_unigram_probs self)
  | Some _ => ret next_char
  end.

(** The [while len(result) < length] loop of [generate_char_3]. *)
Fixpoint char3_loop (self : TextGenerator) (fuel : nat) (length : Z)
  (result : list string) : M (list string) :=
  if (Z.of_nat (List.length result) <? length)%Z then
    match fuel with
    | O => out_of_fuel
    | S fuel' =>
        next_char <- char3_next self result ;;
        match next_char with
        | Some c =>
            if truthy next_char
            then char3_loop self fuel' length (result ++ [c])
            else ret result
        | None => ret result
        end
    end
  else ret result.

(** [generate_char_3] *)
Definition generate_char_3 (self : TextGenerator) (length : Z) : M string :=
  match char_trigram_chains self with
  | [] => generate_char_2 self length
  | _ :: _ =>
      char1 <- _weighted_choice (char_unigram_probs self) ;;
      char2 <- _weighted_choice (char_unigram_probs self) ;;
      let result := seed char2 (seed char1 []) in
      result <- char3_loop self (Z.to_nat length) length result ;;
      ret (join "" (slice_to result length))
  end.

(** ** Word-level generation *)

(** [sentence = ' '.join(words)] followed by
    [sentence[0].upper() + sentence[1:] + '.']. *)
Definition format_sentence (words : list string) : outcome string :=
  match join " " words with
  | EmptyString => Raises IndexError
  | String c rest => Returns (String (upper_char c) rest ++ ".")%string
  end.

(** [if words: sentences.append(<formatted sentence>)] *)
Definition append_sentence (words sentences : list string)
  : M (list string) :=
  match words with
  | [] => ret sentences
  | _ :: _ =>
      sentence <- lift (format_sentence words) ;; ret (sentences ++ [sentence])
  end.

(** The [for _ in range(sentence_length)] loop of [generate_word_1]. *)
Fixpoint word1_words (self : TextGenerator) (n : nat) (words : list string)
  : M (list string) :=
  match n with
  | O => ret words
  | S n' =>
      word <- _weighted_choice (word_unigram_probs self) ;;
      word1_words self n' (seed word words)
  end.

Definition max_attempts : Z := 100.

(** The [while len(sentences) < num_sentences and attempts < max_attempts]
    loop of [generate_word_1]. *)
Fixpoint word1_loop (self : TextGenerator) (fuel : nat) (num_sentences : Z)
  (sentences : list string) (attempts : Z) : M (list string) :=
  if (Z.of_nat (List.length sentences) <? num_sentences)%Z
     && (attempts <? max_attempts)%Z then
    match fuel with
    | O => out_of_fuel
    | S fuel' =>
        sentence_length <- _sample_sentence_length self ;;
        words <- word1_words self (Z.to_nat sentence_length) [] ;;
        sentences' <- append_sentence words sentences ;;
        word1_loop self fuel' num_sentences sentences' (attempts + 1)%Z
    end
  else ret sentences.

(** ** Anchor-word integration *)

(** The body shared by the two [for] loops of [_generate_around_anchor]:
    [ws] is [prev_words] in the first loop and [next_words] in the second. *)
Definition around_next (self : TextGenerator) (ws : list string)
  : M (option string) :=
  if (2 <=? List.length ws)%nat then
    context <- last_pair ws ;;
    _weighted_choice (chain_get (word_bigram_chains self) (Some context))
  else _weighted_choice (word_unigram_probs self).

(** Either [for _ in range(n)] loop of [_generate_around_anchor]. *)
Fixpoint around_loop (self : TextGenerator) (n : nat) (ws : list string)
  : M (list string) :=
  match n with
  | O => ret ws
  | S n' =>
      next_word <- around_next self ws ;;
      around_loop self n' (seed next_word ws)
  end.

(** [_generate_around_anchor] *)
Definition _generate_around_anchor (self : TextGenerator)
  (anchor_word : string) (num_words : Z) : M (option string) :=
  before_count <- randint 2 5 ;;
  prev_words <- around_loop self (Z.to_nat before_count) [anchor_word] ;;
  let after_count := (num_words - before_count)%Z in
  next_words <- around_loop self (Z.to_nat after_count) [anchor_word] ;;
  let all_words := rev prev_words ++ slice_from1 next_words in
  match all_words with
  | [] => ret None
  | _ :: _ => sentence <- lift (format_sentence all_words) ;; ret (Some sentence)
  end.

(** The [for attempt in range(10)] loop of [_integrate_anchor_words] for
    one anchor; [n] attempts are left. *)
Fixpoint attempts_loop (self : TextGenerator) (anchor : string) (n : nat)
  (sentences : list string) : M (list string) :=
  match n with
  | O => ret sentences
  | S n' =>
      if mem String.eqb anchor (word_unigrams self) then
        num_words <- _sample_sentence_length self ;;
        candidate <- _generate_around_anchor self anchor num_words ;;
        match candidate with
        | Some cand =>
            if truthy candidate && contains (lower anchor) (lower cand) then
              idx <- randint 0 (Z.of_nat (List.length sentences) - 1) ;;
              ret (set_nth (Z.to_nat idx) cand sentences)
            else attempts_loop self anchor n' sentences
        | None => attempts_loop self anchor n' sentences
        end
      else attempts_loop self anchor n' sentences
  end.

(** The [for anchor in missing_anchors] loop. *)
Fixpoint anchors_loop (self : TextGenerator) (missing_anchors : list string)
  (sentences : list string) : M (list string) :=
  match missing_anchors with
  | [] => ret sentences
  | anchor :: rest =>
      sentences' <- attempts_loop self anchor 10 sentences ;;
      anchors_loop self rest sentences'
  end.

(** [_integrate_anchor_words] *)
Definition _integrate_anchor_words (self : TextGenerator) (text : string)
  (anchor_words : list string) (num_sentences : Z) : M string :=
  match anchor_words with
  | [] => ret text
  | _ :: _ =>
      let text_lower := lower text in
      let missing_anchors :=
        filter (fun w => negb (contains (lower w) text_lower)) anchor_words in
      match missing_anchors with
      | [] => ret text
      | _ :: _ =>
          let sentences := split ". " text in
          sentences' <- anchors_loop self missing_anchors sentences ;;
          ret (join ". " sentences')
      end
  end.

(** The tail shared by the three word generators:
    [result = ' '.join(sentences)], then the anchor words if any. *)
Definition finish (self : TextGenerator) (sentences : list string)
  (anchor_words : option (list string)) (num_sentences : Z) : M string :=
  let result := join " " sentences in
  match anchor_words with
  | Some (w :: ws) =>
      _integrate_anchor_words self result (w :: ws) num_sentences
  | _ => ret result
  end.

(** [generate_word_1] *)
Definition generate_word_1 (self : TextGenerator) (num_sentences : Z)
  (anchor_words : option (list string)) : M string :=
  sentences <- word1_loop self (Z.to_nat max_attempts) num_sentences [] 0%Z ;;
  finish self sentences anchor_words num_sentences.

(** ** Word-level generation of order 2 and 3 *)

(** The [while len(words) < sentence_length] loop of [generate_word_2]. *)
Fixpoint word2_loop (self : TextGenerator) (fuel : nat) (sentence_length : Z)
  (current_word : option string) (words : list string) : M (list string) :=
  if (Z.of_nat (List.length words) <? sentence_length)%Z then
    match fuel with
    | O => out_of_fuel
    | S fuel' =>
        next_word <- _weighted_choice
                       (chain_get (word_bigram_chains self)
                                  (option_map Ctx1 current_word)) ;;
        next_word <- match next_word with
                     | None => _weighted_choice (word_unigram_probs self)
                     | Some _ => ret next_word
                     end ;;
        match next_word with
        | Some w =>
            if truthy next_word
            then word2_loop self fuel' sentence_length next_word (words ++ [w])
            else ret words
        | None => ret words
        end
    end
  else ret words.

(** The [for _ in range(num_sentences)] loop of [generate_word_2]. *)
Fixpoint word2_sentences (self : TextGenerator) (n : nat)
  (sentences : list string) : M (list string) :=
  match n with
  | O => ret sentences
  | S n' =>
      sentence_length <- _sample_sentence_length self ;;
      current_word <- _weighted_choice (word_unigram_probs self) ;;
      words <- word2_loop self (Z.to_nat sentence_length) sentence_length
                 current_word (seed current_word []) ;;
      sentences' <- append_sentence words sentences ;;
      word2_sentences self n' sentences'
  end.

(** [generate_word_2] *)
Definition generate_word_2 (self : TextGenerator) (num_sentences : Z)
  (anchor_words : option (list string)) : M string :=
  match word_bigram_chains self with
  | [] => generate_word_1 self num_sentences anchor_words
  | _ :: _ =>
      sentences <- word2_sentences self (Z.to_nat num_sentences) [] ;;
      finish self sentences anchor_words num_sentences
  end.

(** One pass through the body of the inner [while] loop of
    [generate_word_3], up to the test of [next_word]. *)
Definition word3_next (self : TextGenerator) (words : list string)
  : M (option string) :=
  context <- last_pair words ;;
  next_word <- _weighted_choice
                 (chain_get (word_trigram_chains self) (Some context)) ;;
  next_word <- match next_word with
               | None =>
                   _weighted_choice
                     (chain_get (word_bigram_chains self)
                                (option_map Ctx1 (last1 words)))
               | Some _ => ret next_word
               end ;;
  match next_word with
  | None => _weighted_choice (word_unigram_probs self)
  | Some _ => ret next_word
  end.

(** The [while len(words) < sentence_length] loop of [generate_word_3]. *)
Fixpoint word3_loop (self : TextGenerator) (fuel : nat) (sentence_length : Z)
  (words : list string) : M (list string) :=
  if (Z.of_nat (List.length words) <? sentence_length)%Z then
    match fuel with
    | O => out_of_fuel
    | S fuel' =>
        next_word <- word3_next self words ;;
        match next_word with
        | Some w =>
            if truthy next_word
            then word3_loop self fuel' sentence_length (words ++ [w])
            else ret words
        | None => ret words
        end
    end
  else ret words.

(** The [for _ in range(num_sentences)] loop of [generate_word_3]. *)
Fixpoint word3_sentences (self : TextGenerator) (n : nat)
  (sentences : list string) : M (list string) :=
  match n with
  | O => ret sentences
  | S n' =>
      sentence_length <- _sample_sentence_length self ;;
      word1 <- _weighted_choice (word_unigram_probs self) ;;
      word2 <- _weighted_choice (word_unigram_probs self) ;;
      words <- word3_loop self (Z.to_nat sentence_length) sentence_length
                 (seed word2 (seed word1 [])) ;;
      sentences' <- append_sentence words sentences ;;
      word3_sentences self n' sentences'
  end.

(** [generate_word_3] *)
Definition generate_word_3 (self : TextGenerator) (num_sentences : Z)
  (anchor_words : option (list string)) : M string :=
  match word_trigram_chains self with
  | [] => generate_word_2 self num_sentences anchor_words
  | _ :: _ =>
      sentences <- word3_sentences self (Z.to_nat num_sentences) [] ;;
      finish self sentences anchor_words num_sentences
  end.

(** ** The generation interface *)

(** The dictionary of thunks built by [generate]. *)
Definition level_map (self : TextGenerator) (length num_sentences : Z)
  (anchor_words : option (list string)) : list (string * M string) :=
  [ ("char-0", generate_char_0 self length);
    ("char-1", generate_char_1 self length);
    ("char-2", generate_char_2 self length);
    ("char-3", generate_char_3 self length);
    ("word-1", generate_word_1 self num_sentences anchor_words);
    ("word-2", generate_word_2 self num_sentences anchor_words);
    ("word-3", generate_word_3 self num_sentences anchor_words) ].

(** [generate] *)
Definition generate (self : TextGenerator) (level : string)
  (length num_sentences : Z) (anchor_words : option (list string))
  : M string :=
  match get String.eqb level
          (level_map self length num_sentences anchor_words) with
  | None =>
      raise (ValueError ("Invalid level: " ++ level
                         ++ ". Must be 'char-0' through 'word-3'"))
  | Some thunk => thunk
  end.

End Generator.

(* ================================================================== *)
(** * Reference quantities and sample sessions                         *)
(* ================================================================== *)

Module Reference.
Import Py Random Generator.

(** The seven level names accepted by [generate]. *)
Definition levels : list string :=
  ["char-0"; "char-1"; "char-2"; "char-3"; "word-1"; "word-2"; "word-3"].

(** The summed count of the entries of a table whose key splits into
    exactly the context [a] and the continuation [b]. *)
Fixpoint pair_count (table : freq) (a b : string) : Z :=
  match table with
  | [] => 0
  | (key, count) :: rest =>
      match split "||" key with
      | [p0; p1] =>
          if String.eqb a p0 && String.eqb b p1
          then (count + pair_count rest a b)%Z
          else pair_count rest a b
      | _ => pair_count rest a b
      end
  end.

(** The summed count of the entries of a table whose key splits into
    exactly two parts, the first of which is the context [a]. *)
Fixpoint context_total (table : freq) (a : string) : Z :=
  match table with
  | [] => 0
  | (key, count) :: rest =>
      match split "||" key with
      | [p0; _] =>
          if String.eqb a p0
          then (count + context_total rest a)%Z
          else context_total rest a
      | _ => context_total rest a
      end
  end.

(** The number a finite float holds; 0 for an infinity and for NaN. *)
Definition value (x : float) : Q :=
  match x with
  | Finite q => q
  | _ => 0%Q
  end.

(** The sum of the numbers that floats hold, without rounding. *)
Definition exact_sum (l : list float) : Q :=
  fold_right Qplus 0%Q (map value l).

(** The exact quotient of two integers, and the double Python stores for
    it. *)
Definition ratio (count total : Z) : Q :=
  (inject_Z count / inject_Z total)%Q.

Definition quotient (count total : Z) : float :=
  nearest_double (ratio count total).

(** The exact quotients of the counts of a table by a total. *)
Definition ratios (total : Z) (t : freq) : list Q :=
  map (fun kc => ratio (snd kc) total) t.

(** What [_frequencies_to_probabilities] stores for one entry. *)
Definition probability_entry (total : Z) (kc : string * Z) : string * float :=
  (fst kc, quotient (snd kc) total).

(** The counts of the first loop of [_build_markov_chains] as integers:
    the same dictionaries, with exact additions. *)
Definition counts : Type := list (context * list (string * Z)).

Definition count_item (next_item : string) (count : Z)
  (d : list (string * Z)) : list (string * Z) :=
  update String.eqb next_item
    (fun ov => ((match ov with Some v => v | None => 0 end) + count)%Z) d.

Definition count_entry (prefix : context) (next_item : string) (count : Z)
  (zc : counts) : counts :=
  update context_eqb prefix
    (fun od => count_item next_item count
                 (match od with Some d => d | None => [] end))
    zc.

Definition count_ngram (zc : counts) (entry : string * Z) : counts :=
  let (ngram_str, count) := entry in
  match split "||" ngram_str with
  | [p0; p1] => count_entry (Ctx1 p0) p1 count zc
  | [p0; p1; p2] => count_entry (Ctx2 p0 p1) p2 count zc
  | _ => zc
  end.

Definition exact_counts (ngrams : freq) : counts :=
  fold_left count_ngram ngrams [].

(** The integers of a dictionary as floats. *)
Definition as_floats (d : list (string * Z)) : dist :=
  map (fun kv => (fst kv, Finite (inject_Z (snd kv)))) d.

Definition as_chains (zc : counts) : chains :=
  map (fun pd => (fst pd, as_floats (snd pd))) zc.

(** The counts of one context, each divided by their total. *)
Definition quotients (d : list (string * Z)) : dist :=
  map (fun kv => (fst kv, quotient (snd kv) (zsum (values d)))) d.

(** The counts held under [ctx], empty when there are none. *)
Definition counts_get (zc : counts) (ctx : context) : list (string * Z) :=
  match get context_eqb ctx zc with
  | Some d => d
  | None => []
  end.

(** The largest integer up to which every integer is a double. *)
Definition exact_bound : Z := 2 ^ 53.

(** Every continuation of every context of the chains satisfies [P]. *)
Definition chains_satisfy (P : string -> Prop) (ch : chains) : Prop :=
  Forall (fun pd => Forall P (keys (snd pd))) ch.

(** Every token the character models of a session can produce satisfies
    [P]. *)
Definition char_tokens (P : string -> Prop) (self : TextGenerator) : Prop :=
  Forall P (keys (char_unigram_probs self))
  /\ chains_satisfy P (char_bigram_chains self)
  /\ chains_satisfy P (char_trigram_chains self).

(** A token that is one character long. *)
Definition single_char (k : string) : Prop := String.length k = 1.

(** One attempt of [_integrate_anchor_words] for an anchor:
    [_generate_around_anchor(anchor, num_words=_sample_sentence_length())]. *)
Definition attempt (self : TextGenerator) (anchor : string)
  : M (option string) :=
  num_words <- _sample_sentence_length self ;;
  _generate_around_anchor self anchor num_words.

(** The number of attempts that [attempts_loop] makes: it follows the loop
    and counts the calls of [attempt]. *)
Fixpoint attempts_made (self : TextGenerator) (anchor : string) (n : nat)
  (sentences : list string) (r : rng) : nat :=
  match n with
  | O => 0
  | S n' =>
      if mem String.eqb anchor (word_unigrams self) then
        match attempt self anchor r with
        | (Returns (Some cand), r') =>
            if truthy (Some cand) && contains (lower anchor) (lower cand)
            then 1
            else S (attempts_made self anchor n' sentences r')
        | (Returns None, r') => S (attempts_made self anchor n' sentences r')
        | (_, _) => 1
        end
      else attempts_made self anchor n' sentences r
  end.

(** A sentence built around an anchor: some words, reversed, then the
    anchor, then some words, formatted as a sentence. *)
Definition anchor_sentence (anchor cand : string) : Prop :=
  exists prefix suffix : list string,
    format_sentence (rev prefix ++ [anchor] ++ suffix) = Returns cand.

(** [sentences'] is [sentences] with the sentence at the index that
    [randbelow] draws from [r] replaced by [cand]. *)
Definition replaced_at (r : rng) (cand : string)
  (sentences sentences' : list string) : Prop :=
  let idx :=
    N.to_nat (source r (pos r) mod N.of_nat (List.length sentences)) in
  idx < List.length sentences /\ sentences' = set_nth idx cand sentences.

(** A computation that never runs out of fuel, whatever the state of the
    random source. *)
Definition fueled {A} (m : M A) : Prop :=
  forall r : rng, fst (m r) <> OutOfFuel.

(** A key that splits into exactly two parts. *)
Definition two_part (key : string) : Prop :=
  exists a b : string, split "||" key = [a; b].

(** A context made of one word. *)
Definition one_word (c : context) : Prop := exists w : string, c = Ctx1 w.

(** A random source whose raw draws are all zero. *)
Definition zeros : rng := mkRng (fun _ => 0%N) 0.

(** A random source whose raw draws count upwards. *)
Definition counting : rng := mkRng N.of_nat 0.

(** A random source with which every [random()] is 0.625 and every
    [randint(2, 5)] is 2. *)
Definition five_eighths : rng := mkRng (fun _ => (5 * 2 ^ 50)%N) 0.

Definition no_session : TextGenerator :=
  mkTextGenerator "" "" [] [] [] [] [] [] None [] [] [] [] [] [].

Definition session_or_empty (o : outcome TextGenerator) : TextGenerator :=
  match o with
  | Returns s => s
  | _ => no_session
  end.

(** A session for which every file was found. *)
Definition full_session : TextGenerator :=
  Eval vm_compute in
    session_or_empty
      (init "demo" "JSON_Files"
         [("a", 2); ("b", 4)]%Z
         [("a||b", 2); ("b||a", 1); ("b||b", 2)]%Z
         [("a||b||b", 1); ("b||b||a", 1)]%Z
         [("the", 3); ("cat", 2); ("dog", 1)]%Z
         [("the||cat", 3); ("the||dog", 1); ("cat||the", 1)]%Z
         [("the||cat||the", 1)]%Z
         (Some [("3", 2); ("4", 1)]%Z)).

(** [self] with other word trigram chains. *)
Definition with_word_trigram_chains (self : TextGenerator) (ch : chains)
  : TextGenerator :=
  mkTextGenerator (author self) (data_dir self)
    (char_unigrams self) (char_bigrams self) (char_trigrams self)
    (word_unigrams self) (word_bigrams self) (word_trigrams self)
    (length_distribution self)
    (char_unigram_probs self) (char_bigram_chains self)
    (char_trigram_chains self)
    (word_unigram_probs self) (word_bigram_chains self) ch.

(** A session for which the two trigram files were missing. *)
Definition bigram_session : TextGenerator :=
  Eval vm_compute in
    session_or_empty
      (init "demo" "JSON_Files"
         [("a", 2); ("b", 4)]%Z
         [("a||b", 2); ("b||a", 1); ("b||b", 2)]%Z
         []
         [("the", 3); ("cat", 2); ("dog", 1)]%Z
         [("the||cat", 3); ("the||dog", 1); ("cat||the", 1)]%Z
         []
         (Some [("3", 2); ("4", 1)]%Z)).

(** A session for which the character unigram file was missing. *)
Definition no_unigram_session : TextGenerator :=
  Eval vm_compute in
    session_or_empty
      (init "demo" "JSON_Files" [] [("a||b", 1)]%Z [("a||b||c", 1)]%Z
         [] [] [] None).

(** A session for which only the character trigram file was found. *)
Definition trigram_only_session : TextGenerator :=
  Eval vm_compute in
    session_or_empty
      (init "demo" "JSON_Files" [] [] [("a||b||c", 1)]%Z [] [] [] None).

End Reference.

(* ================================================================== *)
(** * [analyze.py]: the sentence-length distribution                   *)
(* ================================================================== *)

Module Analyze.
Import Py Random Generator.

(** [str(n)] on an integer: the decimal digits, after a minus sign for a
    negative number. *)
Definition str (n : Z) : string :=
  DecimalString.NilZero.string_of_int (Z.to_int n).

(** The body of the loop of [analyze_author] that fills
    [length_distribution]:
    [length_distribution[length_str] = length_distribution.get(length_str, 0) + 1]. *)
Definition count_length (length_distribution : freq) (length : Z) : freq :=
  update String.eqb (str length)
    (fun ov => (match ov with Some c => c | None => 0 end) + 1)%Z
    length_distribution.

(** The [length_distribution] that [analyze_author] stores for the
    sentence lengths of a text. *)
Definition length_distribution_of (sentence_lengths : list Z) : freq :=
  fold_left count_length sentence_lengths [].

End Analyze.

(* ================================================================== *)
(** * [shannon_gen.py]: the request and the blend                      *)
(* ================================================================== *)

Module ShannonGen.
Import Py Random Generator.

(** [s.startswith(p)] *)
Definition startswith (s p : string) : bool := prefix p s.

(** [s.strip()] on ASCII text: the blanks of [str.strip] are those of
    [int] and the four separators 28 to 31. *)
Definition is_blank (c : ascii) : bool :=
  let n := nat_of_ascii c in
  is_space c || ((28 <=? n)%nat && (n <=? 31)%nat).

Fixpoint lstrip_blanks (s : string) : string :=
  match s with
  | String c s' => if is_blank c then lstrip_blanks s' else s
  | EmptyString => EmptyString
  end.

Fixpoint rstrip_blanks (s : string) : string :=
  match s with
  | EmptyString => EmptyString
  | String c s' =>
      match rstrip_blanks s' with
      | EmptyString => if is_blank c then EmptyString else String c EmptyString
      | t => String c t
      end
  end.

Definition strip (s : string) : string := rstrip_blanks (lstrip_blanks s).

(** [arg if arg else default] on an integer argument. *)
Definition or_default (arg default : Z) : Z :=
  if (arg =? 0)%Z then default else arg.

(** The anchor words of [cmd_generate]:
    [[w.strip() for w in args.anchors.split(',')]] when [args.anchors] is
    given and not empty, [None] otherwise. *)
Definition anchor_words_of (anchors : option string) : option (list string) :=
  match anchors with
  | Some (String _ _ as a) => Some (map strip (split "," a))
  | _ => None
  end.

(** The text [cmd_generate] asks the generator for, from the parsed
    arguments [--level], [--length], [--sentences] and [--anchors]. *)
Definition cmd_generate_text (gen : TextGenerator) (level : string)
  (length sentences : Z) (anchors : option string) : M string :=
  if startswith level "char-"
  then generate gen level (or_default length 100) 3 None
  else generate gen level 100 (or_default sentences 3)
         (anchor_words_of anchors).

(** [max(xs)] on a sequence of lengths; the empty sequence raises. *)
Definition max_of (xs : list nat) : outcome nat :=
  match xs with
  | [] => Raises (ValueError "max() arg is an empty sequence")
  | x :: rest => Returns (fold_left Nat.max rest x)
  end.

(** [if i < len(author_sentences): blended_sentences.append(author_sentences[i])] *)
Definition pick (i : nat) (author_sentences : list string) : list string :=
  match nth_error author_sentences i with
  | Some sentence => [sentence]
  | None => []
  end.

(** The inner loop of the blend, over the authors, for one index. *)
Definition blend_row (sentences_by_author : list (list string)) (i : nat)
  : list string :=
  flat_map (pick i) sentences_by_author.

(** The two nested loops of the blend: [blended_sentences] at the end. *)
Definition round_robin (max_sentences : nat)
  (sentences_by_author : list (list string)) : list string :=
  flat_map (blend_row sentences_by_author) (seq 0 max_sentences).

(** The blended output of [cmd_blend] from the texts of the authors. *)
Definition blend (level : string) (all_texts : list string)
  : outcome string :=
  let blended := join " " all_texts in
  if negb (startswith level "char-") then
    let sentences_by_author := map (split ". ") all_texts in
    obind (max_of (map (@List.length string) sentences_by_author))
      (fun max_sentences =>
         Returns (join ". " (round_robin max_sentences sentences_by_author)))
  else Returns blended.

End ShannonGen.

(* ================================================================== *)
(** * Further reference quantities                                     *)
(* ================================================================== *)

Module Coverage.
Import Py Random Generator Reference.

(** What a key of a frequency table contributes to the chains: a context
    and a continuation, or nothing when the key does not split into two or
    three parts. *)
Definition entry_context (key : string) : option (context * string) :=
  match split "||" key with
  | [p0; p1] => Some (Ctx1 p0, p1)
  | [p0; p1; p2] => Some (Ctx2 p0 p1, p2)
  | _ => None
  end.

(** Whether a key splits into two or three parts. *)
Definition well_formed_key (key : string) : bool :=
  match entry_context key with
  | Some _ => true
  | None => false
  end.

(** The summed count of the entries of a table that contribute the
    continuation [b] to the context [ctx]. *)
Fixpoint continuation_count (table : freq) (ctx : context) (b : string) : Z :=
  match table with
  | [] => 0
  | (key, count) :: rest =>
      match entry_context key with
      | Some (c, n) =>
          if context_eqb ctx c && String.eqb b n
          then (count + continuation_count rest ctx b)%Z
          else continuation_count rest ctx b
      | None => continuation_count rest ctx b
      end
  end.

(** The summed count of the entries of a table that contribute to the
    context [ctx]. *)
Fixpoint context_count (table : freq) (ctx : context) : Z :=
  match table with
  | [] => 0
  | (key, count) :: rest =>
      match entry_context key with
      | Some (c, _) =>
          if context_eqb ctx c
          then (count + context_count rest ctx)%Z
          else context_count rest ctx
      | None => context_count rest ctx
      end
  end.

(** The count held in [zc] under [ctx] for [b], zero when there is
    none, and the total held under [ctx]. *)
Definition count_at (zc : counts) (ctx : context) (b : string) : Z :=
  match get String.eqb b (counts_get zc ctx) with
  | Some v => v
  | None => 0
  end.

Definition total_at (zc : counts) (ctx : context) : Z :=
  zsum (values (counts_get zc ctx)).

(** A probability in (0, 1]: a finite float holding such a number. *)
Definition probability (x : float) : Prop :=
  exists v : Q, x = Finite v /\ (0 < v)%Q /\ (v <= 1)%Q.

(** A probability distribution of doubles: not empty, every probability
    in (0, 1], and the numbers held sum to 1 within the rounding of one
    division, [2 ** -53]. *)
Definition is_distribution (d : dist) : Prop :=
  d <> []
  /\ Forall (fun kv => probability (snd kv)) d
  /\ (Qabs (exact_sum (values d) - 1) <= pow2 (-53))%Q.

(** The counts of a table are at least 1 and their sum is an integer that
    a double holds exactly, as is then every partial sum. *)
Definition exactly_counted (table : freq) : Prop :=
  Forall (fun kc => (1 <= snd kc)%Z) table
  /\ (zsum (values table) <= exact_bound)%Z.

(** The counts of a table are all at least 1. *)
Definition counted (table : freq) : Prop :=
  Forall (fun kc => (1 <= snd kc)%Z) table.

(** The [ValueError] that [int] raises on a string it does not read. *)
Definition int_error (s : string) : exn := ValueError (invalid_literal s).

(** A key within the reach of the embedding of [int]: ASCII characters,
    and no more of them than the 4300 digits that [int] converts. *)
Definition plain_key (s : string) : Prop :=
  is_ascii s = true /\ String.length s <= 4300.

(** The session loaded when only the sentence statistics were found. *)
Definition stats_only_session (ld : option freq) : TextGenerator :=
  mkTextGenerator "demo" "JSON_Files" [] [] [] [] [] [] ld [] [] [] [] [] [].

(** The 27 symbols of [generate_char_0], as characters. *)
Definition alphabet : list ascii :=
  list_ascii_of_string "abcdefghijklmnopqrstuvwxyz ".

Definition in_alphabet (a : ascii) : bool := existsb (Ascii.eqb a) alphabet.

(** A token that is one symbol of the alphabet. *)
Definition alphabet_token (c : string) : bool :=
  match c with
  | String a EmptyString => in_alphabet a
  | _ => false
  end.

(** Every key of the length distribution, if there is one, reads as an
    integer. *)
Definition lengths_parse (self : TextGenerator) : Prop :=
  match length_distribution self with
  | None => True
  | Some ld => exists lengths, expand_lengths ld = Returns lengths
  end.

(** Moreover every length with a positive count is at least 1. *)
Definition lengths_positive (self : TextGenerator) : Prop :=
  match length_distribution self with
  | None => True
  | Some ld =>
      exists lengths,
        expand_lengths ld = Returns lengths
        /\ Forall (fun n => (1 <= n)%Z) lengths
  end.

(** A formatted sentence: a non-empty body followed by a period. *)
Definition sentence_shape (s : string) : Prop :=
  exists body : string, s = (body ++ ".")%string /\ body <> EmptyString.

(** A word that is not the empty string. *)
Definition nonempty (w : string) : Prop := w <> EmptyString.

(** Counts of at least 1, under every context, that sum to at most
    [bound]. *)
Definition within (bound : Z) (zc : counts) : Prop :=
  Forall (fun pd =>
            Forall (fun kv => 1 <= snd kv)%Z (snd pd)
            /\ (zsum (values (snd pd)) <= bound)%Z) zc.

(** Every word that a walk of [_generate_around_anchor] can draw in the
    session is made of ASCII characters: the keys of the word unigram
    distribution and the continuations of the word bigram chains. *)
Definition ascii_vocabulary (self : TextGenerator) : bool :=
  forallb is_ascii (keys (word_unigram_probs self))
  && forallb (fun cd => forallb is_ascii (keys (snd cd)))
       (word_bigram_chains self).

(** A session for which the word unigram file was missing and the word
    trigram file was found. *)
Definition no_word_unigram_session : TextGenerator :=
  Eval vm_compute in
    session_or_empty
      (init "demo" "JSON_Files" [] [] [] [] [("the||cat", 2)]%Z
         [("the||cat||sat", 1)]%Z None).

End Coverage.

(* ================================================================== *)
(** * Properties                                                       *)
(* ================================================================== *)

Import Py Random Generator Reference.

(** ** The [random] module returns members of its population *)

Lemma accumulate_from_length (ws : list float) :
  forall acc, List.length (accumulate_from acc ws) = List.length ws.
Proof.
  induction ws as [|w ws IH]; intros acc; simpl; [reflexivity|].
  now rewrite IH.
Qed.

Lemma accumulate_length (ws : list float) :
  List.length (accumulate ws) = List.length ws.
Proof.
  destruct ws as [|w ws]; simpl; [reflexivity|].
  now rewrite accumulate_from_length.
Qed.

Lemma last1_nonempty {A} (l : list A) :
  l <> [] -> exists x, last1 l = Some x.
Proof.
  intros Hl. unfold last1.
  destruct (rev l) as [|x t] eqn:E.
  - apply (f_equal (@rev A)) in E. rewrite rev_involutive in E.
    simpl in E. contradiction.
  - now exists x.
Qed.

Lemma midpoint_bounds (lo hi : nat) :
  (lo < hi)%nat -> (lo <= (lo + hi) / 2 < hi)%nat.
Proof.
  intros H. split.
  - apply Nat.div_le_lower_bound; lia.
  - apply Nat.Div0.div_lt_upper_bound; lia.
Qed.

Lemma bisect_step (fuel : nat) (a : list float) (x : float) (lo hi : nat) :
  (lo < hi)%nat ->
  bisect (S fuel) a x lo hi =
  if flt x (nth ((lo + hi) / 2) a (Finite 0))
  then bisect fuel a x lo ((lo + hi) / 2)
  else bisect fuel a x (S ((lo + hi) / 2)) hi.
Proof.
  intros H. apply Nat.ltb_lt in H.
  change (bisect (S fuel) a x lo hi) with
    (if (lo <? hi)%nat
     then if flt x (nth ((lo + hi) / 2) a (Finite 0))
          then bisect fuel a x lo ((lo + hi) / 2)
          else bisect fuel a x (S ((lo + hi) / 2)) hi
     else Returns lo).
  now rewrite H.
Qed.

Lemma bisect_done (fuel : nat) (a : list float) (x : float) (lo hi : nat) :
  (hi <= lo)%nat -> bisect fuel a x lo hi = Returns lo.
Proof.
  intros H. apply Nat.ltb_ge in H.
  destruct fuel; simpl; now rewrite H.
Qed.

(** With a fuel of at least [hi - lo], the bisection returns an index
    between its two bounds. *)
Lemma bisect_bounds (a : list float) (x : float) :
  forall fuel lo hi,
    (lo <= hi)%nat -> (hi - lo <= fuel)%nat ->
    exists i, bisect fuel a x lo hi = Returns i /\ (lo <= i <= hi)%nat.
Proof.
  induction fuel as [|fuel IH]; intros lo hi Hle Hfuel.
  - rewrite bisect_done by lia. exists lo. split; [reflexivity | lia].
  - destruct (Nat.eq_dec lo hi) as [->|Hne].
    + rewrite bisect_done by lia. exists hi. split; [reflexivity | lia].
    + assert (Hlt : (lo < hi)%nat) by lia.
      rewrite (bisect_step fuel a x lo hi Hlt).
      destruct (midpoint_bounds lo hi Hlt) as [Hm1 Hm2].
      destruct (flt x (nth ((lo + hi) / 2) a (Finite 0))).
      * destruct (IH lo ((lo + hi) / 2)%nat) as [i [Hi Hb]]; [lia | lia |].
        exists i. split; [exact Hi | lia].
      * destruct (IH (S ((lo + hi) / 2)) hi) as [i [Hi Hb]]; [lia | lia |].
        exists i. split; [exact Hi | lia].
Qed.

Lemma randbelow_lt (n : nat) (r : rng) :
  (0 < n)%nat ->
  exists i, randbelow n r = (Returns i, mkRng (source r) (S (pos r)))
            /\ (i < n)%nat
            /\ i = N.to_nat (source r (pos r) mod N.of_nat n).
Proof.
  intros Hn. unfold randbelow, next_raw.
  eexists. split; [reflexivity|]. split; [|reflexivity].
  assert (Hlt : (source r (pos r) mod N.of_nat n < N.of_nat n)%N)
    by (apply N.mod_lt; lia).
  lia.
Qed.

(** [random.choice] on a non-empty sequence returns the member at the
    index drawn by [randbelow]. *)
Lemma choice_member {A} (seq : list A) (r : rng) :
  seq <> [] ->
  exists i x,
    choice seq r = (Returns x, mkRng (source r) (S (pos r)))
    /\ i = N.to_nat (source r (pos r) mod N.of_nat (List.length seq))
    /\ nth_error seq i = Some x
    /\ In x seq.
Proof.
  intros Hne. destruct seq as [|a seq]; [contradiction|].
  unfold choice, bind.
  destruct (randbelow_lt (List.length (a :: seq)) r) as [i [Hr [Hlt Hi]]];
    [simpl; lia|].
  rewrite Hr.
  destruct (nth_error (a :: seq) i) as [x|] eqn:Hx.
  - exists i, x. repeat split; try assumption.
    eapply nth_error_In; eassumption.
  - apply nth_error_None in Hx. lia.
Qed.

(** [random.choices] either returns a member of the population or raises
    before drawing anything. *)
Lemma choices_member {A} (population : list A) (weights : list float)
  (r : rng) :
  population <> [] ->
  List.length weights = List.length population ->
  (exists x r', choices population weights r = (Returns x, r')
                /\ In x population)
  \/ (exists e, choices population weights r = (Raises e, r)).
Proof.
  intros Hne Hlen. unfold choices.
  rewrite accumulate_length, Hlen, Nat.eqb_refl. simpl.
  destruct (last1_nonempty (accumulate weights)) as [total Ht].
  { intros E. apply (f_equal (@List.length float)) in E.
    rewrite accumulate_length, Hlen in E.
    destruct population; [contradiction | discriminate]. }
  rewrite Ht. cbv zeta.
  destruct (fle (fadd total (Finite 0)) (Finite 0)) eqn:Hz;
    [right; eexists; reflexivity|].
  destruct (isfinite (fadd total (Finite 0))) eqn:Hf; cbn [negb];
    [|right; eexists; reflexivity].
  - left. unfold bind, random, lift, next_raw.
    set (u := fmul _ (fadd total (Finite 0))).
    destruct (bisect_bounds (accumulate weights) u
                (List.length population) 0 (List.length population - 1))
      as [i [Hi Hb]]; [lia | lia |].
    rewrite Hi.
    destruct (nth_error population i) as [x|] eqn:Hx.
    + exists x. eexists. split; [reflexivity|].
      eapply nth_error_In; eassumption.
    + apply nth_error_None in Hx.
      destruct population; [contradiction | simpl in *; lia].
Qed.


(** ** Weighted sampling *)

Lemma keys_length {K V} (d : list (K * V)) :
  List.length (keys d) = List.length d.
Proof. apply length_map. Qed.

Lemma values_length {K V} (d : list (K * V)) :
  List.length (values d) = List.length d.
Proof. apply length_map. Qed.

Lemma weighted_choice_empty (r : rng) :
  _weighted_choice [] r = (Returns None, r).
Proof. reflexivity. Qed.

(** On a non-empty mapping the choice is one of its keys, whatever the
    weights are. *)
Lemma weighted_choice_member (choices : dist) (r : rng) :
  choices <> [] ->
  exists k r',
    _weighted_choice choices r = (Returns (Some k), r') /\ In k (keys choices).
Proof.
  intros Hne. destruct choices as [|kv rest]; [contradiction|].
  unfold _weighted_choice.
  set (d := kv :: rest).
  assert (Hk : keys d <> []) by (subst d; destruct kv; discriminate).
  destruct (choices_member (keys d) (values d) r Hk) as [[x [r' [Hc Hin]]]|[e Hc]].
  - now rewrite values_length, keys_length.
  - rewrite Hc. now exists x, r'.
  - rewrite Hc.
    destruct (choice_member (keys d) r Hk) as [i [x [Hx [_ [_ Hin]]]]].
    destruct (keys d) as [|k0 ks] eqn:Ek; [contradiction|].
    unfold bind. rewrite Hx. exists x. eexists. split; [reflexivity | exact Hin].
Qed.

(** The sampler never raises and never runs out of fuel. *)
Lemma weighted_choice_returns (choices : dist) (r : rng) :
  exists o r', _weighted_choice choices r = (Returns o, r').
Proof.
  destruct choices as [|kv rest].
  - exists None, r. reflexivity.
  - destruct (weighted_choice_member (kv :: rest) r) as [k [r' [H _]]];
      [discriminate|].
    now exists (Some k), r'.
Qed.

(** A non-empty mapping never yields [None]. *)
Lemma weighted_choice_none (choices : dist) (r r' : rng) :
  _weighted_choice choices r = (Returns None, r') -> choices = [] /\ r' = r.
Proof.
  intros H. destruct choices as [|kv rest].
  - simpl in H. injection H as <-. now split.
  - destruct (weighted_choice_member (kv :: rest) r) as [k [r2 [Hk _]]];
      [discriminate|].
    rewrite Hk in H. discriminate.
Qed.

Lemma fadd_zero (x y : float) :
  is_zero x -> is_zero y -> fadd x y = Finite 0.
Proof.
  intros [a [-> Ha]] [b [-> Hb]]. cbn [fadd]. unfold nearest_double.
  assert (E : (a + b == 0)%Q) by (rewrite Ha, Hb; reflexivity).
  now rewrite (Qred_complete _ _ E).
Qed.

Lemma zero_is_zero : is_zero (Finite 0).
Proof. exists 0%Q. now split. Qed.

Lemma accumulate_from_zero (ws : list float) (acc : float) :
  is_zero acc ->
  Forall is_zero ws ->
  Forall is_zero (accumulate_from acc ws).
Proof.
  intros Hacc H. revert acc Hacc.
  induction H as [|w ws Hw Hws IH]; intros acc Hacc;
    cbn [accumulate_from]; [constructor|].
  rewrite (fadd_zero acc w Hacc Hw).
  constructor; [apply zero_is_zero | apply IH, zero_is_zero].
Qed.

Lemma accumulate_zero (ws : list float) :
  Forall is_zero ws -> Forall is_zero (accumulate ws).
Proof.
  intros H. destruct ws as [|w ws]; simpl; [constructor|].
  inversion H as [|? ? Hw Hrest]; subst.
  constructor; [exact Hw | now apply accumulate_from_zero].
Qed.

Lemma last1_In {A} (l : list A) (x : A) : last1 l = Some x -> In x l.
Proof.
  unfold last1. intros H. apply in_rev.
  destruct (rev l) as [|y t]; [discriminate|].
  injection H as ->. now left.
Qed.

(** When every weight is zero, [random.choices] raises and the fallback
    picks the key at the index drawn by [randbelow]. *)
Lemma weighted_choice_zero_weights (choices : dist) (r : rng) :
  choices <> [] ->
  Forall (fun kv => is_zero (snd kv)) choices ->
  exists k,
    _weighted_choice choices r
    = (Returns (Some k), mkRng (source r) (S (pos r)))
    /\ nth_error (keys choices)
         (N.to_nat (source r (pos r) mod N.of_nat (List.length choices)))
       = Some k.
Proof.
  intros Hne Hz. destruct choices as [|kv rest]; [contradiction|].
  unfold _weighted_choice. set (d := kv :: rest) in *.
  assert (Hk : keys d <> []) by (subst d; destruct kv; discriminate).
  assert (Hraise : exists e, Random.choices (keys d) (values d) r = (Raises e, r)).
  { unfold Random.choices.
    rewrite accumulate_length, values_length, keys_length, Nat.eqb_refl. simpl negb.
    cbv iota.
    destruct (last1_nonempty (accumulate (values d))) as [total Ht].
    { intros E. apply (f_equal (@List.length float)) in E.
      rewrite accumulate_length, values_length in E. subst d. discriminate. }
    rewrite Ht.
    assert (H0 : is_zero total).
    { assert (Hall : Forall is_zero (accumulate (values d))).
      { apply accumulate_zero. unfold values. apply Forall_map. exact Hz. }
      rewrite Forall_forall in Hall. apply Hall. now apply last1_In. }
    rewrite (fadd_zero total (Finite 0) H0 zero_is_zero).
    eexists. reflexivity. }
  destruct Hraise as [e He]. rewrite He.
  destruct (choice_member (keys d) r Hk) as [i [x [Hx [Hi [Hnth _]]]]].
  destruct (keys d) as [|k0 ks] eqn:Ek; [contradiction|].
  unfold bind. rewrite Hx. exists x. split; [reflexivity|].
  rewrite <- Ek in *. rewrite keys_length in Hi. now rewrite <- Hi.
Qed.

(** C9. [_weighted_choice] is total.  On the empty mapping it returns
    [None] and draws nothing.  On a non-empty mapping it returns one of the
    keys, for any weights, never raising and never running out of fuel.
    When all the weights are zero, the key returned is the one at the index
    drawn uniformly by [random.choice] among the keys. *)
Theorem weighted_choice_total (choices : dist) (r : rng) :
  (choices = [] -> _weighted_choice choices r = (Returns None, r))
  /\ (choices <> [] ->
      exists k r',
        _weighted_choice choices r = (Returns (Some k), r')
        /\ In k (keys choices))
  /\ (choices <> [] ->
      Forall (fun kv => is_zero (snd kv)) choices ->
      exists k,
        _weighted_choice choices r
        = (Returns (Some k), mkRng (source r) (S (pos r)))
        /\ nth_error (keys choices)
             (N.to_nat (source r (pos r) mod N.of_nat (List.length choices)))
           = Some k).
Proof.
  split; [|split].
  - intros ->. apply weighted_choice_empty.
  - apply weighted_choice_member.
  - apply weighted_choice_zero_weights.
Qed.

Lemma weighted_choice_total_witness :
  _weighted_choice [] counting = (Returns None, counting)
  /\ (exists k r',
        _weighted_choice [("a", Finite (1 # 4)); ("b", Finite (3 # 4))]
          counting
        = (Returns (Some k), r')
        /\ In k (keys [("a", Finite (1 # 4)); ("b", Finite (3 # 4))]))
  /\ (exists k,
        _weighted_choice [("a", Finite 0); ("b", Finite 0)]
          (mkRng N.of_nat 1)
        = (Returns (Some k), mkRng N.of_nat 2)
        /\ nth_error (keys [("a", Finite 0); ("b", Finite 0)])
             (N.to_nat (N.of_nat 1 mod N.of_nat 2))
           = Some k).
Proof.
  split; [|split].
  - apply (weighted_choice_total [] counting). reflexivity.
  - apply (weighted_choice_total
             [("a", Finite (1 # 4)); ("b", Finite (3 # 4))] counting).
    discriminate.
  - apply (weighted_choice_total [("a", Finite 0); ("b", Finite 0)]
             (mkRng N.of_nat 1)).
    + discriminate.
    + repeat constructor; exists 0%Q; now split.
Defined.

(** ** Delegation to the next lower order *)

(** C3. When the trigram chains of a session are empty, a call of the
    order-3 generator is, for the whole call, the call of the order-2
    generator with the same arguments: started from the same state of the
    random source, both yield the same outcome and leave the source in the
    same state.  This holds for the procedures and through [generate]. *)
Theorem order3_delegates_to_order2 (self : TextGenerator) :
  (char_trigram_chains self = [] ->
   forall (length num_sentences : Z) (anchor_words : option (list string))
          (r : rng),
     generate_char_3 self length r = generate_char_2 self length r
     /\ generate self "char-3" length num_sentences anchor_words r
        = generate self "char-2" length num_sentences anchor_words r)
  /\ (word_trigram_chains self = [] ->
      forall (length num_sentences : Z) (anchor_words : option (list string))
             (r : rng),
        generate_word_3 self num_sentences anchor_words r
        = generate_word_2 self num_sentences anchor_words r
        /\ generate self "word-3" length num_sentences anchor_words r
           = generate self "word-2" length num_sentences anchor_words r).
Proof.
  split; intros Hempty length num_sentences anchor_words r.
  - assert (H : generate_char_3 self length r = generate_char_2 self length r)
      by (unfold generate_char_3; now rewrite Hempty).
    split; [exact H|].
    change (generate self "char-3" length num_sentences anchor_words)
      with (generate_char_3 self length).
    change (generate self "char-2" length num_sentences anchor_words)
      with (generate_char_2 self length).
    exact H.
  - assert (H : generate_word_3 self num_sentences anchor_words r
               = generate_word_2 self num_sentences anchor_words r)
      by (unfold generate_word_3; now rewrite Hempty).
    split; [exact H|].
    change (generate self "word-3" length num_sentences anchor_words)
      with (generate_word_3 self num_sentences anchor_words).
    change (generate self "word-2" length num_sentences anchor_words)
      with (generate_word_2 self num_sentences anchor_words).
    exact H.
Qed.

Lemma order3_delegates_to_order2_witness :
  (generate_char_3 bigram_session 12 counting
   = generate_char_2 bigram_session 12 counting
   /\ generate bigram_session "char-3" 12 2 None counting
      = generate bigram_session "char-2" 12 2 None counting)
  /\ (generate_word_3 bigram_session 2 (Some ["dog"]) counting
      = generate_word_2 bigram_session 2 (Some ["dog"]) counting
      /\ generate bigram_session "word-3" 12 2 (Some ["dog"]) counting
         = generate bigram_session "word-2" 12 2 (Some ["dog"]) counting).
Proof.
  split.
  - exact (proj1 (order3_delegates_to_order2 bigram_session) eq_refl
             12%Z 2%Z None counting).
  - exact (proj2 (order3_delegates_to_order2 bigram_session) eq_refl
             12%Z 2%Z (Some ["dog"]) counting).
Defined.

(** ** The level dispatch *)

Lemma get_level_none {V} (level : string) (m : list (string * V)) :
  ~ In level (keys m) -> get String.eqb level m = None.
Proof.
  induction m as [|[k v] m IH]; intros Hnot; simpl; [reflexivity|].
  destruct (String.eqb_spec level k) as [->|Hne].
  - exfalso. apply Hnot. now left.
  - apply IH. intros Hin. apply Hnot. now right.
Qed.

(** C7. A level outside the seven names makes [generate] raise a
    [ValueError] whose message names the level; nothing is drawn, so the
    random source is left as it was, and the session, which no procedure
    of the class rebinds, is the same value after the call.  Each of the
    seven names dispatches to its own procedure. *)
Theorem generate_dispatch (self : TextGenerator) (level : string)
  (length num_sentences : Z) (anchor_words : option (list string)) :
  (~ In level levels ->
   forall r : rng,
     generate self level length num_sentences anchor_words r
     = (Raises (ValueError ("Invalid level: " ++ level
                            ++ ". Must be 'char-0' through 'word-3'")), r))
  /\ generate self "char-0" length num_sentences anchor_words
     = generate_char_0 self length
  /\ generate self "char-1" length num_sentences anchor_words
     = generate_char_1 self length
  /\ generate self "char-2" length num_sentences anchor_words
     = generate_char_2 self length
  /\ generate self "char-3" length num_sentences anchor_words
     = generate_char_3 self length
  /\ generate self "word-1" length num_sentences anchor_words
     = generate_word_1 self num_sentences anchor_words
  /\ generate self "word-2" length num_sentences anchor_words
     = generate_word_2 self num_sentences anchor_words
  /\ generate self "word-3" length num_sentences anchor_words
     = generate_word_3 self num_sentences anchor_words.
Proof.
  split; [|repeat split; reflexivity].
  intros Hnot r. unfold generate.
  rewrite get_level_none; [reflexivity | exact Hnot].
Qed.

Lemma generate_dispatch_witness :
  generate full_session "word-4" 100 3 None counting
  = (Raises (ValueError
               "Invalid level: word-4. Must be 'char-0' through 'word-3'"),
     counting).
Proof.
  apply (generate_dispatch full_session "word-4" 100 3 None).
  unfold levels. simpl. intros H.
  repeat (destruct H as [H|H]; [discriminate|]). exact H.
Defined.

(** ** Requests for nothing *)

Lemma char2_loop_done (self : TextGenerator) (fuel : nat) (length : Z)
  (current : option string) (result : list string) (r : rng) :
  (length <= Z.of_nat (List.length result))%Z ->
  char2_loop self fuel length current result r = (Returns result, r).
Proof.
  intros H. apply Z.ltb_ge in H.
  destruct fuel; simpl; now rewrite H.
Qed.

Lemma char3_loop_done (self : TextGenerator) (fuel : nat) (length : Z)
  (result : list string) (r : rng) :
  (length <= Z.of_nat (List.length result))%Z ->
  char3_loop self fuel length result r = (Returns result, r).
Proof.
  intros H. apply Z.ltb_ge in H.
  destruct fuel; simpl; now rewrite H.
Qed.

Lemma word1_loop_done (self : TextGenerator) (fuel : nat)
  (num_sentences : Z) (sentences : list string) (attempts : Z) (r : rng) :
  (num_sentences <= Z.of_nat (List.length sentences))%Z ->
  word1_loop self fuel num_sentences sentences attempts r
  = (Returns sentences, r).
Proof.
  intros H. apply Z.ltb_ge in H.
  destruct fuel; simpl; now rewrite H.
Qed.

Lemma generate_char_1_zero (self : TextGenerator) (r : rng) :
  generate_char_1 self 0 r = (Returns "", r).
Proof. reflexivity. Qed.

Lemma generate_char_2_zero (self : TextGenerator) (r : rng) :
  fst (generate_char_2 self 0 r) = Returns "".
Proof.
  unfold generate_char_2.
  destruct (char_bigram_chains self); [reflexivity|].
  unfold bind.
  destruct (weighted_choice_returns (char_unigram_probs self) r)
    as [o [r1 Ho]].
  rewrite Ho, char2_loop_done by (simpl; lia).
  reflexivity.
Qed.

Lemma generate_char_3_zero (self : TextGenerator) (r : rng) :
  fst (generate_char_3 self 0 r) = Returns "".
Proof.
  unfold generate_char_3.
  destruct (char_trigram_chains self); [apply generate_char_2_zero|].
  unfold bind.
  destruct (weighted_choice_returns (char_unigram_probs self) r)
    as [o1 [r1 Ho1]].
  rewrite Ho1.
  destruct (weighted_choice_returns (char_unigram_probs self) r1)
    as [o2 [r2 Ho2]].
  rewrite Ho2, char3_loop_done by (simpl; lia).
  reflexivity.
Qed.

Lemma generate_word_1_zero (self : TextGenerator)
  (anchor_words : option (list string)) (r : rng) :
  anchor_words = None \/ anchor_words = Some [] ->
  generate_word_1 self 0 anchor_words r = (Returns "", r).
Proof.
  intros [-> | ->]; unfold generate_word_1, bind;
    rewrite word1_loop_done by (simpl; lia); reflexivity.
Qed.

Lemma generate_word_2_zero (self : TextGenerator)
  (anchor_words : option (list string)) (r : rng) :
  anchor_words = None \/ anchor_words = Some [] ->
  generate_word_2 self 0 anchor_words r = (Returns "", r).
Proof.
  intros H. unfold generate_word_2.
  destruct (word_bigram_chains self); [now apply generate_word_1_zero|].
  destruct H as [-> | ->]; reflexivity.
Qed.

Lemma generate_word_3_zero (self : TextGenerator)
  (anchor_words : option (list string)) (r : rng) :
  anchor_words = None \/ anchor_words = Some [] ->
  generate_word_3 self 0 anchor_words r = (Returns "", r).
Proof.
  intros H. unfold generate_word_3.
  destruct (word_trigram_chains self); [now apply generate_word_2_zero|].
  destruct H as [-> | ->]; reflexivity.
Qed.

(** C8. In every session and from every state of the random source, each
    of the four character-level procedures returns the empty string for a
    length of 0, and each of the three word-level procedures returns the
    empty string for 0 sentences when there are no anchor words (the
    argument is [None] or the empty list).  None of them raises. *)
Theorem zero_request_returns_empty (self : TextGenerator) (r : rng) :
  fst (generate_char_0 self 0 r) = Returns ""
  /\ fst (generate_char_1 self 0 r) = Returns ""
  /\ fst (generate_char_2 self 0 r) = Returns ""
  /\ fst (generate_char_3 self 0 r) = Returns ""
  /\ Forall (fun anchor_words =>
               fst (generate_word_1 self 0 anchor_words r) = Returns ""
               /\ fst (generate_word_2 self 0 anchor_words r) = Returns ""
               /\ fst (generate_word_3 self 0 anchor_words r) = Returns "")
            [None; Some []].
Proof.
  split; [reflexivity|].
  split; [reflexivity|].
  split; [apply generate_char_2_zero|].
  split; [apply generate_char_3_zero|].
  repeat constructor;
    (rewrite ?generate_word_1_zero, ?generate_word_2_zero,
       ?generate_word_3_zero by tauto; reflexivity).
Qed.

(** ** Splitting and joining *)

Lemma split_aux_nonempty (sep : string) :
  forall s skip, split_aux sep skip s <> [].
Proof.
  induction s as [|c s IH]; intros skip; cbn [split_aux]; [discriminate|].
  destruct skip as [|k]; [|apply IH].
  destruct (prefix sep (String c s)); [discriminate|].
  destruct (split_aux sep 0 s); discriminate.
Qed.

(** Passing over [skip] characters is dropping them. *)
Lemma split_aux_skip (sep : string) :
  forall s skip,
    skip <= String.length s ->
    split_aux sep skip s = split_aux sep 0 (drop skip s).
Proof.
  induction s as [|c s IH]; intros skip Hle.
  - simpl in Hle. assert (skip = 0) by lia. now subst.
  - destruct skip as [|k]; [reflexivity|].
    simpl in Hle. simpl. apply IH. lia.
Qed.

Lemma prefix_append (p : string) :
  forall s, prefix p s = true -> s = (p ++ drop (String.length p) s)%string.
Proof.
  induction p as [|a p IH]; intros s H; [reflexivity|].
  destruct s as [|b s]; simpl in H; [discriminate|].
  destruct (ascii_dec a b) as [->|]; [|discriminate].
  simpl. f_equal. now apply IH.
Qed.

Lemma append_length (a b : string) :
  String.length (a ++ b) = String.length a + String.length b.
Proof. induction a as [|c a IH]; simpl; [reflexivity | now rewrite IH]. Qed.

Lemma join_cons_char (sep : string) (c : ascii) (p : string)
  (ps : list string) :
  join sep (String c p :: ps) = String c (join sep (p :: ps)).
Proof. destruct ps; reflexivity. Qed.

Lemma join_empty_head (sep : string) (l : list string) :
  l <> [] -> join sep (EmptyString :: l) = (sep ++ join sep l)%string.
Proof. destruct l; [contradiction | reflexivity]. Qed.

(** Joining the pieces of a split with the separator gives the string
    back. *)
Lemma join_split_aux (sep : string) :
  sep <> EmptyString ->
  forall n s, String.length s <= n -> join sep (split_aux sep 0 s) = s.
Proof.
  intros Hsep. induction n as [|n IH]; intros s Hlen.
  - destruct s; [reflexivity | simpl in Hlen; lia].
  - destruct s as [|c s]; [reflexivity|].
    simpl in Hlen. cbn [split_aux].
    destruct (prefix sep (String c s)) eqn:Hp.
    + pose proof (prefix_append sep _ Hp) as Hs.
      destruct sep as [|c0 sep']; [contradiction|].
      assert (Hl : String.length (String c s)
                   = String.length (String c0 sep')
                     + String.length
                         (drop (String.length (String c0 sep')) (String c s))).
      { rewrite Hs at 1. apply append_length. }
      cbn [String.length drop] in Hl. cbn [String.length].
      rewrite Nat.sub_succ, Nat.sub_0_r.
      rewrite split_aux_skip by lia.
      rewrite join_empty_head by apply split_aux_nonempty.
      rewrite IH by lia.
      cbn [String.length drop] in Hs. now rewrite <- Hs.
    + destruct (split_aux sep 0 s) as [|p ps] eqn:Es.
      * exfalso. revert Es. apply split_aux_nonempty.
      * rewrite join_cons_char, <- Es, IH by lia. reflexivity.
Qed.

Lemma join_split (sep s : string) :
  sep <> EmptyString -> join sep (split sep s) = s.
Proof.
  intros Hsep. unfold split. now apply (join_split_aux sep Hsep (String.length s)).
Qed.

(** ** Anchor words outside the vocabulary *)

Lemma get_none_iff {V} (k : string) (d : list (string * V)) :
  get String.eqb k d = None <-> ~ In k (keys d).
Proof.
  induction d as [|[k' v] d IH]; simpl.
  - split; [intros _ [] | reflexivity].
  - destruct (String.eqb_spec k k') as [->|Hne].
    + split; [discriminate | intros H; exfalso; apply H; now left].
    + rewrite IH. split.
      * intros H [E|Hin]; [now apply Hne | now apply H].
      * intros H Hin. apply H. now right.
Qed.

Lemma mem_false_iff {V} (k : string) (d : list (string * V)) :
  mem String.eqb k d = false <-> ~ In k (keys d).
Proof.
  unfold mem. rewrite <- get_none_iff.
  destruct (get String.eqb k d); split; congruence.
Qed.

(** Ten attempts for a word that is not a key of [word_unigrams] do
    nothing and draw nothing. *)
Lemma attempts_loop_skip (self : TextGenerator) (anchor : string)
  (sentences : list string) (r : rng) :
  ~ In anchor (keys (word_unigrams self)) ->
  forall n, attempts_loop self anchor n sentences r = (Returns sentences, r).
Proof.
  intros Hnot. apply mem_false_iff in Hnot.
  induction n as [|n IH]; simpl; [reflexivity|].
  now rewrite Hnot.
Qed.

Lemma anchors_loop_skip (self : TextGenerator) (r : rng) :
  forall (missing_anchors sentences : list string),
    Forall (fun w => ~ In w (keys (word_unigrams self))) missing_anchors ->
    anchors_loop self missing_anchors sentences r = (Returns sentences, r).
Proof.
  induction missing_anchors as [|a rest IH]; intros sentences Hall;
    [reflexivity|].
  inversion Hall as [|? ? Ha Hrest]; subst.
  cbn [anchors_loop]. unfold bind.
  rewrite attempts_loop_skip by exact Ha.
  now apply IH.
Qed.

Lemma Forall_filter {A} (P : A -> Prop) (f : A -> bool) (l : list A) :
  Forall P l -> Forall P (filter f l).
Proof.
  induction 1 as [|x l Hx Hl IH]; simpl; [constructor|].
  destruct (f x); [now constructor | exact IH].
Qed.

(** C6. When none of the requested anchor words is a key of the word
    unigram table, [_integrate_anchor_words] returns the text it was given,
    raises nothing and draws nothing from the random source; the same holds
    for the tail of the word generators that calls it. *)
Theorem anchors_outside_vocabulary_skipped (self : TextGenerator)
  (text : string) (anchor_words : list string) (num_sentences : Z)
  (r : rng) :
  Forall (fun w => ~ In w (keys (word_unigrams self))) anchor_words ->
  _integrate_anchor_words self text anchor_words num_sentences r
  = (Returns text, r)
  /\ forall sentences : list string,
       finish self sentences (Some anchor_words) num_sentences r
       = (Returns (join " " sentences), r).
Proof.
  intros Hall.
  assert (Hint : forall t,
             _integrate_anchor_words self t anchor_words num_sentences r
             = (Returns t, r)).
  { intros t. unfold _integrate_anchor_words.
    destruct anchor_words as [|a rest]; [reflexivity|].
    set (missing :=
           filter (fun w => negb (contains (lower w) (lower t))) (a :: rest)).
    assert (Hmiss : Forall (fun w => ~ In w (keys (word_unigrams self))) missing)
      by (apply Forall_filter; exact Hall).
    destruct missing as [|m ms]; [reflexivity|].
    unfold bind. rewrite anchors_loop_skip by exact Hmiss.
    unfold ret. f_equal. f_equal. apply join_split. discriminate. }
  split; [apply Hint|].
  intros sentences. unfold finish.
  destruct anchor_words as [|a rest]; [reflexivity | apply Hint].
Qed.

Lemma anchors_outside_vocabulary_skipped_witness :
  _integrate_anchor_words full_session "The cat. Cat the." ["zebra"; "owl"] 2
    counting
  = (Returns "The cat. Cat the.", counting)
  /\ forall sentences : list string,
       finish full_session sentences (Some ["zebra"; "owl"]) 2 counting
       = (Returns (join " " sentences), counting).
Proof.
  apply (anchors_outside_vocabulary_skipped full_session "The cat. Cat the."
           ["zebra"; "owl"] 2 counting).
  repeat constructor; simpl; intros H;
    repeat (destruct H as [H|H]; [discriminate|]); exact H.
Defined.

(** ** Doubles *)

Section Doubles.
Local Open Scope Q_scope.

Lemma nearest_even_spec (num den : Z) :
  (0 < den)%Z ->
  (2 * num - den <= 2 * (nearest_even num den * den) <= 2 * num + den)%Z.
Proof.
  intros Hden. unfold nearest_even.
  pose proof (Z.div_mod num den ltac:(lia)) as Hdm.
  pose proof (Z.mod_pos_bound num den Hden) as Hr.
  destruct (Z.compare_spec (2 * (num mod den)) den) as [E|L|G];
    [destruct (Z.even (num / den))|..]; nia.
Qed.

Lemma nearest_even_le (num den bound : Z) :
  (0 < den)%Z -> (num <= bound * den)%Z ->
  (nearest_even num den <= bound)%Z.
Proof.
  intros Hden Hle. unfold nearest_even.
  pose proof (Z.div_mod num den ltac:(lia)) as Hdm.
  pose proof (Z.mod_pos_bound num den Hden) as Hr.
  destruct (Z.compare_spec (2 * (num mod den)) den) as [E|L|G];
    [destruct (Z.even (num / den))|..]; nia.
Qed.

Lemma nearest_even_ge (num den bound : Z) :
  (0 < den)%Z -> (bound * den <= num)%Z ->
  (bound <= nearest_even num den)%Z.
Proof.
  intros Hden Hle. unfold nearest_even.
  pose proof (Z.div_mod num den ltac:(lia)) as Hdm.
  pose proof (Z.mod_pos_bound num den Hden) as Hr.
  destruct (Z.compare_spec (2 * (num mod den)) den) as [E|L|G];
    [destruct (Z.even (num / den))|..]; nia.
Qed.

Lemma pow2_pos (e : Z) : 0 < pow2 e.
Proof. apply Qpower_0_lt. reflexivity. Qed.

Lemma pow2_add (a b : Z) : pow2 (a + b) == pow2 a * pow2 b.
Proof. apply Qpower_plus. discriminate. Qed.

Lemma pow2_le (a b : Z) : (a <= b)%Z -> pow2 a <= pow2 b.
Proof. intros H. apply Qpower_le_compat_l; [exact H | discriminate]. Qed.

Lemma pow2_le_inv (a b : Z) : pow2 a <= pow2 b -> (a <= b)%Z.
Proof. intros H. apply (Qpower_le_compat_l_inv 2); [exact H | reflexivity]. Qed.

Lemma pow2_Z (e : Z) : (0 <= e)%Z -> pow2 e == inject_Z (2 ^ e).
Proof. intros H. symmetry. apply (Zpower_Qpower 2 e H). Qed.

Lemma pow2_cancel (e : Z) : pow2 e * pow2 (- e) == 1.
Proof. rewrite <- pow2_add, Z.add_opp_diag_r. reflexivity. Qed.

Lemma Qmake_inject (n : Z) (d : positive) :
  (n # d) * inject_Z (Z.pos d) == inject_Z n.
Proof. unfold Qeq, Qmult, inject_Z. simpl. lia. Qed.

(** The fraction [scaled n d e] is [n / d / 2 ** e]. *)
Lemma scaled_spec (n : Z) (d : positive) (e : Z) :
  (0 < snd (scaled n d e))%Z
  /\ inject_Z (fst (scaled n d e)) * pow2 e
     == (n # d) * inject_Z (snd (scaled n d e)).
Proof.
  unfold scaled. destruct (Z.leb_spec 0 e) as [He|He]; cbn [fst snd].
  - split; [pose proof (Z.pow_pos_nonneg 2 e); lia|].
    rewrite inject_Z_mult, Qmult_assoc, Qmake_inject, (pow2_Z e He).
    reflexivity.
  - split; [lia|].
    rewrite Qmake_inject, inject_Z_mult, <- (pow2_Z (- e)) by lia.
    rewrite <- Qmult_assoc, (Qmult_comm (pow2 (- e))), pow2_cancel.
    ring.
Qed.

(** [2 ** exponent n d <= n / d]. *)
Lemma exponent_le (n : Z) (d : positive) :
  (0 < n)%Z -> pow2 (exponent n d) <= n # d.
Proof.
  intros Hn. unfold exponent.
  set (k := (Z.log2 n - Z.log2 (Z.pos d))%Z).
  assert (Hq : forall j : Z,
             (if (0 <=? j)%Z then (Z.pos d * 2 ^ j <=? n)%Z
              else (Z.pos d <=? n * 2 ^ (- j))%Z) = true ->
             pow2 j <= n # d).
  { intros j Hj.
    apply (Qmult_le_r _ _ (inject_Z (Z.pos d))); [reflexivity|].
    rewrite Qmake_inject.
    destruct (Z.leb_spec 0 j) as [H0|H0]; apply Z.leb_le in Hj.
    - rewrite (pow2_Z j H0), <- inject_Z_mult, <- Zle_Qle. lia.
    - apply (Qmult_le_r _ _ (pow2 (- j))); [apply pow2_pos|].
      rewrite (Qmult_comm (pow2 j)), <- Qmult_assoc, pow2_cancel, Qmult_1_r.
      rewrite (pow2_Z (- j)) by lia.
      rewrite <- inject_Z_mult, <- Zle_Qle. exact Hj. }
  destruct (if (0 <=? k)%Z then (Z.pos d * 2 ^ k <=? n)%Z
            else (Z.pos d <=? n * 2 ^ (- k))%Z) eqn:E; [now apply Hq|].
  apply Hq.
  destruct (Z.log2_spec n Hn) as [Hn1 _].
  destruct (Z.log2_spec (Z.pos d) ltac:(lia)) as [_ Hd2].
  assert (Hln : (0 <= Z.log2 n)%Z) by apply Z.log2_nonneg.
  assert (Hld : (0 <= Z.log2 (Z.pos d))%Z) by apply Z.log2_nonneg.
  rewrite Z.pow_succ_r in Hd2 by exact Hld.
  destruct (Z.leb_spec 0 (k - 1)) as [H0|H0]; apply Z.leb_le.
  - replace (Z.log2 n) with (Z.log2 (Z.pos d) + 1 + (k - 1))%Z in Hn1
      by (subst k; lia).
    rewrite Z.pow_add_r, Z.pow_add_r in Hn1 by lia.
    pose proof (Z.pow_pos_nonneg 2 (k - 1) ltac:(lia) H0).
    change (2 ^ 1)%Z with 2%Z in Hn1. nia.
  - assert (Hp : (2 ^ (Z.log2 (Z.pos d) + 1)
                  = 2 ^ Z.log2 n * 2 ^ (- (k - 1)))%Z).
    { rewrite <- Z.pow_add_r by lia. f_equal. subst k. lia. }
    rewrite Z.pow_add_r in Hp by lia. change (2 ^ 1)%Z with 2%Z in Hp.
    pose proof (Z.pow_pos_nonneg 2 (- (k - 1)) ltac:(lia) ltac:(lia)).
    nia.
Qed.

(** The significand times [2 ** last_bit] is within half a last bit of
    [n / d]. *)
Lemma significand_near (n : Z) (d : positive) :
  Qabs (inject_Z (significand n d) * pow2 (last_bit n d) - (n # d))
  <= pow2 (last_bit n d) * (1 # 2).
Proof.
  unfold significand. set (e := last_bit n d).
  destruct (scaled_spec n d e) as [Hden Hs].
  pose proof (nearest_even_spec (fst (scaled n d e)) (snd (scaled n d e)) Hden)
    as [H1 H2].
  set (num := fst (scaled n d e)) in *.
  set (den := snd (scaled n d e)) in *.
  set (k := nearest_even num den) in *.
  pose proof (pow2_pos e) as Hp.
  assert (HD : 0 < inject_Z den) by (rewrite Zlt_Qlt in Hden; exact Hden).
  rewrite Zle_Qle in H1, H2.
  rewrite !inject_Z_mult, ?inject_Z_plus, ?inject_Z_minus in H1, H2.
  unfold Z.sub in H1. rewrite inject_Z_plus, inject_Z_opp, inject_Z_mult in H1.
  rewrite inject_Z_plus, inject_Z_mult in H2.
  change (inject_Z 2) with 2 in *.
  set (K := inject_Z k) in *. set (N := inject_Z num) in *.
  set (D := inject_Z den) in *. set (P := pow2 e) in *.
  set (q := n # d) in *.
  apply Qabs_Qle_condition.
  assert (Hkey : (K * P - q) * D == P * (K * D - N)).
  { setoid_replace ((K * P - q) * D) with (K * P * D - q * D) by ring.
    rewrite <- Hs. ring. }
  split.
  - apply (Qmult_le_r _ _ D HD). rewrite Hkey.
    setoid_replace (- (P * (1 # 2)) * D) with (P * (- (1 # 2) * D)) by ring.
    apply Qmult_le_l; [exact Hp|]. lra.
  - apply (Qmult_le_r _ _ D HD). rewrite Hkey.
    setoid_replace (P * (1 # 2) * D) with (P * ((1 # 2) * D)) by ring.
    apply Qmult_le_l; [exact Hp|]. lra.
Qed.

Lemma nearest_double_respects (p q : Q) :
  p == q -> nearest_double p = nearest_double q.
Proof. intros H. unfold nearest_double. now rewrite (Qred_complete p q H). Qed.

Lemma Qred_positive (q : Q) :
  0 < q -> exists n d, Qred q = Z.pos n # d.
Proof.
  intros H. destruct (Qred q) as [n d] eqn:E.
  assert (Hq : 0 < n # d) by (rewrite <- E, Qred_correct; exact H).
  unfold Qlt in Hq. simpl in Hq.
  destruct n as [|n|n]; try lia. now exists n, d.
Qed.

(** A positive number whose nearest double does not overflow. *)
Lemma nearest_double_positive (q : Q) (n d : positive) :
  Qred q = Z.pos n # d ->
  (last_bit (Z.pos n) d < 0)%Z ->
  nearest_double q
  = Finite (Qred (inject_Z (significand (Z.pos n) d)
                  * pow2 (last_bit (Z.pos n) d))).
Proof.
  intros E He. unfold nearest_double. rewrite E. cbn [Qnum Qden].
  unfold round_magnitude.
  destruct (Z.leb_spec 0 (last_bit (Z.pos n) d)) as [H|H]; [lia|].
  reflexivity.
Qed.

(** Rounding a positive number of at most [2 ** b], for a small [b]: the
    result is a double of [0, 2 ** b] within half a last bit. *)
Lemma nearest_double_bounded (q : Q) (b : Z) :
  (0 <= b <= 51)%Z ->
  0 < q -> q <= pow2 b ->
  exists v : Q,
    nearest_double q = Finite v
    /\ 0 <= v /\ v <= pow2 b
    /\ Qabs (v - q) <= q * pow2 (-53) + pow2 (-1075)
    /\ (pow2 (-1022) <= q -> 0 < v /\ Qabs (v - q) <= q * pow2 (-53)).
Proof.
  intros Hb Hpos Hle.
  destruct (Qred_positive q Hpos) as [n [d E]].
  assert (Hq : q == Z.pos n # d) by (rewrite <- E, Qred_correct; reflexivity).
  pose proof (exponent_le (Z.pos n) d ltac:(lia)) as Hexp.
  assert (HE : (exponent (Z.pos n) d <= b)%Z).
  { apply pow2_le_inv. rewrite <- Hq in Hexp.
    now apply Qle_trans with q. }
  set (e := last_bit (Z.pos n) d).
  assert (He : (e <= b - 52)%Z) by (subst e; unfold last_bit; lia).
  rewrite (nearest_double_positive q n d E) by (fold e; lia). fold e.
  set (k := significand (Z.pos n) d).
  pose proof (significand_near (Z.pos n) d) as Hnear. fold e k in Hnear.
  rewrite <- Hq in Hnear.
  eexists. split; [reflexivity|]. rewrite Qred_correct.
  destruct (scaled_spec (Z.pos n) d e) as [Hden Hs].
  pose proof (pow2_pos e) as Hp.
  assert (Hnd : (Z.pos n <= 2 ^ b * Z.pos d)%Z).
  { rewrite Hq, (pow2_Z b) in Hle by lia.
    apply (Qmult_le_r _ _ (inject_Z (Z.pos d))) in Hle; [|reflexivity].
    rewrite Qmake_inject, <- inject_Z_mult, <- Zle_Qle in Hle. exact Hle. }
  assert (Hk0 : (0 <= k)%Z).
  { subst k. unfold significand. fold e.
    apply nearest_even_ge; [exact Hden|].
    unfold scaled. destruct (Z.leb_spec 0 e); [lia|]. cbn [fst].
    pose proof (Z.pow_pos_nonneg 2 (- e) ltac:(lia) ltac:(lia)). nia. }
  assert (Hk1 : (k <= 2 ^ (b - e))%Z).
  { subst k. unfold significand. fold e.
    apply nearest_even_le; [exact Hden|].
    unfold scaled. destruct (Z.leb_spec 0 e); [lia|]. cbn [fst snd].
    replace (b - e)%Z with (b + - e)%Z by lia.
    rewrite Z.pow_add_r by lia.
    pose proof (Z.pow_pos_nonneg 2 (- e) ltac:(lia) ltac:(lia)). nia. }
  assert (Hhalf : pow2 e * (1 # 2) == pow2 (e + 52) * pow2 (-53)).
  { rewrite <- pow2_add. replace (e + 52 + -53)%Z with (e + -1)%Z by lia.
    rewrite pow2_add. reflexivity. }
  split; [|split; [|split]].
  - apply Qmult_le_0_compat; [|apply Qlt_le_weak, Hp].
    rewrite Zle_Qle in Hk0. exact Hk0.
  - apply Qle_trans with (inject_Z (2 ^ (b - e)) * pow2 e).
    + apply Qmult_le_r; [exact Hp|]. rewrite <- Zle_Qle. exact Hk1.
    + rewrite <- (pow2_Z (b - e)) by lia.
      rewrite <- pow2_add. replace (b - e + e)%Z with b by lia.
      apply Qle_refl.
  - eapply Qle_trans; [exact Hnear|]. rewrite Hhalf.
    subst e. unfold last_bit.
    destruct (Z.max_spec (exponent (Z.pos n) d - 52) (-1074))
      as [[_ ->]|[_ ->]].
    + change (-1074 + 52)%Z with (-1022)%Z.
      setoid_replace (pow2 (-1022) * pow2 (-53)) with (pow2 (-1075))
        by (rewrite <- pow2_add; reflexivity).
      pose proof (pow2_pos (-53)).
      assert (0 <= q * pow2 (-53)) by (apply Qmult_le_0_compat; lra).
      lra.
    + replace (exponent (Z.pos n) d - 52 + 52)%Z with (exponent (Z.pos n) d)
        by lia.
      pose proof (pow2_pos (-1075)). pose proof (pow2_pos (-53)).
      assert (pow2 (exponent (Z.pos n) d) * pow2 (-53) <= q * pow2 (-53)).
      { apply Qmult_le_r; [assumption|]. now rewrite Hq. }
      lra.
  - intros Hnormal.
    assert (Hlow : pow2 (e + 52) <= q).
    { subst e. unfold last_bit.
      destruct (Z.max_spec (exponent (Z.pos n) d - 52) (-1074))
        as [[_ ->]|[_ ->]].
      - exact Hnormal.
      - replace (exponent (Z.pos n) d - 52 + 52)%Z
          with (exponent (Z.pos n) d) by lia.
        now rewrite Hq. }
    split.
    + assert (Hk : (1 <= k)%Z).
      { subst k. unfold significand. fold e.
        apply nearest_even_ge; [exact Hden|]. rewrite Z.mul_1_l.
        assert (Hpe : pow2 e <= q).
        { apply Qle_trans with (pow2 (e + 52)); [apply pow2_le; lia|].
          exact Hlow. }
        rewrite Zle_Qle.
        apply (Qmult_le_r _ _ (pow2 e) Hp).
        rewrite Hs, <- Hq, (Qmult_comm q).
        apply Qmult_le_l; [|exact Hpe].
        rewrite Zlt_Qlt in Hden. exact Hden. }
      apply Qlt_le_trans with (1 * pow2 e); [lra|].
      apply Qmult_le_r; [exact Hp|]. rewrite Zle_Qle in Hk. exact Hk.
    + eapply Qle_trans; [exact Hnear|]. rewrite Hhalf.
      apply Qmult_le_r; [apply pow2_pos | exact Hlow].
Qed.

Lemma nearest_even_one (m : Z) : nearest_even m 1 = m.
Proof.
  unfold nearest_even. rewrite Z.mod_1_r, Z.div_1_r. reflexivity.
Qed.

Lemma Qred_inject_Z (n : Z) : Qred (inject_Z n) = inject_Z n.
Proof.
  apply Qcanon.Qred_identity. unfold inject_Z. cbn [Qnum Qden].
  apply Z.gcd_1_r.
Qed.

(** An integer of at most 53 bits is a double. *)
Lemma nearest_double_integer (n : Z) :
  (0 <= n <= 2 ^ 53)%Z -> nearest_double (inject_Z n) = Finite (inject_Z n).
Proof.
  intros [H0 H53]. unfold nearest_double. rewrite Qred_inject_Z. cbn [Qnum Qden inject_Z].
  destruct n as [|n|n]; [reflexivity| |lia].
  unfold round_magnitude.
  pose proof (exponent_le (Z.pos n) 1 ltac:(lia)) as Hexp.
  assert (HE : (exponent (Z.pos n) 1 <= 53)%Z).
  { apply pow2_le_inv. eapply Qle_trans; [exact Hexp|].
    rewrite (pow2_Z 53) by lia.
    change (Z.pos n # 1) with (inject_Z (Z.pos n)).
    rewrite <- Zle_Qle. exact H53. }
  set (e := last_bit (Z.pos n) 1).
  assert (He : (-1074 <= e <= 1)%Z) by (subst e; unfold last_bit; lia).
  assert (Hv : inject_Z (significand (Z.pos n) 1) * pow2 e
               == inject_Z (Z.pos n)
               /\ ((0 <=? e)
                   && (2 ^ 1024 <=? significand (Z.pos n) 1 * 2 ^ e))%Z%bool
                  = false).
  { unfold significand. fold e. unfold scaled.
    destruct (Z.leb_spec 0 e) as [Hpos|Hneg]; cbn [fst snd andb].
    - assert (He' : e = 0%Z \/ e = 1%Z) by lia.
      destruct He' as [->|He1].
      + rewrite Z.mul_1_r, nearest_even_one.
        split; [change (pow2 0) with 1; ring|].
        apply Z.leb_gt. change (2 ^ 0)%Z with 1%Z.
        assert (2 ^ 53 < 2 ^ 1024)%Z by (apply Z.pow_lt_mono_r; lia). lia.
      + assert (Hn : Z.pos n = (2 ^ 53)%Z).
        { assert (HE53 : exponent (Z.pos n) 1 = 53%Z)
            by (subst e; unfold last_bit in He1; lia).
          rewrite HE53, (pow2_Z 53) in Hexp by lia.
          change (Z.pos n # 1) with (inject_Z (Z.pos n)) in Hexp.
          rewrite <- Zle_Qle in Hexp. lia. }
        rewrite He1, Hn. split; [vm_compute; reflexivity|].
        vm_compute. reflexivity.
    - rewrite nearest_even_one. split; [|reflexivity].
      rewrite inject_Z_mult, <- (pow2_Z (- e)) by lia.
      rewrite <- Qmult_assoc, (Qmult_comm (pow2 (- e))), pow2_cancel.
      ring. }
  destruct Hv as [Hv ->]. f_equal.
  rewrite (Qred_complete _ _ Hv). apply Qred_inject_Z.
Qed.

(** Adding two whole doubles whose sum has at most 53 bits is exact. *)
Lemma fadd_integers (a b : Z) :
  (0 <= a + b <= 2 ^ 53)%Z ->
  fadd (Finite (inject_Z a)) (Finite (inject_Z b)) = Finite (inject_Z (a + b)).
Proof.
  intros H. cbn [fadd].
  rewrite (nearest_double_respects (inject_Z a + inject_Z b)
             (inject_Z (a + b))).
  - now apply nearest_double_integer.
  - now rewrite inject_Z_plus.
Qed.

Lemma of_int_integer (n : Z) :
  (0 <= n <= 2 ^ 53)%Z -> of_int n = Returns (Finite (inject_Z n)).
Proof. intros H. unfold of_int. now rewrite nearest_double_integer. Qed.

End Doubles.

(** ** Sums and quotients *)

Lemma fold_zadd (l : list Z) :
  forall a, fold_left Z.add l a = (a + fold_right Z.add 0 l)%Z.
Proof.
  induction l as [|x l IH]; intros a; simpl; [lia|].
  rewrite IH. lia.
Qed.

Lemma zsum_cons (x : Z) (l : list Z) : zsum (x :: l) = (x + zsum l)%Z.
Proof. unfold zsum. simpl. rewrite !fold_zadd. lia. Qed.

Lemma zsum_nonneg (l : list Z) :
  Forall (fun c => 1 <= c)%Z l -> (0 <= zsum l)%Z.
Proof.
  induction 1 as [|x l Hx Hl IH]; [unfold zsum; simpl; lia|].
  rewrite zsum_cons. lia.
Qed.

Lemma zsum_positive (l : list Z) :
  l <> [] -> Forall (fun c => 1 <= c)%Z l -> (0 < zsum l)%Z.
Proof.
  intros Hne Hall. destruct Hall as [|x l Hx Hl]; [contradiction|].
  rewrite zsum_cons. pose proof (zsum_nonneg l Hl). lia.
Qed.

Lemma zsum_member (l : list Z) (c : Z) :
  Forall (fun c => 1 <= c)%Z l -> In c l -> (c <= zsum l)%Z.
Proof.
  induction 1 as [|x l Hx Hl IH]; intros Hin; [contradiction|].
  rewrite zsum_cons. pose proof (zsum_nonneg l Hl).
  destruct Hin as [<-|Hin]; [lia|]. specialize (IH Hin). lia.
Qed.

(** [omap] over a function that returns on every member is [map]. *)
Lemma omap_returns {A B} (f : A -> outcome B) (g : A -> B) (l : list A) :
  Forall (fun x => f x = Returns (g x)) l -> omap f l = Returns (map g l).
Proof.
  induction 1 as [|x l Hx Hl IH]; simpl; [reflexivity|].
  now rewrite Hx, IH.
Qed.

Section Quotients.
Local Open Scope Q_scope.

Lemma ratio_unit (count total : Z) :
  (1 <= count <= total)%Z -> 0 < ratio count total /\ ratio count total <= 1.
Proof.
  intros [H1 H2]. unfold ratio.
  assert (Ht : 0 < inject_Z total) by (rewrite <- (Zlt_Qlt 0); lia).
  split.
  - apply Qlt_shift_div_l; [exact Ht|]. rewrite Qmult_0_l.
    rewrite <- (Zlt_Qlt 0). lia.
  - apply Qle_shift_div_r; [exact Ht|]. rewrite Qmult_1_l.
    now rewrite <- Zle_Qle.
Qed.

(** The double stored for a count of a table with positive counts: a
    number of [0, 1] within half a last bit of the exact quotient. *)
Lemma quotient_unit (count total : Z) :
  (1 <= count <= total)%Z ->
  exists v : Q,
    quotient count total = Finite v
    /\ 0 <= v /\ v <= 1
    /\ Qabs (v - ratio count total)
       <= ratio count total * pow2 (-53) + pow2 (-1075)
    /\ (pow2 (-1022) <= ratio count total ->
        0 < v /\ Qabs (v - ratio count total)
                 <= ratio count total * pow2 (-53)).
Proof.
  intros H. destruct (ratio_unit count total H) as [Hpos Hle].
  apply (nearest_double_bounded (ratio count total) 0);
    [lia | exact Hpos | exact Hle].
Qed.

Lemma truediv_unit (count total : Z) :
  (1 <= count <= total)%Z ->
  truediv count total = Returns (quotient count total).
Proof.
  intros H. destruct (quotient_unit count total H) as [v [Hv _]].
  unfold truediv. destruct (Z.eqb_spec total 0) as [E|_]; [lia|].
  fold (ratio count total). fold (quotient count total). now rewrite Hv.
Qed.

Lemma frequencies_to_probabilities_map (frequencies : freq) :
  Forall (fun kc => 1 <= snd kc)%Z frequencies ->
  _frequencies_to_probabilities frequencies
  = Returns (map (probability_entry (zsum (values frequencies))) frequencies).
Proof.
  intros Hall. unfold _frequencies_to_probabilities.
  destruct frequencies as [|kc rest]; [reflexivity|].
  apply omap_returns. apply Forall_forall. intros [k c] Hin.
  rewrite truediv_unit; [reflexivity|].
  rewrite Forall_forall in Hall. split; [exact (Hall _ Hin)|].
  apply zsum_member.
  - unfold values. apply Forall_map. apply Forall_forall. exact Hall.
  - unfold values. change c with (snd (k, c)). now apply in_map.
Qed.

Lemma sum_of_ratios (total : Z) (t : freq) :
  fold_right Qplus 0 (ratios total t)
  == inject_Z (zsum (values t)) / inject_Z total.
Proof.
  unfold ratios, values.
  induction t as [|[k c] t IH]; cbn [map fold_right snd].
  - unfold zsum. simpl. unfold Qdiv. ring.
  - rewrite IH, zsum_cons, inject_Z_plus. unfold ratio, Qdiv. ring.
Qed.

Lemma ratios_sum_to_one (t : freq) :
  zsum (values t) <> 0%Z ->
  fold_right Qplus 0 (ratios (zsum (values t)) t) == 1.
Proof.
  intros Hnz. rewrite sum_of_ratios. unfold Qdiv. apply Qmult_inv_r.
  intros E. apply Hnz. unfold Qeq, inject_Z in E. simpl in E. lia.
Qed.

(** The numbers stored differ from the exact quotients, summed, by at most
    half a last bit of the sum and the underflow of each entry. *)
Lemma stored_sum_near (total : Z) (t : freq) :
  Forall (fun kc => 1 <= snd kc <= total)%Z t ->
  Qabs (exact_sum (values (map (probability_entry total) t))
        - fold_right Qplus 0 (ratios total t))
  <= fold_right Qplus 0 (ratios total t) * pow2 (-53)
     + inject_Z (Z.of_nat (List.length t)) * pow2 (-1075).
Proof.
  unfold exact_sum, ratios, values.
  induction 1 as [|[k c] t Hc Ht IH];
    cbn [map fold_right snd fst probability_entry List.length].
  - change (inject_Z (Z.of_nat 0)) with 0. rewrite Qmult_0_l, Qmult_0_l.
    apply Qle_refl.
  - cbn [snd] in Hc.
    destruct (quotient_unit c total Hc) as [v [Hv [_ [_ [Herr _]]]]].
    rewrite Hv. cbn [value].
    set (S1 := fold_right Qplus 0
                 (map value
                    (map snd (map (probability_entry total) t)))) in *.
    set (S2 := fold_right Qplus 0
                 (map (fun kc => ratio (snd kc) total) t)) in *.
    rewrite Nat2Z.inj_succ. unfold Z.succ. rewrite inject_Z_plus.
    change (inject_Z 1) with 1.
    setoid_replace (v + S1 - (ratio c total + S2))
      with ((v - ratio c total) + (S1 - S2)) by ring.
    eapply Qle_trans; [apply Qabs_triangle|].
    setoid_replace ((ratio c total + S2) * pow2 (-53)
                    + (inject_Z (Z.of_nat (List.length t)) + 1)
                      * pow2 (-1075))
      with ((ratio c total * pow2 (-53) + pow2 (-1075))
            + (S2 * pow2 (-53)
               + inject_Z (Z.of_nat (List.length t)) * pow2 (-1075)))
      by ring.
    apply Qplus_le_compat; [exact Herr | exact IH].
Qed.

Lemma Qmult_le_left (c a b : Q) : 0 <= c -> a <= b -> c * a <= c * b.
Proof.
  intros Hc Hab. rewrite !(Qmult_comm c). now apply Qmult_le_compat_r.
Qed.

Lemma nearest_double_zero (q : Q) : q == 0 -> nearest_double q = Finite 0.
Proof. intros H. now rewrite (nearest_double_respects q 0 H). Qed.

Lemma pow2_52 : pow2 (-52) == 2 * pow2 (-53).
Proof. reflexivity. Qed.

(** Summing doubles of [0, 1] from left to right, each addition rounded:
    while the sum stays below 2, every addition is off by at most
    [2 ** -52 + 2 ** -1075]. *)
Lemma fold_fadd_near :
  forall (l : list float) (a : Q),
    0 <= a ->
    Forall (fun x => exists v, x = Finite v /\ 0 <= v /\ v <= 1) l ->
    a + exact_sum l
    + inject_Z (Z.of_nat (List.length l)) * (pow2 (-52) + pow2 (-1075)) <= 2 ->
    exists s : Q,
      fold_left fadd l (Finite a) = Finite s
      /\ 0 <= s
      /\ Qabs (s - (a + exact_sum l))
         <= inject_Z (Z.of_nat (List.length l))
            * (pow2 (-52) + pow2 (-1075)).
Proof.
  pose proof (pow2_pos (-53)) as H53. pose proof (pow2_pos (-1075)) as H1075.
  pose proof pow2_52 as H52.
  unfold exact_sum.
  induction l as [|x l IH]; intros a Ha Hall Hroom;
    cbn [fold_left map fold_right List.length] in *.
  - exists a. split; [reflexivity|]. split; [exact Ha|].
    setoid_replace (a - (a + 0)) with 0 by ring.
    change (inject_Z (Z.of_nat 0)) with 0. rewrite Qmult_0_l. apply Qle_refl.
  - inversion Hall as [|? ? [v [-> [Hv0 Hv1]]] Hrest]; subst.
    cbn [value] in *.
    set (S := fold_right Qplus 0 (map value l)) in *.
    set (d := pow2 (-52) + pow2 (-1075)) in *.
    assert (Hd : 0 < d) by (subst d; lra).
    rewrite Nat2Z.inj_succ in *. unfold Z.succ in *.
    rewrite inject_Z_plus in *. change (inject_Z 1) with 1 in *.
    set (n := inject_Z (Z.of_nat (List.length l))) in *.
    assert (Hn : 0 <= n) by (subst n; rewrite <- (Zle_Qle 0); lia).
    assert (HS : 0 <= S).
    { subst S. clear - Hrest. induction Hrest as [|y l [w [-> [Hw _]]] _ IH];
        cbn [map fold_right value]; [apply Qle_refl|]. lra. }
    assert (Hnd : 0 <= n * d) by (apply Qmult_le_0_compat; lra).
    assert (Hstep : exists s1 : Q,
               fadd (Finite a) (Finite v) = Finite s1
               /\ 0 <= s1 /\ Qabs (s1 - (a + v)) <= d).
    { cbn [fadd]. destruct (Qlt_le_dec 0 (a + v)) as [Hpos|Hzero].
      - destruct (nearest_double_bounded (a + v) 1 ltac:(lia) Hpos)
          as [s1 [Hs1 [H0 [_ [Herr _]]]]].
        { change (pow2 1) with 2. lra. }
        exists s1. split; [exact Hs1|]. split; [exact H0|].
        eapply Qle_trans; [exact Herr|]. subst d.
        assert ((a + v) * pow2 (-53) <= 2 * pow2 (-53)).
        { apply Qmult_le_r; [exact H53 | lra]. }
        lra.
      - exists 0. split; [apply nearest_double_zero; lra|].
        split; [apply Qle_refl|].
        setoid_replace (0 - (a + v)) with 0 by lra.
        apply Qlt_le_weak. exact Hd. }
    destruct Hstep as [s1 [Es1 [Hs1 Herr1]]]. rewrite Es1.
    apply Qabs_Qle_condition in Herr1. destruct Herr1 as [He1 He2].
    destruct (IH s1 Hs1 Hrest) as [s [Es [Hs Herr]]].
    { fold S n. lra. }
    fold S n in Herr.
    exists s. split; [exact Es|]. split; [exact Hs|].
    apply Qabs_Qle_condition in Herr. destruct Herr as [He3 He4].
    apply Qabs_Qle_condition. split; lra.
Qed.

End Quotients.

(** C2. [_frequencies_to_probabilities] returns the empty distribution for
    the empty table.  For a non-empty table of counts that are at least 1
    it returns, for each key in turn, the double nearest to the count
    divided by the one total of all the counts: a number of [0, 1] within
    a relative [2 ** -53] (and an underflow of [2 ** -1075]) of the exact
    quotient.  The exact quotients sum to 1 in rational arithmetic.  The
    numbers the doubles hold sum to 1 within [2 ** -53] and the underflow
    of each entry, which is less than 1e-9 for any table of at most
    [2 ** 1000] keys; and their floating-point sum, added from left to right
    as [sum] does, is within 1e-9 of 1 for a table of at most [2 ** 20]
    keys. *)
Theorem frequencies_to_probabilities_normalized (frequencies : freq) :
  Forall (fun kc => 1 <= snd kc)%Z frequencies ->
  let total := zsum (values frequencies) in
  let n := Z.of_nat (List.length frequencies) in
  exists d : dist,
    _frequencies_to_probabilities frequencies = Returns d
    /\ (frequencies = [] -> d = [])
    /\ keys d = keys frequencies
    /\ Forall2 (fun kc kp =>
                  fst kp = fst kc
                  /\ snd kp = quotient (snd kc) total
                  /\ exists v : Q,
                       snd kp = Finite v
                       /\ (0 <= v)%Q /\ (v <= 1)%Q
                       /\ (Qabs (v - ratio (snd kc) total)
                           <= ratio (snd kc) total * pow2 (-53)
                              + pow2 (-1075))%Q)
               frequencies d
    /\ (frequencies <> [] ->
        (fold_right Qplus 0 (ratios total frequencies) == 1)%Q
        /\ (Qabs (exact_sum (values d) - 1)
            <= pow2 (-53) + inject_Z n * pow2 (-1075))%Q
        /\ ((n <= 2 ^ 1000)%Z ->
            (Qabs (exact_sum (values d) - 1) <= 1 # 1000000000)%Q)
        /\ ((n <= 2 ^ 20)%Z ->
            exists s : Q,
              fsum (values d) = Finite s
              /\ (Qabs (s - 1) <= 1 # 1000000000)%Q)).
Proof.
  intros Hpos total n.
  exists (map (probability_entry total) frequencies).
  split; [now apply frequencies_to_probabilities_map|].
  split; [now intros ->|].
  split.
  { unfold keys. rewrite map_map. apply map_ext. now intros [k c]. }
  assert (Hbound : Forall (fun kc => 1 <= snd kc <= total)%Z frequencies).
  { rewrite Forall_forall in *. intros [k c] Hin. cbn [snd].
    split; [exact (Hpos _ Hin)|]. apply zsum_member.
    - unfold values. apply Forall_map. apply Forall_forall. exact Hpos.
    - unfold values. change c with (snd (k, c)). now apply in_map. }
  split.
  { clear - Hbound. generalize dependent total. intros total Hbound.
    induction Hbound as [|[k c] t Hc Ht IH]; [constructor|].
    constructor; [|exact IH]. cbn [snd] in Hc.
    split; [reflexivity|]. split; [reflexivity|].
    destruct (quotient_unit c total Hc) as [v [Hv [H0 [H1 [Herr _]]]]].
    exists v. cbn [probability_entry snd fst]. now repeat split. }
  intros Hne.
  assert (Hnz : total <> 0%Z).
  { assert (0 < total)%Z; [|lia]. apply zsum_positive.
    - unfold values. intros E. apply map_eq_nil in E. contradiction.
    - unfold values. apply Forall_map. exact Hpos. }
  pose proof (ratios_sum_to_one frequencies Hnz) as Hone. fold total in Hone.
  pose proof (stored_sum_near total frequencies Hbound) as Hnear.
  rewrite Hone, Qmult_1_l in Hnear. fold n in Hnear.
  set (E := exact_sum (values (map (probability_entry total) frequencies)))
    in *.
  pose proof (pow2_pos (-53)) as H53. pose proof (pow2_pos (-1075)) as H1075.
  assert (Hn0 : (0 <= inject_Z n)%Q)
    by (subst n; rewrite <- (Zle_Qle 0); lia).
  assert (V53 : (pow2 (-53) == 1 # 9007199254740992)%Q) by reflexivity.
  split; [exact Hone|]. split; [exact Hnear|]. split.
  - intros Hn.
    assert (Hu : (inject_Z n * pow2 (-1075) <= pow2 (-75))%Q).
    { setoid_replace (pow2 (-75)) with (pow2 1000 * pow2 (-1075))%Q
        by (rewrite <- pow2_add; reflexivity).
      apply Qmult_le_r; [exact H1075|].
      rewrite (pow2_Z 1000) by lia. now rewrite <- Zle_Qle. }
    assert (V75 : (pow2 (-75) == 1 # 37778931862957161709568)%Q)
      by reflexivity.
    eapply Qle_trans; [exact Hnear|]. lra.
  - intros Hn.
    assert (Hq : (inject_Z n <= 1048576)%Q).
    { change 1048576%Q with (inject_Z (2 ^ 20)). now rewrite <- Zle_Qle. }
    assert (V52 : (pow2 (-52) == 1 # 4503599627370496)%Q) by reflexivity.
    assert (Hsmall : (pow2 (-1075) <= pow2 (-52))%Q) by (apply pow2_le; lia).
    assert (Hd : (inject_Z n * (pow2 (-52) + pow2 (-1075))
                  <= 1048576 * (2 * pow2 (-52)))%Q).
    { apply Qle_trans with (inject_Z n * (2 * pow2 (-52)))%Q.
      - apply Qmult_le_left; [exact Hn0 | lra].
      - apply Qmult_le_r; [lra | exact Hq]. }
    assert (Hu : (inject_Z n * pow2 (-1075) <= 1048576 * pow2 (-52))%Q).
    { apply Qle_trans with (inject_Z n * pow2 (-52))%Q.
      - apply Qmult_le_left; [exact Hn0 | exact Hsmall].
      - apply Qmult_le_r; [lra | exact Hq]. }
    apply Qabs_Qle_condition in Hnear. destruct Hnear as [Hn1 Hn2].
    destruct (fold_fadd_near
                (values (map (probability_entry total) frequencies)) 0)
      as [s [Es [_ Herr]]].
    + apply Qle_refl.
    + unfold values. rewrite map_map. apply Forall_map.
      eapply Forall_impl; [|exact Hbound]. intros [k c] Hc.
      cbn [snd probability_entry] in *.
      destruct (quotient_unit c total Hc) as [v [Hv [H0 [H1 _]]]].
      exists v. now repeat split.
    + unfold values at 2. rewrite !length_map. fold n E. lra.
    + unfold values at 2 in Herr. rewrite !length_map in Herr.
      fold n E in Herr. rewrite Qplus_0_l in Herr.
      exists s. split; [exact Es|].
      apply Qabs_Qle_condition in Herr. destruct Herr as [He1 He2].
      apply Qabs_Qle_condition. split; lra.
Qed.

Lemma frequencies_to_probabilities_normalized_witness :
  exists d : dist,
    _frequencies_to_probabilities [("a", 2); ("b", 4); ("c", 1)]%Z = Returns d
    /\ ([("a", 2); ("b", 4); ("c", 1)]%Z = [] -> d = [])
    /\ keys d = ["a"; "b"; "c"]
    /\ Forall2 (fun kc kp =>
                  fst kp = fst kc
                  /\ snd kp = quotient (snd kc) 7
                  /\ exists v : Q,
                       snd kp = Finite v
                       /\ (0 <= v)%Q /\ (v <= 1)%Q
                       /\ (Qabs (v - ratio (snd kc) 7)
                           <= ratio (snd kc) 7 * pow2 (-53)
                              + pow2 (-1075))%Q)
               [("a", 2); ("b", 4); ("c", 1)]%Z d
    /\ ([("a", 2); ("b", 4); ("c", 1)]%Z <> [] ->
        (fold_right Qplus 0 (ratios 7 [("a", 2); ("b", 4); ("c", 1)]%Z)
         == 1)%Q
        /\ (Qabs (exact_sum (values d) - 1)
            <= pow2 (-53) + inject_Z 3 * pow2 (-1075))%Q
        /\ ((3 <= 2 ^ 1000)%Z ->
            (Qabs (exact_sum (values d) - 1) <= 1 # 1000000000)%Q)
        /\ ((3 <= 2 ^ 20)%Z ->
            exists s : Q,
              fsum (values d) = Finite s
              /\ (Qabs (s - 1) <= 1 # 1000000000)%Q)).
Proof.
  exact (frequencies_to_probabilities_normalized
           [("a", 2); ("b", 4); ("c", 1)]%Z
           ltac:(repeat constructor; simpl; lia)).
Defined.

(** ** Dictionaries *)

Section DictFacts.
Context {K V : Type}.
Variable eqb : K -> K -> bool.
Hypothesis eqb_spec : forall a b, reflect (a = b) (eqb a b).

Lemma get_update_same (k : K) (f : option V -> V) (d : list (K * V)) :
  get eqb k (update eqb k f d) = Some (f (get eqb k d)).
Proof.
  induction d as [|[k' v] d IH]; simpl.
  - destruct (eqb_spec k k); [reflexivity | contradiction].
  - destruct (eqb_spec k k') as [->|Hne]; simpl.
    + destruct (eqb_spec k' k'); [reflexivity | contradiction].
    + destruct (eqb_spec k k'); [contradiction | exact IH].
Qed.

Lemma get_update_other (k k' : K) (f : option V -> V) (d : list (K * V)) :
  k' <> k -> get eqb k' (update eqb k f d) = get eqb k' d.
Proof.
  intros Hne. induction d as [|[k0 v] d IH]; simpl.
  - destruct (eqb_spec k' k); [contradiction | reflexivity].
  - destruct (eqb_spec k k0) as [->|Hk]; simpl.
    + destruct (eqb_spec k' k0); [contradiction | reflexivity].
    + destruct (eqb_spec k' k0); [reflexivity | exact IH].
Qed.

(** A property of the values that the update keeps holds afterwards. *)
Lemma update_Forall (P : V -> Prop) (k : K) (f : option V -> V)
  (d : list (K * V)) :
  P (f None) -> (forall v, P v -> P (f (Some v))) ->
  Forall (fun kv => P (snd kv)) d ->
  Forall (fun kv => P (snd kv)) (update eqb k f d).
Proof.
  intros Hnew Hold. induction 1 as [|[k' v] d Hv Hd IH]; simpl.
  - repeat constructor. exact Hnew.
  - destruct (eqb k k'); constructor; simpl; auto.
Qed.

Lemma get_In (k : K) (v : V) (d : list (K * V)) :
  get eqb k d = Some v -> In (k, v) d.
Proof.
  induction d as [|[k' v'] d IH]; simpl; [discriminate|].
  destruct (eqb_spec k k') as [->|Hne].
  - intros [= ->]. now left.
  - intros H. right. now apply IH.
Qed.

Lemma get_map_values {W} (g : V -> W) (k : K) (d : list (K * V)) :
  get eqb k (map (fun kv => (fst kv, g (snd kv))) d)
  = option_map g (get eqb k d).
Proof.
  induction d as [|[k' v] d IH]; simpl; [reflexivity|].
  destruct (eqb k k'); [reflexivity | exact IH].
Qed.
End DictFacts.

Lemma context_eqb_spec (a b : context) : reflect (a = b) (context_eqb a b).
Proof.
  destruct a as [x|x1 x2], b as [y|y1 y2]; simpl;
    try (constructor; discriminate).
  - destruct (String.eqb_spec x y) as [->|H]; constructor; congruence.
  - destruct (String.eqb_spec x1 y1) as [->|H1];
      destruct (String.eqb_spec x2 y2) as [->|H2];
      constructor; congruence.
Qed.

(** [update] through a map of the values. *)
Lemma update_map_values {K V W} (eqb : K -> K -> bool) (g : V -> W)
  (k : K) (f : option V -> V) (f' : option W -> W) :
  forall d : list (K * V),
    f' (option_map g (get eqb k d)) = g (f (get eqb k d)) ->
    update eqb k f' (map (fun kv => (fst kv, g (snd kv))) d)
    = map (fun kv => (fst kv, g (snd kv))) (update eqb k f d).
Proof.
  induction d as [|[k' v] d IH]; cbn [get update map fst snd]; intros H.
  - cbn [option_map] in H. now rewrite H.
  - destruct (eqb k k'); cbn [map fst snd].
    + cbn [option_map] in H. now rewrite H.
    + now rewrite IH.
Qed.

(** A property of the values, turned into another by the update. *)
Lemma update_Forall_step {K V} (eqb : K -> K -> bool) (P Q : V -> Prop)
  (k : K) (f : option V -> V) (d : list (K * V)) :
  Q (f None) -> (forall v, P v -> Q (f (Some v))) -> (forall v, P v -> Q v) ->
  Forall (fun kv => P (snd kv)) d ->
  Forall (fun kv => Q (snd kv)) (update eqb k f d).
Proof.
  intros Hnew Hold Hkeep. induction 1 as [|[k' v] d Hv Hd IH]; simpl.
  - repeat constructor. exact Hnew.
  - destruct (eqb k k'); constructor; simpl; auto.
    eapply Forall_impl; [|exact Hd]. intros kv. apply Hkeep.
Qed.

(** ** Building the Markov chains *)

Import Coverage.

(** *** The counts, as integers *)

Lemma count_ngram_entry (zc : counts) (key : string) (count : Z) :
  count_ngram zc (key, count)
  = match entry_context key with
    | Some (ctx, n) => count_entry ctx n count zc
    | None => zc
    end.
Proof.
  unfold count_ngram, entry_context.
  destruct (split "||" key) as [|p0 [|p1 [|p2 [|p3 l]]]]; reflexivity.
Qed.

Lemma add_ngram_entry (ch : chains) (key : string) (count : Z) :
  add_ngram ch (key, count)
  = match entry_context key with
    | Some (ctx, n) => add_count ctx n count ch
    | None => Returns ch
    end.
Proof.
  unfold add_ngram, entry_context.
  destruct (split "||" key) as [|p0 [|p1 [|p2 [|p3 l]]]]; reflexivity.
Qed.

Lemma counts_get_count_entry_same (p : context) (n : string) (c : Z)
  (zc : counts) :
  counts_get (count_entry p n c zc) p = count_item n c (counts_get zc p).
Proof.
  unfold counts_get, count_entry.
  rewrite (get_update_same context_eqb context_eqb_spec).
  destruct (get context_eqb p zc); reflexivity.
Qed.

Lemma counts_get_count_entry_other (p p' : context) (n : string) (c : Z)
  (zc : counts) :
  p' <> p -> counts_get (count_entry p n c zc) p' = counts_get zc p'.
Proof.
  intros Hne. unfold counts_get, count_entry.
  now rewrite (get_update_other context_eqb context_eqb_spec).
Qed.

(** Adding [c] to one item adds [c] to the sum of the values. *)
Lemma zsum_count_item (b : string) (c : Z) (d : list (string * Z)) :
  zsum (values (count_item b c d)) = (zsum (values d) + c)%Z.
Proof.
  unfold values, count_item.
  induction d as [|[k v] d IH]; cbn [update map snd].
  - rewrite zsum_cons. unfold zsum. simpl. lia.
  - destruct (String.eqb b k); cbn [map snd]; rewrite !zsum_cons; lia.
Qed.

Lemma count_at_count_entry (p : context) (n : string) (c : Z) (zc : counts)
  (ctx : context) (b : string) :
  count_at (count_entry p n c zc) ctx b
  = (count_at zc ctx b
     + (if context_eqb ctx p && String.eqb b n then c else 0))%Z.
Proof.
  unfold count_at.
  destruct (context_eqb_spec ctx p) as [<-|Hne]; cbn [andb].
  - rewrite counts_get_count_entry_same. unfold count_item.
    destruct (String.eqb_spec b n) as [->|Hb].
    + rewrite (get_update_same String.eqb String.eqb_spec).
      destruct (get String.eqb n (counts_get zc ctx)); lia.
    + rewrite (get_update_other String.eqb String.eqb_spec) by exact Hb.
      lia.
  - rewrite counts_get_count_entry_other by exact Hne. lia.
Qed.

Lemma total_at_count_entry (p : context) (n : string) (c : Z) (zc : counts)
  (ctx : context) :
  total_at (count_entry p n c zc) ctx
  = (total_at zc ctx + (if context_eqb ctx p then c else 0))%Z.
Proof.
  unfold total_at.
  destruct (context_eqb_spec ctx p) as [<-|Hne].
  - rewrite counts_get_count_entry_same. apply zsum_count_item.
  - rewrite counts_get_count_entry_other by exact Hne. lia.
Qed.

(** The count held for a continuation is the sum of the counts of the
    entries that contribute it to the context. *)
Lemma count_at_fold (ctx : context) (b : string) :
  forall (t : freq) (zc : counts),
    count_at (fold_left count_ngram t zc) ctx b
    = (count_at zc ctx b + continuation_count t ctx b)%Z.
Proof.
  induction t as [|[key count] t IH]; intros zc;
    cbn [fold_left continuation_count]; [lia|].
  rewrite IH, count_ngram_entry.
  destruct (entry_context key) as [[c n]|]; [|lia].
  rewrite count_at_count_entry.
  destruct (context_eqb ctx c && String.eqb b n); lia.
Qed.

(** The total held for a context is the sum of the counts of the entries
    that contribute to it. *)
Lemma total_at_fold (ctx : context) :
  forall (t : freq) (zc : counts),
    total_at (fold_left count_ngram t zc) ctx
    = (total_at zc ctx + context_count t ctx)%Z.
Proof.
  induction t as [|[key count] t IH]; intros zc;
    cbn [fold_left context_count]; [lia|].
  rewrite IH, count_ngram_entry.
  destruct (entry_context key) as [[c n]|]; [|lia].
  rewrite total_at_count_entry.
  destruct (context_eqb ctx c); lia.
Qed.

Lemma stored_count_entry (p : context) (n : string) (c : Z) (zc : counts)
  (ctx : context) (b : string) :
  (exists v, get String.eqb b (counts_get zc ctx) = Some v)
  \/ (p = ctx /\ n = b) ->
  exists v, get String.eqb b (counts_get (count_entry p n c zc) ctx) = Some v.
Proof.
  intros H.
  destruct (context_eqb_spec ctx p) as [<-|Hne].
  - rewrite counts_get_count_entry_same. unfold count_item.
    destruct (String.eqb_spec b n) as [->|Hb].
    + rewrite (get_update_same String.eqb String.eqb_spec). eauto.
    + rewrite (get_update_other String.eqb String.eqb_spec) by exact Hb.
      destruct H as [H|[_ E]]; [exact H | congruence].
  - rewrite counts_get_count_entry_other by exact Hne.
    destruct H as [H|[E _]]; [exact H | congruence].
Qed.

Lemma stored_fold (ctx : context) (b : string) :
  forall (t : freq) (zc : counts),
    (exists v, get String.eqb b (counts_get zc ctx) = Some v)
    \/ (exists key count,
           In (key, count) t /\ entry_context key = Some (ctx, b)) ->
    exists v,
      get String.eqb b (counts_get (fold_left count_ngram t zc) ctx) = Some v.
Proof.
  induction t as [|[key count] t IH]; intros zc H; cbn [fold_left].
  - destruct H as [H|[k [c [[] _]]]]. exact H.
  - apply IH. rewrite count_ngram_entry.
    destruct H as [H|[k [c [[E|Hin] Hs]]]].
    + left. destruct (entry_context key) as [[c0 n0]|]; [|exact H].
      apply stored_count_entry. now left.
    + injection E as <- <-. left. rewrite Hs.
      apply stored_count_entry. now right.
    + right. now exists k, c.
Qed.

Lemma counts_get_hit (zc : counts) (ctx : context) (b : string) (v : Z) :
  get String.eqb b (counts_get zc ctx) = Some v ->
  exists d, get context_eqb ctx zc = Some d /\ counts_get zc ctx = d.
Proof.
  unfold counts_get.
  destruct (get context_eqb ctx zc) as [d|]; [|discriminate].
  intros _. now exists d.
Qed.

Lemma within_member (bound : Z) (d : list (string * Z)) (k : string) (v : Z) :
  Forall (fun kv => 1 <= snd kv)%Z d ->
  (zsum (values d) <= bound)%Z ->
  get String.eqb k d = Some v -> (1 <= v <= bound)%Z.
Proof.
  intros Hall Hsum Hget.
  apply (get_In String.eqb String.eqb_spec) in Hget.
  split.
  - rewrite Forall_forall in Hall. exact (Hall _ Hget).
  - apply Z.le_trans with (zsum (values d)); [|exact Hsum].
    apply zsum_member.
    + unfold values. apply Forall_map. exact Hall.
    + unfold values. change v with (snd (k, v)). now apply in_map.
Qed.

Lemma count_item_within (bound : Z) (n : string) (c : Z)
  (d : list (string * Z)) :
  (1 <= c)%Z ->
  Forall (fun kv => 1 <= snd kv)%Z d ->
  (zsum (values d) <= bound)%Z ->
  Forall (fun kv => 1 <= snd kv)%Z (count_item n c d)
  /\ (zsum (values (count_item n c d)) <= bound + c)%Z.
Proof.
  intros Hc Hall Hsum. split.
  - unfold count_item.
    apply (update_Forall String.eqb (fun v => 1 <= v)%Z);
      [lia | intros v Hv; lia | exact Hall].
  - rewrite zsum_count_item. lia.
Qed.

Lemma count_entry_within (bound : Z) (p : context) (n : string) (c : Z)
  (zc : counts) :
  (1 <= c)%Z -> (0 <= bound)%Z ->
  within bound zc -> within (bound + c) (count_entry p n c zc).
Proof.
  intros Hc Hb Hin. unfold within, count_entry.
  apply (update_Forall_step context_eqb
           (fun d => Forall (fun kv => 1 <= snd kv)%Z d
                     /\ (zsum (values d) <= bound)%Z)
           (fun d => Forall (fun kv => 1 <= snd kv)%Z d
                     /\ (zsum (values d) <= bound + c)%Z)).
  - destruct (count_item_within 0 n c [] Hc (Forall_nil _)) as [H1 H2];
      [unfold zsum; simpl; lia|].
    split; [exact H1 | lia].
  - intros d [H1 H2]. now apply count_item_within.
  - intros d [H1 H2]. split; [exact H1 | lia].
  - exact Hin.
Qed.

Lemma exact_counts_within :
  forall (t : freq) (zc : counts) (bound : Z),
    Forall (fun kc => 1 <= snd kc)%Z t ->
    (0 <= bound)%Z ->
    within bound zc ->
    within (bound + zsum (values t)) (fold_left count_ngram t zc).
Proof.
  induction t as [|[key count] t IH]; intros zc bound Hall Hb Hin;
    cbn [fold_left].
  - unfold zsum. simpl. now rewrite Z.add_0_r.
  - inversion Hall as [|? ? Hc Hrest]; subst. cbn [snd] in Hc.
    unfold values. cbn [map snd]. fold (values t). rewrite zsum_cons.
    rewrite count_ngram_entry.
    destruct (entry_context key) as [[ctx n]|].
    + replace (bound + (count + zsum (values t)))%Z
        with (bound + count + zsum (values t))%Z by lia.
      apply IH; [exact Hrest | lia | now apply count_entry_within].
    + pose proof (IH zc bound Hrest Hb Hin) as H.
      unfold within in *. eapply Forall_impl; [|exact H].
      intros pd [H1 H2]. split; [exact H1 | lia].
Qed.

(** *** The counts, as doubles *)

(** While the total stays an integer that a double holds, the float
    addition of [chains[prefix][next_item] += count] is the integer one. *)
Lemma add_float_exact (n : string) (c : Z) (d : list (string * Z))
  (bound : Z) :
  (1 <= c)%Z -> (bound + c <= exact_bound)%Z ->
  Forall (fun kv => 1 <= snd kv)%Z d ->
  (zsum (values d) <= bound)%Z ->
  add_float n (Finite (inject_Z c)) (as_floats d)
  = as_floats (count_item n c d).
Proof.
  intros Hc Hb Hall Hsum.
  pose proof (zsum_nonneg (values d)
                ltac:(unfold values; apply Forall_map; exact Hall)) as H0.
  unfold add_float, as_floats, count_item.
  apply (update_map_values String.eqb (fun z => Finite (inject_Z z))).
  destruct (get String.eqb n d) as [v|] eqn:E; cbn [option_map].
  - destruct (within_member bound d n v Hall Hsum E) as [H1 H2].
    apply fadd_integers. unfold exact_bound in Hb. lia.
  - change (Finite 0) with (Finite (inject_Z 0)).
    apply fadd_integers. unfold exact_bound in Hb. lia.
Qed.

Lemma add_count_exact (p : context) (n : string) (c : Z) (zc : counts)
  (bound : Z) :
  (1 <= c)%Z -> (0 <= bound)%Z -> (bound + c <= exact_bound)%Z ->
  within bound zc ->
  add_count p n c (as_chains zc) = Returns (as_chains (count_entry p n c zc)).
Proof.
  intros Hc H0 Hb Hin. unfold add_count.
  rewrite of_int_integer by (unfold exact_bound in Hb; lia).
  cbn [obind]. f_equal. unfold as_chains, count_entry.
  apply (update_map_values context_eqb as_floats).
  destruct (get context_eqb p zc) as [d|] eqn:E; cbn [option_map].
  - apply (get_In context_eqb context_eqb_spec) in E.
    unfold within in Hin. rewrite Forall_forall in Hin.
    destruct (Hin _ E) as [H1 H2]. cbn [snd] in H1, H2.
    now apply (add_float_exact n c d bound).
  - apply (add_float_exact n c [] bound); try assumption. constructor.
Qed.

(** With counts of at least 1 that sum to at most [2 ** 53], the first
    loop holds the exact counts. *)
Lemma accumulate_counts_exact :
  forall (t : freq) (zc : counts) (bound : Z),
    Forall (fun kc => 1 <= snd kc)%Z t ->
    (0 <= bound)%Z ->
    (bound + zsum (values t) <= exact_bound)%Z ->
    within bound zc ->
    ofold add_ngram t (as_chains zc)
    = Returns (as_chains (fold_left count_ngram t zc)).
Proof.
  induction t as [|[key count] t IH]; intros zc bound Hall H0 Hb Hin;
    cbn [ofold fold_left]; [reflexivity|].
  inversion Hall as [|? ? Hc Hrest]; subst. cbn [snd] in Hc.
  unfold values in Hb. cbn [map snd] in Hb. fold (values t) in Hb.
  rewrite zsum_cons in Hb.
  pose proof (zsum_nonneg (values t)
                ltac:(unfold values; apply Forall_map; exact Hrest)) as Hrest0.
  rewrite add_ngram_entry, count_ngram_entry.
  destruct (entry_context key) as [[ctx n]|]; cbn [obind].
  - rewrite (add_count_exact ctx n count zc bound) by (try assumption; lia).
    cbn [obind].
    apply (IH _ (bound + count)%Z); [exact Hrest | lia | lia|].
    now apply count_entry_within.
  - apply (IH _ bound); [exact Hrest | exact H0 | lia | exact Hin].
Qed.

(** The float sum of integers whose sum a double holds is that sum. *)
Lemma fold_fadd_integers :
  forall (l : list Z) (a : Z),
    (0 <= a)%Z -> Forall (fun c => 1 <= c)%Z l ->
    (a + zsum l <= exact_bound)%Z ->
    fold_left fadd (map (fun z => Finite (inject_Z z)) l) (Finite (inject_Z a))
    = Finite (inject_Z (a + zsum l)).
Proof.
  induction l as [|x l IH]; intros a Ha Hall Hb; cbn [map fold_left].
  - unfold zsum. simpl. now rewrite Z.add_0_r.
  - inversion Hall as [|? ? Hx Hl]; subst. rewrite zsum_cons in *.
    pose proof (zsum_nonneg l Hl).
    rewrite fadd_integers by (unfold exact_bound in Hb; lia).
    rewrite IH by (try assumption; lia). f_equal. f_equal. lia.
Qed.

Lemma fsum_as_floats (d : list (string * Z)) :
  Forall (fun kv => 1 <= snd kv)%Z d ->
  (zsum (values d) <= exact_bound)%Z ->
  fsum (values (as_floats d)) = Finite (inject_Z (zsum (values d))).
Proof.
  intros Hall Hb. unfold fsum, as_floats, values. rewrite map_map.
  cbn [snd]. rewrite <- (map_map snd (fun z => Finite (inject_Z z))).
  change (Finite 0) with (Finite (inject_Z 0)).
  rewrite fold_fadd_integers; [reflexivity | lia | | exact Hb].
  apply Forall_map. exact Hall.
Qed.

Lemma fdiv_integers (count total : Z) :
  (1 <= count <= total)%Z ->
  fdiv (Finite (inject_Z count)) (Finite (inject_Z total))
  = Returns (quotient count total).
Proof.
  intros H. unfold fdiv.
  destruct (Qeq_bool (inject_Z total) 0) eqn:E; [|reflexivity].
  apply Qeq_bool_eq in E. unfold Qeq, inject_Z in E. simpl in E. lia.
Qed.

(** The second loop on exact counts: every count divided by the total. *)
Lemma normalize_exact (d : list (string * Z)) :
  Forall (fun kv => 1 <= snd kv)%Z d ->
  (zsum (values d) <= exact_bound)%Z ->
  normalize (as_floats d) = Returns (quotients d).
Proof.
  intros Hall Hb. unfold normalize. rewrite (fsum_as_floats d Hall Hb).
  unfold as_floats, quotients. 
  assert (H : forall l : list (string * Z),
             Forall (fun kv => 1 <= snd kv <= zsum (values d))%Z l ->
             omap (fun kv : string * float =>
                     let (next_item, v) := kv in
                     obind (fdiv v (Finite (inject_Z (zsum (values d)))))
                       (fun p => Returns (next_item, p)))
                  (map (fun kv => (fst kv, Finite (inject_Z (snd kv)))) l)
             = Returns (map (fun kv =>
                               (fst kv, quotient (snd kv) (zsum (values d))))
                          l)).
  { induction 1 as [|[k v] l Hv Hl IH]; cbn [map omap fst snd];
      [reflexivity|].
    cbn [snd] in Hv. rewrite (fdiv_integers v _ Hv). cbn [obind].
    now rewrite IH. }
  apply H. rewrite Forall_forall in *. intros [k v] Hin. cbn [snd].
  split; [exact (Hall _ Hin)|]. apply zsum_member.
  - unfold values. apply Forall_map. apply Forall_forall. exact Hall.
  - unfold values. change v with (snd (k, v)). now apply in_map.
Qed.

Lemma exact_counts_bounded (ngrams : freq) :
  exactly_counted ngrams -> within exact_bound (exact_counts ngrams).
Proof.
  intros [Hall Hb].
  pose proof (exact_counts_within ngrams [] 0 Hall ltac:(lia)
                (Forall_nil _)) as H.
  unfold within in *. eapply Forall_impl; [|exact H].
  intros pd [H1 H2]. split; [exact H1 | lia].
Qed.

(** With counts of at least 1 that sum to at most [2 ** 53], the
    construction returns the exact counts, each divided by the total of
    its context and rounded once. *)
Lemma build_markov_chains_returns (ngrams : freq) :
  exactly_counted ngrams ->
  _build_markov_chains ngrams
  = Returns (map (fun pd => (fst pd, quotients (snd pd)))
               (exact_counts ngrams)).
Proof.
  intros Hex. pose proof (exact_counts_bounded ngrams Hex) as Hin.
  destruct Hex as [Hall Hb].
  unfold _build_markov_chains, accumulate_counts.
  change (@nil (context * dist)) with (as_chains []).
  rewrite (accumulate_counts_exact ngrams [] 0 Hall) by
    (try lia; constructor).
  cbn [obind]. fold (exact_counts ngrams).
  unfold as_chains. 
  assert (H : forall zc : counts,
             within exact_bound zc ->
             omap (fun pd : context * dist =>
                     let (prefix, d) := pd in
                     obind (normalize d) (fun d' => Returns (prefix, d')))
                  (map (fun pd => (fst pd, as_floats (snd pd))) zc)
             = Returns (map (fun pd => (fst pd, quotients (snd pd))) zc)).
  { induction 1 as [|[p d] zc [H1 H2] Hzc IH]; cbn [map omap fst snd];
      [reflexivity|].
    cbn [snd] in H1, H2. rewrite (normalize_exact d H1 H2). cbn [obind].
    now rewrite IH. }
  now apply H.
Qed.

Lemma pair_count_continuation (t : freq) (a b : string) :
  pair_count t a b = continuation_count t (Ctx1 a) b.
Proof.
  induction t as [|[key count] t IH]; cbn [pair_count continuation_count];
    [reflexivity|].
  unfold entry_context.
  destruct (split "||" key) as [|p0 [|p1 [|p2 [|p3 l]]]];
    cbn [context_eqb andb]; now rewrite ?IH.
Qed.

Lemma context_total_count (t : freq) (a : string) :
  context_total t a = context_count t (Ctx1 a).
Proof.
  induction t as [|[key count] t IH]; cbn [context_total context_count];
    [reflexivity|].
  unfold entry_context.
  destruct (split "||" key) as [|p0 [|p1 [|p2 [|p3 l]]]];
    cbn [context_eqb]; now rewrite ?IH.
Qed.

Section Entries.
Local Open Scope Q_scope.

(** The quotient of counts that doubles hold is a double of (0, 1] within
    a relative [2 ** -53] of the exact quotient. *)
Lemma quotient_normal (count total : Z) :
  (1 <= count <= total)%Z -> (total <= exact_bound)%Z ->
  exists v : Q,
    quotient count total = Finite v
    /\ 0 < v /\ v <= 1
    /\ Qabs (v - ratio count total) <= ratio count total * pow2 (-53).
Proof.
  intros H Hb.
  destruct (quotient_unit count total H) as [v [Hv [_ [H1 [_ Hn]]]]].
  destruct Hn as [Hpos Herr].
  - apply Qle_trans with (pow2 (-53)); [apply pow2_le; lia|].
    unfold ratio. apply Qle_shift_div_l.
    + rewrite <- (Zlt_Qlt 0). lia.
    + apply Qle_trans with (pow2 (-53) * pow2 53).
      * apply Qmult_le_left; [apply Qlt_le_weak, pow2_pos|].
        rewrite (pow2_Z 53) by lia. rewrite <- Zle_Qle. exact Hb.
      * rewrite <- pow2_add. change (pow2 (-53 + 53)) with 1.
        rewrite <- (Zle_Qle 1). lia.
  - exists v. now repeat split.
Qed.

(** What the chains hold for a key that contributes the continuation [b]
    to the context [ctx]. *)
Lemma build_chains_entry (ngrams : freq) (key : string) (count : Z)
  (ctx : context) (b : string) :
  exactly_counted ngrams ->
  In (key, count) ngrams ->
  entry_context key = Some (ctx, b) ->
  exists (ch : chains) (d : dist) (p : Q),
    _build_markov_chains ngrams = Returns ch
    /\ get context_eqb ctx ch = Some d
    /\ get String.eqb b d = Some (Finite p)
    /\ (1 <= continuation_count ngrams ctx b <= context_count ngrams ctx)%Z
    /\ Finite p = quotient (continuation_count ngrams ctx b)
                    (context_count ngrams ctx)
    /\ 0 < p /\ p <= 1
    /\ Qabs (p - ratio (continuation_count ngrams ctx b)
                   (context_count ngrams ctx))
       <= ratio (continuation_count ngrams ctx b)
            (context_count ngrams ctx) * pow2 (-53).
Proof.
  intros Hex Hin Hentry.
  destruct (stored_fold ctx b ngrams [])
    as [v Hv]; [right; now exists key, count|].
  fold (exact_counts ngrams) in Hv.
  destruct (counts_get_hit _ _ _ _ Hv) as [d0 [Hd0 Ed0]].
  pose proof (count_at_fold ctx b ngrams []) as Hcount.
  pose proof (total_at_fold ctx ngrams []) as Htotal.
  fold (exact_counts ngrams) in Hcount, Htotal.
  unfold count_at in Hcount. rewrite Hv in Hcount.
  unfold total_at in Htotal. rewrite Ed0 in Htotal, Hv.
  cbn in Hcount, Htotal.
  pose proof (exact_counts_bounded ngrams Hex) as Hw.
  unfold within in Hw. rewrite Forall_forall in Hw.
  destruct (Hw (ctx, d0)) as [Hd1 Hd2];
    [apply (get_In context_eqb context_eqb_spec); exact Hd0|].
  cbn [snd] in Hd1, Hd2.
  destruct (within_member (zsum (values d0)) d0 b v Hd1 ltac:(lia) Hv)
    as [Hv1 Hv2].
  rewrite <- Hcount, <- Htotal.
  destruct (quotient_normal v (zsum (values d0)) ltac:(lia) Hd2)
    as [p [Hp [Hp0 [Hp1 Herr]]]].
  eexists. exists (quotients d0), p.
  split; [now apply build_markov_chains_returns|].
  split.
  { rewrite (get_map_values context_eqb quotients), Hd0. reflexivity. }
  split.
  { unfold quotients.
    rewrite (get_map_values String.eqb
               (fun x => quotient x (zsum (values d0)))), Hv.
    cbn [option_map]. now rewrite Hp. }
  split; [lia|]. split; [now rewrite Hp|]. now repeat split.
Qed.

End Entries.

(** C1. For a frequency table whose counts are at least 1 and sum to at
    most [2 ** 53], so that doubles hold every sum of counts exactly,
    [_build_markov_chains] returns chains in which every key that splits
    into the two parts [a] and [b] is found under the context [a] with the
    continuation [b].  Its probability is the double nearest to the sum of
    the counts of all the entries splitting into [(a, b)] divided by the sum
    of the counts of all the entries whose context is [a]: a number of
    (0, 1] within a relative [2 ** -53] of that quotient.  The table with
    "the||cat" counted 3 times and "the||dog" once gives exactly the
    context "the" with "cat" at 0.75 and "dog" at 0.25. *)
Theorem build_chains_groups_and_normalizes :
  (forall ngrams : freq,
      Forall (fun kc => 1 <= snd kc)%Z ngrams ->
      (zsum (values ngrams) <= 2 ^ 53)%Z ->
      exists ch : chains,
        _build_markov_chains ngrams = Returns ch
        /\ forall (key : string) (count : Z) (a b : string),
             In (key, count) ngrams ->
             split "||" key = [a; b] ->
             exists (d : dist) (p : Q),
               get context_eqb (Ctx1 a) ch = Some d
               /\ get String.eqb b d = Some (Finite p)
               /\ (1 <= pair_count ngrams a b <= context_total ngrams a)%Z
               /\ Finite p
                  = nearest_double
                      (inject_Z (pair_count ngrams a b)
                       / inject_Z (context_total ngrams a))
               /\ (0 < p)%Q /\ (p <= 1)%Q
               /\ (Qabs (p - inject_Z (pair_count ngrams a b)
                              / inject_Z (context_total ngrams a))
                   <= inject_Z (pair_count ngrams a b)
                      / inject_Z (context_total ngrams a) * pow2 (-53))%Q)
  /\ _build_markov_chains [("the||cat", 3); ("the||dog", 1)]%Z
     = Returns [(Ctx1 "the",
                 [("cat", Finite (3 # 4)); ("dog", Finite (1 # 4))])].
Proof.
  split; [|vm_compute; reflexivity].
  intros ngrams Hall Hb.
  assert (Hex : exactly_counted ngrams) by (split; assumption).
  eexists. split; [now apply build_markov_chains_returns|].
  intros key count a b Hin Hsplit.
  destruct (build_chains_entry ngrams key count (Ctx1 a) b Hex Hin)
    as [ch [d [p [Hch [Hd [Hp [Hc [Hq [Hp0 [Hp1 Herr]]]]]]]]]].
  { unfold entry_context. now rewrite Hsplit. }
  rewrite (build_markov_chains_returns ngrams Hex) in Hch.
  injection Hch as <-.
  rewrite <- pair_count_continuation, <- context_total_count in *.
  exists d, p. now repeat split.
Qed.

Lemma build_chains_groups_and_normalizes_witness :
  exists ch : chains,
    _build_markov_chains
      [("the||cat", 3); ("a||b", 2); ("the||dog", 1); ("a||c", 4)]%Z
    = Returns ch
    /\ forall (key : string) (count : Z) (a b : string),
         In (key, count)
            [("the||cat", 3); ("a||b", 2); ("the||dog", 1); ("a||c", 4)]%Z ->
         split "||" key = [a; b] ->
         exists (d : dist) (p : Q),
           get context_eqb (Ctx1 a) ch = Some d
           /\ get String.eqb b d = Some (Finite p)
           /\ (1 <= pair_count
                      [("the||cat", 3); ("a||b", 2); ("the||dog", 1);
                       ("a||c", 4)]%Z a b
                <= context_total
                     [("the||cat", 3); ("a||b", 2); ("the||dog", 1);
                      ("a||c", 4)]%Z a)%Z
           /\ Finite p
              = nearest_double
                  (inject_Z
                     (pair_count
                        [("the||cat", 3); ("a||b", 2); ("the||dog", 1);
                         ("a||c", 4)]%Z a b)
                   / inject_Z
                       (context_total
                          [("the||cat", 3); ("a||b", 2); ("the||dog", 1);
                           ("a||c", 4)]%Z a))
           /\ (0 < p)%Q /\ (p <= 1)%Q
           /\ (Qabs (p - inject_Z
                            (pair_count
                               [("the||cat", 3); ("a||b", 2); ("the||dog", 1);
                                ("a||c", 4)]%Z a b)
                          / inject_Z
                              (context_total
                                 [("the||cat", 3); ("a||b", 2);
                                  ("the||dog", 1); ("a||c", 4)]%Z a))
               <= inject_Z
                    (pair_count
                       [("the||cat", 3); ("a||b", 2); ("the||dog", 1);
                        ("a||c", 4)]%Z a b)
                  / inject_Z
                      (context_total
                         [("the||cat", 3); ("a||b", 2); ("the||dog", 1);
                          ("a||c", 4)]%Z a) * pow2 (-53))%Q.
Proof.
  exact (proj1 build_chains_groups_and_normalizes
           [("the||cat", 3); ("a||b", 2); ("the||dog", 1); ("a||c", 4)]%Z
           ltac:(repeat constructor; simpl; lia)
           ltac:(vm_compute; discriminate)).
Defined.

(** ** The fallback chain of the order-3 character generator *)

Lemma last_pair_returns (result : list string) (a b : string) (r : rng) :
  last2 result = Some a -> last1 result = Some b ->
  last_pair result r = (Returns (Ctx2 a b), r).
Proof. intros H2 H1. unfold last_pair. now rewrite H2, H1. Qed.

Lemma weighted_choice_nonempty_bind (d : dist) (r : rng)
  (k : option string -> M (option string)) :
  d <> [] ->
  (forall o, o <> None -> k o = ret o) ->
  bind (_weighted_choice d) k r = _weighted_choice d r.
Proof.
  intros Hne Hk. unfold bind.
  destruct (weighted_choice_member d r Hne) as [c [r' [Hc _]]].
  rewrite Hc, Hk by discriminate. reflexivity.
Qed.

(** With two characters generated, the step is the three draws in turn. *)
Lemma char3_next_unfold (self : TextGenerator) (result : list string)
  (a b : string) (r : rng) :
  last2 result = Some a ->
  last1 result = Some b ->
  char3_next self result r
  = bind (_weighted_choice
            (chain_get (char_trigram_chains self) (Some (Ctx2 a b))))
      (fun next_char =>
         bind (match next_char with
               | None =>
                   _weighted_choice
                     (chain_get (char_bigram_chains self) (Some (Ctx1 b)))
               | Some _ => ret next_char
               end)
           (fun next_char =>
              match next_char with
              | None => _weighted_choice (char_unigram_probs self)
              | Some _ => ret next_char
              end)) r.
Proof.
  intros H2 H1. unfold char3_next, bind at 1.
  rewrite (last_pair_returns result a b r H2 H1), H1. reflexivity.
Qed.



(** ** The order-3 character generator on a session without unigrams *)

(** C10, the failing input.  The session built from an empty character
    unigram table, an empty bigram table and the trigram table
    ["a||b||c": 1] is one [__init__] returns; on it [generate_char_3] with
    length 1 seeds nothing, enters the loop and raises [IndexError] at
    [result[-2]], from every state of the random source, directly and
    through [generate]. *)
Theorem generate_char_3_raises_without_unigrams :
  init "demo" "JSON_Files" [] [] [("a||b||c", 1%Z)] [] [] [] None
  = Returns trigram_only_session
  /\ forall r : rng,
       generate_char_3 trigram_only_session 1 r = (Raises IndexError, r)
       /\ generate trigram_only_session "char-3" 1 3 None r
          = (Raises IndexError, r).
Proof.
  split; [reflexivity|].
  intros r. split; reflexivity.
Qed.

(** ** The character generators on well-formed sessions *)

Section CharTokens.
Variable P : string -> Prop.
Variable self : TextGenerator.
Hypothesis tokens : char_tokens P self.

Lemma chain_get_satisfy (ch : chains) (key : option context) :
  chains_satisfy P ch -> Forall P (keys (chain_get ch key)).
Proof.
  intros Hch. destruct key as [k|]; simpl; [|constructor].
  destruct (get context_eqb k ch) as [d|] eqn:E; [|constructor].
  apply (get_In context_eqb context_eqb_spec) in E.
  unfold chains_satisfy in Hch. rewrite Forall_forall in Hch.
  exact (Hch (k, d) E).
Qed.

Lemma weighted_choice_satisfy (d : dist) (r r' : rng) (c : string) :
  Forall P (keys d) ->
  _weighted_choice d r = (Returns (Some c), r') -> P c.
Proof.
  intros Hd Hc. destruct d as [|kv rest]; [discriminate|].
  destruct (weighted_choice_member (kv :: rest) r) as [k [r2 [Hk Hin]]];
    [discriminate|].
  rewrite Hk in Hc. injection Hc as <- _.
  rewrite Forall_forall in Hd. now apply Hd.
Qed.

Lemma seed_satisfy (o : option string) (result : list string) :
  (forall c, o = Some c -> P c) -> Forall P result -> Forall P (seed o result).
Proof.
  intros Ho Hr. unfold seed. destruct o as [c|]; [|exact Hr].
  destruct (truthy (Some c)); [|exact Hr].
  apply Forall_app. split; [exact Hr|]. constructor; [now apply Ho | constructor].
Qed.

Lemma seed_length (o : option string) (result : list string) :
  List.length (seed o result) <= S (List.length result).
Proof.
  unfold seed. destruct o as [c|]; [|lia].
  destruct (truthy (Some c)); [|lia].
  rewrite length_app. simpl. lia.
Qed.

(** The loop of [generate_char_1] returns, adding at most one token per
    round. *)
Lemma char1_loop_returns :
  forall (n : nat) (result : list string) (r : rng),
    Forall P result ->
    exists result' r',
      char1_loop self n result r = (Returns result', r')
      /\ Forall P result'
      /\ List.length result' <= List.length result + n.
Proof.
  destruct tokens as [Huni _].
  induction n as [|n IH]; intros result r Hres; cbn [char1_loop].
  - exists result, r. repeat split; [exact Hres | lia].
  - unfold bind.
    destruct (weighted_choice_returns (char_unigram_probs self) r)
      as [o [r1 Ho]].
    rewrite Ho.
    destruct (IH (seed o result) r1) as [result' [r' [Hl [HP Hlen]]]].
    { apply seed_satisfy; [|exact Hres].
      intros c ->. eapply weighted_choice_satisfy; eassumption. }
    exists result', r'. repeat split; [exact Hl | exact HP |].
    pose proof (seed_length o result). lia.
Qed.

(** With a fuel of at least the number of characters still missing, the
    loop of [generate_char_2] returns. *)
Lemma char2_loop_returns (length : Z) :
  forall (fuel : nat) (current : option string) (result : list string)
         (r : rng),
    (length - Z.of_nat (List.length result) <= Z.of_nat fuel)%Z ->
    Forall P result ->
    exists result' r',
      char2_loop self fuel length current result r = (Returns result', r')
      /\ Forall P result'.
Proof.
  destruct tokens as [Huni [Hbi _]].
  induction fuel as [|fuel IH]; intros current result r Hfuel Hres.
  - rewrite char2_loop_done by lia. now exists result, r.
  - destruct (Z.ltb_spec (Z.of_nat (List.length result)) length) as [Hlt|Hge];
      [|rewrite char2_loop_done by lia; now exists result, r].
    cbn [char2_loop]. apply Z.ltb_lt in Hlt. rewrite Hlt. unfold bind.
    set (bi := chain_get (char_bigram_chains self) (option_map Ctx1 current)).
    assert (Hbid : Forall P (keys bi)) by now apply chain_get_satisfy.
    destruct (weighted_choice_returns bi r) as [o1 [r1 Ho1]]. rewrite Ho1.
    assert (Hnext : exists o r2,
               (match o1 with
                | None => _weighted_choice (char_unigram_probs self)
                | Some _ => ret o1
                end) r1 = (Returns o, r2)
               /\ forall c, o = Some c -> P c).
    { destruct o1 as [c1|].
      - exists (Some c1), r1. split; [reflexivity|].
        intros c [= <-]. exact (weighted_choice_satisfy bi r r1 c1 Hbid Ho1).
      - destruct (weighted_choice_returns (char_unigram_probs self) r1)
          as [o [r2 Ho]].
        exists o, r2. split; [exact Ho|].
        intros c ->. exact (weighted_choice_satisfy _ r1 r2 c Huni Ho). }
    destruct Hnext as [o [r2 [Ho HP]]]. rewrite Ho.
    destruct o as [c|]; [|now exists result, r2].
    destruct (truthy (Some c)); [|now exists result, r2].
    apply IH.
    + rewrite length_app. simpl. apply Z.ltb_lt in Hlt. lia.
    + apply Forall_app. split; [exact Hres|].
      constructor; [now apply HP | constructor].
Qed.

End CharTokens.

Lemma last_pair_defined {A} (result : list A) :
  2 <= List.length result ->
  exists a b, last2 result = Some a /\ last1 result = Some b.
Proof.
  intros Hlen. unfold last1, last2. rewrite <- length_rev in Hlen.
  destruct (rev result) as [|x [|y t]]; simpl in Hlen; try lia.
  now exists y, x.
Qed.

Section Char3Tokens.
Variable P : string -> Prop.
Variable self : TextGenerator.
Hypothesis tokens : char_tokens P self.
Hypothesis P_truthy : forall c, P c -> truthy (Some c) = true.
Hypothesis unigrams : char_unigram_probs self <> [].

(** With two characters generated and a non-empty unigram distribution,
    a step of [generate_char_3] always draws a character. *)
Lemma char3_next_member (result : list string) (r : rng) :
  2 <= List.length result ->
  exists c r', char3_next self result r = (Returns (Some c), r') /\ P c.
Proof.
  intros Hlen. destruct tokens as [Huni [Hbi Htri]].
  destruct (last_pair_defined result Hlen) as [a [b [H2 H1]]].
  rewrite (char3_next_unfold self result a b r H2 H1). unfold bind.
  set (tri := chain_get (char_trigram_chains self) (Some (Ctx2 a b))).
  set (bi := chain_get (char_bigram_chains self) (Some (Ctx1 b))).
  assert (Htrid : Forall P (keys tri)) by now apply chain_get_satisfy.
  assert (Hbid : Forall P (keys bi)) by now apply chain_get_satisfy.
  destruct (weighted_choice_returns tri r) as [[c1|] [r1 Ho1]]; rewrite Ho1.
  - exists c1, r1. split; [reflexivity|].
    exact (weighted_choice_satisfy P tri r r1 c1 Htrid Ho1).
  - destruct (weighted_choice_returns bi r1) as [[c2|] [r2 Ho2]]; rewrite Ho2.
    + exists c2, r2. split; [reflexivity|].
      exact (weighted_choice_satisfy P bi r1 r2 c2 Hbid Ho2).
    + destruct (weighted_choice_member (char_unigram_probs self) r2 unigrams)
        as [c3 [r3 [Ho3 Hin]]].
      exists c3, r3. split; [exact Ho3|].
      rewrite Forall_forall in Huni. now apply Huni.
Qed.

(** With a fuel of at least the number of characters still missing, the
    loop of [generate_char_3] returns when it starts from two characters. *)
Lemma char3_loop_returns (length : Z) :
  forall (fuel : nat) (result : list string) (r : rng),
    (length - Z.of_nat (List.length result) <= Z.of_nat fuel)%Z ->
    2 <= List.length result ->
    Forall P result ->
    exists result' r',
      char3_loop self fuel length result r = (Returns result', r')
      /\ Forall P result'.
Proof.
  induction fuel as [|fuel IH]; intros result r Hfuel Hlen Hres.
  - rewrite char3_loop_done by lia. now exists result, r.
  - destruct (Z.ltb_spec (Z.of_nat (List.length result)) length) as [Hlt|Hge];
      [|rewrite char3_loop_done by lia; now exists result, r].
    cbn [char3_loop]. pose proof Hlt as Hlt'. apply Z.ltb_lt in Hlt'.
    rewrite Hlt'. unfold bind.
    destruct (char3_next_member result r Hlen) as [c [r1 [Hc HP]]].
    rewrite Hc, (P_truthy c HP).
    apply IH.
    + rewrite length_app. simpl. lia.
    + rewrite length_app. simpl. lia.
    + apply Forall_app. split; [exact Hres|]. now repeat constructor.
Qed.

End Char3Tokens.

Lemma single_char_truthy (c : string) :
  single_char c -> truthy (Some c) = true.
Proof. unfold single_char. destruct c; [discriminate | reflexivity]. Qed.

Lemma join_empty_cons (x : string) (l : list string) :
  join "" (x :: l) = (x ++ join "" l)%string.
Proof.
  destruct l as [|y l]; [|reflexivity].
  simpl. induction x as [|c x IH]; [reflexivity|].
  simpl. now rewrite <- IH.
Qed.

Lemma join_single_chars (toks : list string) :
  Forall single_char toks ->
  String.length (join "" toks) = List.length toks.
Proof.
  induction 1 as [|x l Hx Hl IH]; [reflexivity|].
  rewrite join_empty_cons, append_length, IH, Hx. reflexivity.
Qed.

Lemma Forall_firstn_keeps {A} (Q : A -> Prop) (n : nat) (l : list A) :
  Forall Q l -> Forall Q (firstn n l).
Proof.
  intros H. revert n. induction H as [|x l Hx Hl IH]; intros [|n]; simpl;
    constructor; auto.
Qed.

Lemma slice_to_bounded (toks : list string) (length : Z) :
  (0 <= length)%Z ->
  Forall single_char toks ->
  (Z.of_nat (String.length (join "" (slice_to toks length))) <= length)%Z.
Proof.
  intros Hlen Htoks. unfold slice_to.
  apply Z.leb_le in Hlen. rewrite Hlen. apply Z.leb_le in Hlen.
  rewrite join_single_chars by now apply Forall_firstn_keeps.
  pose proof (firstn_le_length (Z.to_nat length) toks). lia.
Qed.

(** On a session whose character tokens are single characters,
    [generate_char_2] returns at most [length] characters, and so does
    [generate_char_3] when the unigram distribution is not empty. *)
Lemma char_generators_bounded (self : TextGenerator) (length : Z) (r : rng) :
  (0 <= length)%Z ->
  char_tokens single_char self ->
  (exists out r',
      generate_char_2 self length r = (Returns out, r')
      /\ (Z.of_nat (String.length out) <= length)%Z)
  /\ (char_unigram_probs self <> [] ->
      exists out r',
        generate_char_3 self length r = (Returns out, r')
        /\ (Z.of_nat (String.length out) <= length)%Z).
Proof.
  intros Hlen Htok.
  assert (H2 : forall r0, exists out r',
               generate_char_2 self length r0 = (Returns out, r')
               /\ (Z.of_nat (String.length out) <= length)%Z).
  { intros r0. unfold generate_char_2.
    destruct (char_bigram_chains self) as [|pd ch] eqn:Ech.
    - unfold generate_char_1, bind.
      destruct (char1_loop_returns single_char self Htok
                  (Z.to_nat length) [] r0 (Forall_nil _))
        as [result [r1 [Hl [HP Hn]]]].
      rewrite Hl. exists (join "" result), r1. split; [reflexivity|].
      rewrite join_single_chars by exact HP. simpl in Hn. lia.
    - unfold bind.
      destruct (weighted_choice_returns (char_unigram_probs self) r0)
        as [current [r1 Hc]].
      rewrite Hc.
      destruct (char2_loop_returns single_char self Htok length
                  (Z.to_nat length) current (seed current []) r1)
        as [result [r2 [Hl HP]]].
      + lia.
      + apply seed_satisfy; [|constructor].
        intros c ->. destruct Htok as [Huni _].
        exact (weighted_choice_satisfy single_char _ r0 r1 c Huni Hc).
      + rewrite Hl. eexists. exists r2. split; [reflexivity|].
        now apply slice_to_bounded. }
  split; [apply H2|].
  intros Huni. unfold generate_char_3.
  destruct (char_trigram_chains self) as [|pd ch] eqn:Ech; [apply H2|].
  unfold bind.
  destruct Htok as [Hu Hrest]. pose proof Hu as Hu'.
  rewrite Forall_forall in Hu'.
  destruct (weighted_choice_member (char_unigram_probs self) r Huni)
    as [c1 [r1 [Ho1 Hin1]]].
  destruct (weighted_choice_member (char_unigram_probs self) r1 Huni)
    as [c2 [r2 [Ho2 Hin2]]].
  rewrite Ho1, Ho2. unfold seed.
  rewrite (single_char_truthy c1), (single_char_truthy c2) by auto.
  destruct (char3_loop_returns single_char self (conj Hu Hrest)
              single_char_truthy Huni length (Z.to_nat length)
              ([] ++ [c1] ++ [c2]) r2)
    as [result [r3 [Hl HP]]].
  - simpl. lia.
  - simpl. lia.
  - repeat constructor; auto.
  - simpl app in Hl. simpl app. rewrite Hl.
    eexists. exists r3. split; [reflexivity|].
    now apply slice_to_bounded.
Qed.

(** ** Sentences around an anchor word *)

Lemma randint_returns (a b : Z) (r : rng) :
  (a <= b)%Z ->
  exists n,
    randint a b r = (Returns n, mkRng (source r) (S (pos r)))
    /\ (a <= n <= b)%Z
    /\ n = (a + Z.of_nat (N.to_nat (source r (pos r)
                                    mod N.of_nat (Z.to_nat (b + 1 - a)))))%Z.
Proof.
  intros Hab. unfold randint.
  assert (Hw : (0 <? b + 1 - a)%Z = true) by (apply Z.ltb_lt; lia).
  rewrite Hw. unfold bind.
  destruct (randbelow_lt (Z.to_nat (b + 1 - a)) r) as [i [Hr [Hlt Hi]]]; [lia|].
  rewrite Hr. exists (a + Z.of_nat i)%Z.
  split; [reflexivity|]. split; [lia | now rewrite Hi].
Qed.

Lemma around_next_pair (self : TextGenerator) (ws : list string)
  (a b : string) (r : rng) :
  last2 ws = Some a -> last1 ws = Some b ->
  around_next self ws r
  = _weighted_choice (chain_get (word_bigram_chains self) (Some (Ctx2 a b))) r.
Proof.
  intros H2 H1. unfold around_next.
  assert (Hlen : (2 <=? List.length ws)%nat = true).
  { apply Nat.leb_le. unfold last2 in H2. rewrite <- length_rev.
    destruct (rev ws) as [|x [|y t]]; try discriminate. simpl. lia. }
  rewrite Hlen. unfold bind.
  now rewrite (last_pair_returns ws a b r H2 H1).
Qed.

Lemma around_next_single (self : TextGenerator) (ws : list string) (r : rng) :
  List.length ws < 2 ->
  around_next self ws r = _weighted_choice (word_unigram_probs self) r.
Proof.
  intros Hlen. unfold around_next.
  apply Nat.leb_gt in Hlen. now rewrite Hlen.
Qed.

Lemma around_next_returns (self : TextGenerator) (ws : list string) (r : rng) :
  exists o r', around_next self ws r = (Returns o, r').
Proof.
  destruct (Nat.le_gt_cases 2 (List.length ws)) as [Hge|Hlt].
  - destruct (last_pair_defined ws Hge) as [a [b [H2 H1]]].
    rewrite (around_next_pair self ws a b r H2 H1).
    apply weighted_choice_returns.
  - rewrite around_next_single by exact Hlt. apply weighted_choice_returns.
Qed.

Lemma seed_extends (o : option string) (ws : list string) :
  exists more, seed o ws = ws ++ more /\ List.length more <= 1.
Proof.
  unfold seed. destruct o as [c|].
  - destruct (truthy (Some c)).
    + exists [c]. split; [reflexivity | simpl; lia].
    + exists []. split; [now rewrite app_nil_r | simpl; lia].
  - exists []. split; [now rewrite app_nil_r | simpl; lia].
Qed.

(** A walk of [n] steps returns the list it started from, extended by at
    most [n] words. *)
Lemma around_loop_extends (self : TextGenerator) :
  forall (n : nat) (ws : list string) (r : rng),
    exists more r',
      around_loop self n ws r = (Returns (ws ++ more), r')
      /\ List.length more <= n.
Proof.
  induction n as [|n IH]; intros ws r; cbn [around_loop].
  - exists [], r. split; [now rewrite app_nil_r | simpl; lia].
  - unfold bind.
    destruct (around_next_returns self ws r) as [o [r1 Ho]]. rewrite Ho.
    destruct (seed_extends o ws) as [m1 [Hs Hl1]]. rewrite Hs.
    destruct (IH (ws ++ m1) r1) as [m2 [r2 [Hw Hl2]]].
    exists (m1 ++ m2), r2. rewrite Hw, app_assoc.
    split; [reflexivity|]. rewrite length_app. lia.
Qed.

(** The sentence is made of the reversed prefix, the anchor and the
    suffix. *)
Lemma generate_around_anchor_structure (self : TextGenerator)
  (anchor : string) (num_words : Z) (r : rng) :
  exists (before_count : Z) (r1 : rng) (prefix : list string) (r2 : rng)
         (suffix : list string) (r3 : rng),
    randint 2 5 r = (Returns before_count, r1)
    /\ (2 <= before_count <= 5)%Z
    /\ around_loop self (Z.to_nat before_count) [anchor] r1
       = (Returns (anchor :: prefix), r2)
    /\ List.length prefix <= Z.to_nat before_count
    /\ around_loop self (Z.to_nat (num_words - before_count)) [anchor] r2
       = (Returns (anchor :: suffix), r3)
    /\ List.length suffix <= Z.to_nat (num_words - before_count)
    /\ _generate_around_anchor self anchor num_words r
       = (obind (format_sentence (rev prefix ++ [anchor] ++ suffix))
            (fun sentence => Returns (Some sentence)), r3).
Proof.
  destruct (randint_returns 2 5 r) as [bc [Hbc [Hrange _]]]; [lia|].
  set (r1 := mkRng (source r) (S (pos r))) in *.
  destruct (around_loop_extends self (Z.to_nat bc) [anchor] r1)
    as [prefix [r2 [Hp Hlp]]].
  destruct (around_loop_extends self (Z.to_nat (num_words - bc)) [anchor] r2)
    as [suffix [r3 [Hs Hls]]].
  cbn [app] in Hp, Hs.
  exists bc, r1, prefix, r2, suffix, r3.
  repeat (split; [assumption|]).
  unfold _generate_around_anchor, bind. rewrite Hbc, Hp, Hs.
  cbn [rev slice_from1 tl]. rewrite <- app_assoc.
  destruct (rev prefix ++ [anchor] ++ suffix) as [|w ws] eqn:E.
  - exfalso. apply app_eq_nil in E. destruct E as [_ E]. discriminate.
  - unfold lift. destruct (format_sentence (w :: ws)); reflexivity.
Qed.

Lemma int_no_fuel (s : string) : int s <> OutOfFuel.
Proof. unfold int. now destruct (match rstrip (lstrip s) with
                                 | EmptyString => _ | String _ _ => _ end). Qed.

Lemma expand_lengths_no_fuel (length_dist : freq) :
  expand_lengths length_dist <> OutOfFuel.
Proof.
  induction length_dist as [|[k c] rest IH]; cbn [expand_lengths];
    [discriminate|].
  pose proof (int_no_fuel k) as Hk.
  destruct (int k) as [n| |]; cbn [obind]; try discriminate; try contradiction.
  destruct (expand_lengths rest); cbn [obind]; try discriminate; contradiction.
Qed.

Lemma sample_sentence_length_no_fuel (self : TextGenerator) (r : rng) :
  fst (_sample_sentence_length self r) <> OutOfFuel.
Proof.
  unfold _sample_sentence_length.
  assert (Hdefault : forall r0, fst (randint 5 20 r0) <> OutOfFuel).
  { intros r0. destruct (randint_returns 5 20 r0) as [n [Hn _]]; [lia|].
    rewrite Hn. discriminate. }
  destruct (length_distribution self) as [ld|]; [|apply Hdefault].
  unfold bind, lift.
  pose proof (expand_lengths_no_fuel ld) as Hld.
  destruct (expand_lengths ld) as [lengths| |]; try discriminate;
    try contradiction.
  destruct lengths as [|l ls]; [apply Hdefault|].
  destruct (choice_member (l :: ls) r) as [i [x [Hx _]]]; [discriminate|].
  rewrite Hx. discriminate.
Qed.

(** An attempt raises or returns a sentence around the anchor. *)
Lemma attempt_outcome (self : TextGenerator) (anchor : string) (r : rng) :
  match attempt self anchor r with
  | (Returns (Some cand), _) => anchor_sentence anchor cand
  | (Returns None, _) => False
  | (Raises _, _) => True
  | (OutOfFuel, _) => False
  end.
Proof.
  unfold attempt, bind.
  pose proof (sample_sentence_length_no_fuel self r) as Hs.
  destruct (_sample_sentence_length self r) as [[num_words|e|] r0];
    cbn [fst] in Hs; try exact I; try contradiction.
  destruct (generate_around_anchor_structure self anchor num_words r0)
    as [bc [r1 [prefix [r2 [suffix [r3 H]]]]]].
  destruct H as [_ [_ [_ [_ [_ [_ Hg]]]]]]. rewrite Hg.
  destruct (format_sentence (rev prefix ++ [anchor] ++ suffix)) as [cand|e|]
    eqn:Ef; cbn [obind]; try exact I.
  - now exists prefix, suffix.
  - unfold format_sentence in Ef.
    destruct (join " " (rev prefix ++ [anchor] ++ suffix)); discriminate.
Qed.

Lemma attempts_loop_step (self : TextGenerator) (anchor : string) (n : nat)
  (sentences : list string) (r : rng) :
  In anchor (keys (word_unigrams self)) ->
  attempts_loop self anchor (S n) sentences r
  = match attempt self anchor r with
    | (Returns (Some cand), r') =>
        if truthy (Some cand) && contains (lower anchor) (lower cand)
        then (idx <- randint 0 (Z.of_nat (List.length sentences) - 1) ;;
              ret (set_nth (Z.to_nat idx) cand sentences)) r'
        else attempts_loop self anchor n sentences r'
    | (Returns None, r') => attempts_loop self anchor n sentences r'
    | (Raises e, r') => (Raises e, r')
    | (OutOfFuel, r') => (OutOfFuel, r')
    end.
Proof.
  intros Hin. cbn [attempts_loop].
  assert (Hmem : mem String.eqb anchor (word_unigrams self) = true).
  { destruct (mem String.eqb anchor (word_unigrams self)) eqn:E;
      [reflexivity|].
    apply mem_false_iff in E. contradiction. }
  rewrite Hmem. unfold attempt, bind.
  destruct (_sample_sentence_length self r) as [[num_words|e|] r0];
    try reflexivity.
  destruct (_generate_around_anchor self anchor num_words r0)
    as [[[cand|]|e|] r1]; try reflexivity.
  destruct (truthy (Some cand) && contains (lower anchor) (lower cand));
    reflexivity.
Qed.

(** The attempts for an anchor of the vocabulary never run out of fuel;
    when they return, either every candidate failed the test and the
    sentences are as before, or one sentence, at the index drawn by
    [random.randint(0, len(sentences) - 1)], was replaced by a sentence
    around the anchor. *)
Lemma attempts_loop_outcome (self : TextGenerator) (anchor : string) :
  In anchor (keys (word_unigrams self)) ->
  forall (n : nat) (sentences : list string) (r : rng),
    sentences <> [] ->
    match attempts_loop self anchor n sentences r with
    | (Returns sentences', _) =>
        sentences' = sentences
        \/ exists (cand : string) (r1 : rng),
             anchor_sentence anchor cand
             /\ contains (lower anchor) (lower cand) = true
             /\ replaced_at r1 cand sentences sentences'
    | (Raises _, _) => True
    | (OutOfFuel, _) => False
    end.
Proof.
  intros Hin. induction n as [|n IH]; intros sentences r Hne.
  - simpl. now left.
  - rewrite attempts_loop_step by exact Hin.
    pose proof (attempt_outcome self anchor r) as Ha.
    destruct (attempt self anchor r) as [[[cand|]|e|] r']; try contradiction;
      try exact I.
    destruct (truthy (Some cand) && contains (lower anchor) (lower cand))
      eqn:Hcheck; [|now apply IH].
    apply andb_true_iff in Hcheck. destruct Hcheck as [_ Hcontains].
    unfold bind.
    destruct (randint_returns 0 (Z.of_nat (List.length sentences) - 1) r')
      as [idx [Hidx [Hrange Hval]]].
    { destruct sentences; [contradiction | cbn [List.length]; lia]. }
    rewrite Hidx. cbn [ret]. right. exists cand, r'.
    split; [exact Ha|]. split; [exact Hcontains|].
    unfold replaced_at.
    replace (Z.to_nat (Z.of_nat (List.length sentences) - 1 + 1 - 0))
      with (List.length sentences) in Hval by lia.
    assert (Hnat : Z.to_nat idx
                   = N.to_nat (source r' (pos r')
                               mod N.of_nat (List.length sentences)))
      by (rewrite Hval; lia).
    rewrite <- Hnat. split; [lia | reflexivity].
Qed.

Lemma attempts_made_bound (self : TextGenerator) (anchor : string) :
  forall (n : nat) (sentences : list string) (r : rng),
    attempts_made self anchor n sentences r <= n.
Proof.
  induction n as [|n IH]; intros sentences r; cbn [attempts_made]; [lia|].
  destruct (mem String.eqb anchor (word_unigrams self)).
  - destruct (attempt self anchor r) as [[[cand|]|e|] r']; try lia.
    + destruct (truthy (Some cand) && contains (lower anchor) (lower cand));
        [lia|]. specialize (IH sentences r'). lia.
    + specialize (IH sentences r'). lia.
  - specialize (IH sentences r). lia.
Qed.

(** For one anchor that the text does not contain, the integration is the
    ten attempts on the sentences of the text, joined again. *)
Lemma integrate_single_missing (self : TextGenerator) (text anchor : string)
  (num_sentences : Z) (r : rng) :
  contains (lower anchor) (lower text) = false ->
  _integrate_anchor_words self text [anchor] num_sentences r
  = (sentences' <- attempts_loop self anchor 10 (split ". " text) ;;
     ret (join ". " sentences')) r.
Proof.
  intros Hmissing. unfold _integrate_anchor_words.
  cbn [filter]. rewrite Hmissing. cbn [negb anchors_loop]. unfold bind.
  destruct (attempts_loop self anchor 10 (split ". " text) r)
    as [[s'|e|] r']; reflexivity.
Qed.

(** ** The fuel given to the loops is enough *)

Lemma fueled_ret {A} (a : A) : fueled (ret a).
Proof. intros r. discriminate. Qed.

Lemma fueled_raise {A} (e : exn) : fueled (@raise A e).
Proof. intros r. discriminate. Qed.

Lemma fueled_lift {A} (o : outcome A) : o <> OutOfFuel -> fueled (lift o).
Proof. intros H r. exact H. Qed.

Lemma fueled_bind {A B} (m : M A) (k : A -> M B) :
  fueled m -> (forall a, fueled (k a)) -> fueled (bind m k).
Proof.
  intros Hm Hk r. unfold bind. specialize (Hm r).
  destruct (m r) as [[a|e|] r']; cbn [fst] in *;
    [apply Hk | discriminate | contradiction].
Qed.

Lemma fueled_randint (a b : Z) : fueled (randint a b).
Proof.
  intros r. unfold randint.
  destruct (0 <? b + 1 - a)%Z; [|discriminate].
  unfold bind, randbelow, next_raw. discriminate.
Qed.

Lemma fueled_choice {A} (seq : list A) : fueled (choice seq).
Proof.
  intros r. destruct seq as [|x seq]; [discriminate|].
  destruct (choice_member (x :: seq) r) as [i [y [Hy _]]]; [discriminate|].
  rewrite Hy. discriminate.
Qed.

Lemma fueled_weighted_choice (d : dist) : fueled (_weighted_choice d).
Proof.
  intros r. destruct (weighted_choice_returns d r) as [o [r' H]].
  rewrite H. discriminate.
Qed.

Lemma fueled_sample_sentence_length (self : TextGenerator) :
  fueled (_sample_sentence_length self).
Proof. intros r. apply sample_sentence_length_no_fuel. Qed.

Lemma fueled_last_pair (result : list string) : fueled (last_pair result).
Proof.
  unfold last_pair. destruct (last2 result); [|apply fueled_raise].
  destruct (last1 result); [apply fueled_ret | apply fueled_raise].
Qed.

Lemma format_sentence_no_fuel (words : list string) :
  format_sentence words <> OutOfFuel.
Proof. unfold format_sentence. now destruct (join " " words). Qed.

Lemma fueled_append_sentence (words sentences : list string) :
  fueled (append_sentence words sentences).
Proof.
  unfold append_sentence. destruct words; [apply fueled_ret|].
  apply fueled_bind; [|intros; apply fueled_ret].
  apply fueled_lift, format_sentence_no_fuel.
Qed.

Create HintDb fuel.

#[local] Hint Resolve fueled_ret fueled_raise fueled_randint fueled_choice
  fueled_weighted_choice fueled_sample_sentence_length fueled_last_pair
  fueled_append_sentence : fuel.

Ltac fuel_step :=
  first [ solve [auto with fuel] | apply fueled_bind; [|intros ?] ].

Ltac fuel_branch :=
  match goal with
  | |- fueled (match ?o with Some _ => _ | None => _ end) =>
      destruct o as [?c|]; [|apply fueled_ret]
  | |- fueled (if ?b then _ else _) =>
      destruct b; [|apply fueled_ret]
  end.

Lemma fueled_fallback (d : dist) (o : option string) :
  fueled (match o with
          | None => _weighted_choice d
          | Some _ => ret o
          end).
Proof. destruct o; auto with fuel. Qed.

#[local] Hint Resolve fueled_fallback : fuel.

Lemma fueled_char0_loop (n : nat) : fueled (char0_loop n).
Proof. induction n; cbn [char0_loop]; repeat fuel_step. Qed.

Lemma fueled_char1_loop (self : TextGenerator) :
  forall n result, fueled (char1_loop self n result).
Proof. induction n; intros; cbn [char1_loop]; repeat fuel_step. Qed.

Lemma fueled_word1_words (self : TextGenerator) :
  forall n words, fueled (word1_words self n words).
Proof. induction n; intros; cbn [word1_words]; repeat fuel_step. Qed.

Lemma fueled_char2_loop (self : TextGenerator) (length : Z) :
  forall fuel current result,
    (length - Z.of_nat (List.length result) <= Z.of_nat fuel)%Z ->
    fueled (char2_loop self fuel length current result).
Proof.
  induction fuel as [|fuel IH]; intros current result Hfuel r.
  - rewrite char2_loop_done by lia. discriminate.
  - revert r. cbn [char2_loop].
    destruct (Z.ltb_spec (Z.of_nat (List.length result)) length);
      [|apply fueled_ret].
    repeat fuel_step. repeat fuel_branch.
    apply IH. rewrite length_app. simpl. lia.
Qed.

Lemma fueled_word2_loop (self : TextGenerator) (sentence_length : Z) :
  forall fuel current_word words,
    (sentence_length - Z.of_nat (List.length words) <= Z.of_nat fuel)%Z ->
    fueled (word2_loop self fuel sentence_length current_word words).
Proof.
  induction fuel as [|fuel IH]; intros current_word words Hfuel;
    cbn [word2_loop];
    destruct (Z.ltb_spec (Z.of_nat (List.length words)) sentence_length);
    try apply fueled_ret; try lia.
  repeat fuel_step. repeat fuel_branch.
  apply IH. rewrite length_app. simpl. lia.
Qed.

Lemma fueled_char3_next (self : TextGenerator) (result : list string) :
  fueled (char3_next self result).
Proof. unfold char3_next. repeat fuel_step. Qed.

Lemma fueled_word3_next (self : TextGenerator) (words : list string) :
  fueled (word3_next self words).
Proof. unfold word3_next. repeat fuel_step. Qed.

Lemma fueled_around_next (self : TextGenerator) (ws : list string) :
  fueled (around_next self ws).
Proof.
  intros r. destruct (around_next_returns self ws r) as [o [r' H]].
  rewrite H. discriminate.
Qed.

#[local] Hint Resolve fueled_char3_next fueled_word3_next fueled_around_next
  fueled_char0_loop fueled_char1_loop fueled_word1_words : fuel.

Lemma fueled_char3_loop (self : TextGenerator) (length : Z) :
  forall fuel result,
    (length - Z.of_nat (List.length result) <= Z.of_nat fuel)%Z ->
    fueled (char3_loop self fuel length result).
Proof.
  induction fuel as [|fuel IH]; intros result Hfuel; cbn [char3_loop];
    destruct (Z.ltb_spec (Z.of_nat (List.length result)) length);
    try apply fueled_ret; try lia.
  repeat fuel_step. repeat fuel_branch.
  apply IH. rewrite length_app. simpl. lia.
Qed.

Lemma fueled_word3_loop (self : TextGenerator) (sentence_length : Z) :
  forall fuel words,
    (sentence_length - Z.of_nat (List.length words) <= Z.of_nat fuel)%Z ->
    fueled (word3_loop self fuel sentence_length words).
Proof.
  induction fuel as [|fuel IH]; intros words Hfuel; cbn [word3_loop];
    destruct (Z.ltb_spec (Z.of_nat (List.length words)) sentence_length);
    try apply fueled_ret; try lia.
  repeat fuel_step. repeat fuel_branch.
  apply IH. rewrite length_app. simpl. lia.
Qed.

Lemma fueled_word1_loop (self : TextGenerator) (num_sentences : Z) :
  forall fuel sentences attempts,
    (max_attempts - attempts <= Z.of_nat fuel)%Z ->
    fueled (word1_loop self fuel num_sentences sentences attempts).
Proof.
  induction fuel as [|fuel IH]; intros sentences attempts Hfuel;
    cbn [word1_loop];
    destruct (Z.ltb_spec (Z.of_nat (List.length sentences)) num_sentences);
    destruct (Z.ltb_spec attempts max_attempts); cbn [andb];
    try apply fueled_ret; try lia.
  repeat fuel_step. apply IH. lia.
Qed.

Lemma fueled_word2_sentences (self : TextGenerator) :
  forall n sentences, fueled (word2_sentences self n sentences).
Proof.
  induction n; intros; cbn [word2_sentences]; repeat fuel_step.
  apply fueled_word2_loop. lia.
Qed.

Lemma fueled_word3_sentences (self : TextGenerator) :
  forall n sentences, fueled (word3_sentences self n sentences).
Proof.
  induction n; intros; cbn [word3_sentences]; repeat fuel_step.
  apply fueled_word3_loop. lia.
Qed.

Lemma fueled_around_loop (self : TextGenerator) :
  forall n ws, fueled (around_loop self n ws).
Proof. induction n; intros; cbn [around_loop]; repeat fuel_step. Qed.

Lemma fueled_generate_around_anchor (self : TextGenerator)
  (anchor_word : string) (num_words : Z) :
  fueled (_generate_around_anchor self anchor_word num_words).
Proof.
  unfold _generate_around_anchor.
  repeat (apply fueled_bind; [auto using fueled_around_loop with fuel|];
          intros ?).
  destruct (rev a0 ++ slice_from1 a1); [apply fueled_ret|].
  apply fueled_bind; [|intros; apply fueled_ret].
  apply fueled_lift, format_sentence_no_fuel.
Qed.

Lemma fueled_attempts_loop (self : TextGenerator) (anchor : string) :
  forall n sentences, fueled (attempts_loop self anchor n sentences).
Proof.
  induction n as [|n IH]; intros sentences; cbn [attempts_loop];
    [apply fueled_ret|].
  destruct (mem String.eqb anchor (word_unigrams self)); [|apply IH].
  apply fueled_bind; [auto with fuel|]. intros num_words.
  apply fueled_bind; [apply fueled_generate_around_anchor|].
  intros [cand|]; [|apply IH].
  destruct (truthy (Some cand) && contains (lower anchor) (lower cand));
    [|apply IH].
  repeat fuel_step.
Qed.

Lemma fueled_anchors_loop (self : TextGenerator) :
  forall missing_anchors sentences,
    fueled (anchors_loop self missing_anchors sentences).
Proof.
  induction missing_anchors as [|a rest IH]; intros sentences;
    cbn [anchors_loop]; [apply fueled_ret|].
  apply fueled_bind; [apply fueled_attempts_loop | intros; apply IH].
Qed.

Lemma fueled_integrate_anchor_words (self : TextGenerator) (text : string)
  (anchor_words : list string) (num_sentences : Z) :
  fueled (_integrate_anchor_words self text anchor_words num_sentences).
Proof.
  unfold _integrate_anchor_words.
  destruct anchor_words as [|a rest]; [apply fueled_ret|].
  destruct (filter _ (a :: rest)); [apply fueled_ret|].
  apply fueled_bind; [apply fueled_anchors_loop | intros; apply fueled_ret].
Qed.

Lemma fueled_finish (self : TextGenerator) (sentences : list string)
  (anchor_words : option (list string)) (num_sentences : Z) :
  fueled (finish self sentences anchor_words num_sentences).
Proof.
  unfold finish. destruct anchor_words as [[|w ws]|]; try apply fueled_ret.
  apply fueled_integrate_anchor_words.
Qed.

(** Every request to [generate] returns or raises: the fuel passed to each
    [while] loop of the embedding covers all of its rounds. *)
Lemma generate_fueled (self : TextGenerator) (level : string)
  (length num_sentences : Z) (anchor_words : option (list string)) :
  fueled (generate self level length num_sentences anchor_words).
Proof.
  assert (Hc1 : fueled (generate_char_1 self length))
    by (unfold generate_char_1; repeat fuel_step).
  assert (Hc2 : fueled (generate_char_2 self length)).
  { unfold generate_char_2. destruct (char_bigram_chains self); [exact Hc1|].
    repeat fuel_step. apply fueled_char2_loop. lia. }
  assert (Hc3 : fueled (generate_char_3 self length)).
  { unfold generate_char_3. destruct (char_trigram_chains self); [exact Hc2|].
    repeat fuel_step. apply fueled_char3_loop. lia. }
  assert (Hw1 : fueled (generate_word_1 self num_sentences anchor_words)).
  { unfold generate_word_1.
    apply fueled_bind; [|intros; apply fueled_finish].
    apply fueled_word1_loop. unfold max_attempts. lia. }
  assert (Hw2 : fueled (generate_word_2 self num_sentences anchor_words)).
  { unfold generate_word_2. destruct (word_bigram_chains self); [exact Hw1|].
    apply fueled_bind; [|intros; apply fueled_finish].
    apply fueled_word2_sentences. }
  assert (Hw3 : fueled (generate_word_3 self num_sentences anchor_words)).
  { unfold generate_word_3. destruct (word_trigram_chains self); [exact Hw2|].
    apply fueled_bind; [|intros; apply fueled_finish].
    apply fueled_word3_sentences. }
  assert (Hc0 : fueled (generate_char_0 self length))
    by (unfold generate_char_0; repeat fuel_step).
  unfold generate, level_map. cbn [get].
  repeat match goal with
         | |- fueled (match (if ?b then _ else _) with _ => _ end) =>
             destruct b; [assumption|]
         end.
  apply fueled_raise.
Qed.

(** ** What the sibling procedure does, and what the bigram chains hold *)

Lemma any_token_holds (self : TextGenerator) :
  char_tokens (fun _ => True) self.
Proof.
  assert (H : forall l : list string, Forall (fun _ => True) l)
    by (intros l; apply Forall_forall; auto).
  unfold char_tokens, chains_satisfy.
  repeat split; try apply H; apply Forall_forall; intros; apply H.
Qed.

(** [generate_char_2] returns in every session, for every length and from
    every state of the random source. *)
Lemma generate_char_2_returns (self : TextGenerator) (length : Z) (r : rng) :
  exists out r', generate_char_2 self length r = (Returns out, r').
Proof.
  unfold generate_char_2.
  destruct (char_bigram_chains self) as [|pd ch].
  - unfold generate_char_1, bind.
    destruct (char1_loop_returns (fun _ => True) self (any_token_holds self)
                (Z.to_nat length) [] r (Forall_nil _))
      as [result [r1 [Hl _]]].
    rewrite Hl. now eexists; eexists.
  - unfold bind.
    destruct (weighted_choice_returns (char_unigram_probs self) r)
      as [current [r1 Hc]].
    rewrite Hc.
    destruct (char2_loop_returns (fun _ => True) self (any_token_holds self)
                length (Z.to_nat length) current (seed current []) r1)
      as [result [r2 [Hl _]]].
    + assert (0 <= Z.of_nat (List.length (seed current [])))%Z by lia. lia.
    + apply Forall_forall. auto.
    + rewrite Hl. now eexists; eexists.
Qed.

(** On a session without character unigrams, where [generate_char_3]
    raises, [generate_char_2] returns the empty string. *)
Lemma generate_char_2_without_unigrams (r : rng) :
  generate_char_2 no_unigram_session 1 r = (Returns "", r)
  /\ generate_char_3 no_unigram_session 1 r = (Raises IndexError, r).
Proof. split; reflexivity. Qed.

Lemma update_keys {V} (P : context -> Prop) (k : context)
  (f : option V -> V) (d : list (context * V)) :
  P k -> Forall P (keys d) -> Forall P (keys (update context_eqb k f d)).
Proof.
  intros Hk. unfold keys.
  induction d as [|[k' v] d IH]; intros Hd; cbn [update map fst].
  - now repeat constructor.
  - inversion Hd as [|? ? Hk' Hrest]; subst.
    destruct (context_eqb k k'); cbn [map fst]; constructor; auto.
Qed.

Lemma raw_chains_one_word :
  forall (t : freq) (ch ch' : chains),
    Forall (fun kc => two_part (fst kc)) t ->
    Forall one_word (keys ch) ->
    ofold add_ngram t ch = Returns ch' ->
    Forall one_word (keys ch').
Proof.
  induction t as [|[key count] t IH]; intros ch ch' Hall Hch Hfold;
    cbn [ofold] in Hfold; [now injection Hfold as <-|].
  inversion Hall as [|? ? [a [b Hk]] Hrest]; subst. cbn [fst] in Hk.
  unfold add_ngram in Hfold. rewrite Hk in Hfold. unfold add_count in Hfold.
  destruct (of_int count) as [c| |]; cbn [obind] in Hfold; try discriminate.
  apply (IH _ ch' Hrest) in Hfold; [exact Hfold|].
  apply update_keys; [now exists a | exact Hch].
Qed.

Lemma omap_keys {K A B} (f : A -> outcome B) :
  forall (l : list (K * A)) (l' : list (K * B)),
    omap (fun kv => obind (f (snd kv)) (fun y => Returns (fst kv, y))) l
    = Returns l' ->
    keys l' = keys l.
Proof.
  induction l as [|[k v] l IH]; intros l' H; cbn [omap] in H.
  - now injection H as <-.
  - cbn [fst snd] in H. destruct (f v) as [y| |]; cbn [obind] in H;
      try discriminate.
    destruct (omap _ l) as [ys| |] eqn:E; cbn [obind] in H; try discriminate.
    injection H as <-. unfold keys. cbn [map fst]. f_equal. now apply IH.
Qed.

(** Chains built from a table of two-part keys have no context made of
    two words: looking one up yields the empty dictionary. *)
Lemma pair_context_absent (t : freq) (ch : chains) (a b : string) :
  Forall (fun kc => two_part (fst kc)) t ->
  _build_markov_chains t = Returns ch ->
  chain_get ch (Some (Ctx2 a b)) = [].
Proof.
  intros Hall Hb. unfold _build_markov_chains, accumulate_counts in Hb.
  destruct (ofold add_ngram t []) as [raw| |] eqn:Eraw; cbn [obind] in Hb;
    try discriminate.
  assert (Hk : keys ch = keys raw).
  { apply (omap_keys normalize). etransitivity; [|exact Hb].
    generalize raw. intros l.
    induction l as [|[p d] l IH]; [reflexivity|]. cbn [omap fst snd].
    now rewrite IH. }
  pose proof (raw_chains_one_word t [] raw Hall (Forall_nil _) Eraw) as Hone.
  rewrite <- Hk in Hone. unfold chain_get.
  destruct (get context_eqb (Ctx2 a b) ch) as [d|] eqn:E; [|reflexivity].
  apply (get_In context_eqb context_eqb_spec) in E.
  rewrite Forall_forall in Hone.
  destruct (Hone (Ctx2 a b)) as [w Hw]; [|discriminate].
  unfold keys. change (Ctx2 a b) with (fst (Ctx2 a b, d)). now apply in_map.
Qed.

Section NoPairContext.
Variable self : TextGenerator.
Hypothesis no_pair :
  forall a b : string,
    chain_get (word_bigram_chains self) (Some (Ctx2 a b)) = [].

(** Once a walk holds two words it draws nothing more. *)
Lemma around_loop_stuck :
  forall (n : nat) (ws : list string) (r : rng),
    2 <= List.length ws -> around_loop self n ws r = (Returns ws, r).
Proof.
  induction n as [|n IH]; intros ws r Hlen; cbn [around_loop];
    [reflexivity|].
  destruct (last_pair_defined ws Hlen) as [a [b [H2 H1]]].
  unfold bind. rewrite (around_next_pair self ws a b r H2 H1), no_pair.
  cbn [_weighted_choice ret seed]. now apply IH.
Qed.

(** When the bigram chains hold no two-word context, a walk adds at most
    one word to the anchor. *)
Lemma around_loop_one_word (anchor : string) :
  forall (n : nat) (r : rng),
    exists more r',
      around_loop self n [anchor] r = (Returns (anchor :: more), r')
      /\ List.length more <= 1.
Proof.
  induction n as [|n IH]; intros r; cbn [around_loop].
  - exists [], r. split; [reflexivity | simpl; lia].
  - unfold bind.
    rewrite around_next_single by (simpl; lia).
    destruct (weighted_choice_returns (word_unigram_probs self) r)
      as [o [r1 Ho]].
    rewrite Ho. unfold seed.
    destruct o as [c|]; [|apply IH].
    destruct (truthy (Some c)); [|apply IH].
    rewrite around_loop_stuck by (simpl; lia).
    exists [c], r1. split; [reflexivity | simpl; lia].
Qed.

(** Then a sentence has at most one word on each side of its anchor. *)
Lemma around_anchor_short (anchor : string) (num_words : Z) (r : rng) :
  exists (prefix suffix : list string) (r' : rng),
    List.length prefix <= 1
    /\ List.length suffix <= 1
    /\ _generate_around_anchor self anchor num_words r
       = (obind (format_sentence (rev prefix ++ [anchor] ++ suffix))
            (fun sentence => Returns (Some sentence)), r').
Proof.
  destruct (randint_returns 2 5 r) as [bc [Hbc _]]; [lia|].
  set (r1 := mkRng (source r) (S (pos r))) in *.
  destruct (around_loop_one_word anchor (Z.to_nat bc) r1)
    as [prefix [r2 [Hp Hlp]]].
  destruct (around_loop_one_word anchor (Z.to_nat (num_words - bc)) r2)
    as [suffix [r3 [Hs Hls]]].
  exists prefix, suffix, r3.
  split; [exact Hlp|]. split; [exact Hls|].
  unfold _generate_around_anchor, bind. rewrite Hbc, Hp, Hs.
  cbn [rev slice_from1 tl]. rewrite <- app_assoc.
  destruct (rev prefix ++ [anchor] ++ suffix) as [|w ws] eqn:E.
  - exfalso. apply app_eq_nil in E. destruct E as [_ E]. discriminate.
  - unfold lift. destruct (format_sentence (w :: ws)); reflexivity.
Qed.

End NoPairContext.

Lemma last_two_of_app {A} (ws : list A) (a b : A) :
  last2 (ws ++ [a; b]) = Some a /\ last1 (ws ++ [a; b]) = Some b.
Proof. unfold last2, last1. rewrite rev_app_distr. now split. Qed.

(** The walks of [_generate_around_anchor] do not read the word trigram
    chains. *)
Lemma around_loop_without_trigrams (self : TextGenerator) (ch : chains) :
  forall (n : nat) (ws : list string) (r : rng),
    around_loop (with_word_trigram_chains self ch) n ws r
    = around_loop self n ws r.
Proof.
  induction n as [|n IH]; intros ws r; cbn [around_loop]; [reflexivity|].
  unfold bind. change (around_next (with_word_trigram_chains self ch) ws r)
    with (around_next self ws r).
  destruct (around_next self ws r) as [[o| |] r1]; [apply IH | |];
    reflexivity.
Qed.

Lemma generate_around_anchor_without_trigrams (self : TextGenerator)
  (ch : chains) (anchor : string) (num_words : Z) (r : rng) :
  _generate_around_anchor (with_word_trigram_chains self ch) anchor num_words r
  = _generate_around_anchor self anchor num_words r.
Proof.
  unfold _generate_around_anchor, bind.
  destruct (randint 2 5 r) as [[bc| |] r1]; try reflexivity.
  rewrite around_loop_without_trigrams.
  destruct (around_loop self (Z.to_nat bc) [anchor] r1) as [[p| |] r2];
    try reflexivity.
  rewrite around_loop_without_trigrams. reflexivity.
Qed.

Lemma full_session_no_pair (a b : string) :
  chain_get (word_bigram_chains full_session) (Some (Ctx2 a b)) = [].
Proof. reflexivity. Qed.

(** C5, the failing input.  The session loaded from the word unigrams
    [{the: 3, cat: 2, dog: 1}], the word bigrams
    [{the||cat: 3, the||dog: 1, cat||the: 1}] and the word trigrams
    [{the||cat||the: 1}] has bigram chains under the one-word contexts
    [the] and [cat], and trigram chains in which the pair (the, cat) is
    followed by [the].  In that session, from every state of the random
    source, a walk of [_generate_around_anchor] that holds two words or
    more looks its last two words up in the bigram chains, finds nothing
    and draws nothing, so the walk stays as it is however many steps are
    left and every sentence has at most one word on each side of the
    anchor; the trigram chains are not read at all, the result is the
    same with any others in their place.  With the words (the, cat) in
    hand the step of [generate_word_3] draws [the] from the trigram
    chains where the step of the walk draws nothing, and the sentence
    requested around [the] with the default [num_words] of 10 is
    [Cat the cat.] *)
Theorem anchor_walk_finds_no_transition :
  init "demo" "JSON_Files"
    [("a", 2); ("b", 4)]%Z
    [("a||b", 2); ("b||a", 1); ("b||b", 2)]%Z
    [("a||b||b", 1); ("b||b||a", 1)]%Z
    [("the", 3); ("cat", 2); ("dog", 1)]%Z
    [("the||cat", 3); ("the||dog", 1); ("cat||the", 1)]%Z
    [("the||cat||the", 1)]%Z
    (Some [("3", 2); ("4", 1)]%Z)
  = Returns full_session
  /\ word_bigram_chains full_session
     = [(Ctx1 "the", [("cat", Finite (3 # 4)); ("dog", Finite (1 # 4))]);
        (Ctx1 "cat", [("the", Finite 1)])]
  /\ word_trigram_chains full_session
     = [(Ctx2 "the" "cat", [("the", Finite 1)])]
  /\ (forall (ws : list string) (a b : string) (r : rng),
        around_next full_session (ws ++ [a; b]) r = (Returns None, r))
  /\ (forall (n : nat) (ws : list string) (a b : string) (r : rng),
        around_loop full_session n (ws ++ [a; b]) r
        = (Returns (ws ++ [a; b]), r))
  /\ (forall (anchor : string) (num_words : Z) (r : rng),
        exists (prefix suffix : list string) (r' : rng),
          List.length prefix <= 1
          /\ List.length suffix <= 1
          /\ _generate_around_anchor full_session anchor num_words r
             = (obind (format_sentence (rev prefix ++ [anchor] ++ suffix))
                  (fun sentence => Returns (Some sentence)), r'))
  /\ (forall (ch : chains) (anchor : string) (num_words : Z) (r : rng),
        _generate_around_anchor (with_word_trigram_chains full_session ch)
          anchor num_words r
        = _generate_around_anchor full_session anchor num_words r)
  /\ fst (word3_next full_session ["the"; "cat"] five_eighths)
     = Returns (Some "the")
  /\ fst (around_next full_session ["the"; "cat"] five_eighths)
     = Returns None
  /\ fst (_generate_around_anchor full_session "the" 10 five_eighths)
     = Returns (Some "Cat the cat.").
Proof.
  split; [vm_compute; reflexivity|].
  split; [reflexivity|]. split; [reflexivity|].
  split.
  { intros ws a b r. destruct (last_two_of_app ws a b) as [H2 H1].
    rewrite (around_next_pair full_session _ a b r H2 H1).
    now rewrite full_session_no_pair. }
  split.
  { intros n ws a b r.
    apply (around_loop_stuck full_session full_session_no_pair).
    rewrite length_app. simpl. lia. }
  split; [exact (around_anchor_short full_session full_session_no_pair)|].
  split.
  { intros ch anchor num_words r.
    apply generate_around_anchor_without_trigrams. }
  repeat split; vm_compute; reflexivity.
Qed.

(* ================================================================== *)
(** * Further properties of the generator, the analysis and the CLI    *)
(* ================================================================== *)

Import Analyze ShannonGen Coverage.

(** ** Model construction: errors, invariants, ignored keys *)

Lemma omap_raises_head {A B} (f : A -> outcome B) (x : A) (l : list A)
  (e : exn) :
  f x = Raises e -> omap f (x :: l) = Raises e.
Proof. intros H. cbn [omap]. now rewrite H. Qed.

(** X1. On a non-empty frequency table whose counts sum to zero,
    [_frequencies_to_probabilities] raises [ZeroDivisionError]. *)
Theorem frequencies_zero_total_raises (frequencies : freq) :
  frequencies <> [] ->
  zsum (values frequencies) = 0%Z ->
  _frequencies_to_probabilities frequencies = Raises ZeroDivisionError.
Proof.
  intros Hne Hz. unfold _frequencies_to_probabilities.
  destruct frequencies as [|[k c] rest]; [contradiction|].
  apply omap_raises_head. rewrite Hz. reflexivity.
Qed.

Lemma frequencies_zero_total_raises_witness :
  _frequencies_to_probabilities [("a", 2); ("b", -2)]%Z
  = Raises ZeroDivisionError.
Proof.
  apply (frequencies_zero_total_raises [("a", 2); ("b", -2)]%Z);
    [discriminate | reflexivity].
Defined.

Lemma update_nonempty {K V} (eqb : K -> K -> bool) (k : K)
  (f : option V -> V) (d : list (K * V)) :
  update eqb k f d <> [].
Proof.
  destruct d as [|[k' v] d]; cbn [update]; [discriminate|].
  destruct (eqb k k'); discriminate.
Qed.

Lemma exact_counts_nonempty :
  forall (t : freq) (zc : counts),
    Forall (fun pd => snd pd <> []) zc ->
    Forall (fun pd => snd pd <> []) (fold_left count_ngram t zc).
Proof.
  induction t as [|[key count] t IH]; intros zc Hzc; cbn [fold_left];
    [exact Hzc|].
  apply IH. rewrite count_ngram_entry.
  destruct (entry_context key) as [[ctx n]|]; [|exact Hzc].
  unfold count_entry.
  apply (update_Forall context_eqb (fun d : list (string * Z) => d <> []));
    [apply update_nonempty | intros v _; apply update_nonempty | exact Hzc].
Qed.

Section Distributions.
Local Open Scope Q_scope.

(** The numbers stored for counts that doubles hold differ from the exact
    quotients, summed, by at most half a last bit of the sum. *)
Lemma stored_sum_normal (total : Z) (t : freq) :
  (total <= exact_bound)%Z ->
  Forall (fun kc => 1 <= snd kc <= total)%Z t ->
  Qabs (exact_sum (values (map (probability_entry total) t))
        - fold_right Qplus 0 (ratios total t))
  <= fold_right Qplus 0 (ratios total t) * pow2 (-53).
Proof.
  intros Hb. unfold exact_sum, ratios, values.
  induction 1 as [|[k c] t Hc Ht IH];
    cbn [map fold_right snd fst probability_entry].
  - rewrite Qmult_0_l. apply Qle_refl.
  - cbn [snd] in Hc.
    destruct (quotient_normal c total Hc Hb) as [v [Hv [_ [_ Herr]]]].
    rewrite Hv. cbn [value].
    set (S1 := fold_right Qplus 0
                 (map value
                    (map snd (map (probability_entry total) t)))) in *.
    set (S2 := fold_right Qplus 0
                 (map (fun kc => ratio (snd kc) total) t)) in *.
    setoid_replace (v + S1 - (ratio c total + S2))
      with ((v - ratio c total) + (S1 - S2)) by ring.
    eapply Qle_trans; [apply Qabs_triangle|].
    setoid_replace ((ratio c total + S2) * pow2 (-53))
      with (ratio c total * pow2 (-53) + S2 * pow2 (-53)) by ring.
    apply Qplus_le_compat; [exact Herr | exact IH].
Qed.

(** A dictionary of counts that doubles hold, each divided by the total,
    is a distribution. *)
Lemma quotients_distribution (d : list (string * Z)) :
  d <> [] ->
  Forall (fun kv => 1 <= snd kv)%Z d ->
  (zsum (values d) <= exact_bound)%Z ->
  is_distribution (quotients d).
Proof.
  intros Hne Hall Hb.
  assert (Hbound : Forall (fun kc => 1 <= snd kc <= zsum (values d))%Z d).
  { rewrite Forall_forall in *. intros [k c] Hin. cbn [snd].
    split; [exact (Hall _ Hin)|]. apply zsum_member.
    - unfold values. apply Forall_map. apply Forall_forall. exact Hall.
    - unfold values. change c with (snd (k, c)). now apply in_map. }
  unfold is_distribution. split; [|split].
  - unfold quotients. intros E. apply map_eq_nil in E. contradiction.
  - unfold quotients. apply Forall_map.
    eapply Forall_impl; [|exact Hbound]. intros [k c] Hc. cbn [snd] in *.
    destruct (quotient_normal c _ Hc Hb) as [v [Hv [H0 [H1 _]]]].
    exists v. now repeat split.
  - pose proof (stored_sum_normal (zsum (values d)) d Hb Hbound) as Hnear.
    assert (Hnz : zsum (values d) <> 0%Z).
    { assert (0 < zsum (values d))%Z; [|lia]. apply zsum_positive.
      - unfold values. intros E. apply map_eq_nil in E. contradiction.
      - unfold values. apply Forall_map. exact Hall. }
    rewrite (ratios_sum_to_one d Hnz), Qmult_1_l in Hnear. exact Hnear.
Qed.

End Distributions.

Lemma build_chains_are_distributions (ngrams : freq) :
  exactly_counted ngrams ->
  exists ch : chains,
    _build_markov_chains ngrams = Returns ch
    /\ Forall (fun pd => is_distribution (snd pd)) ch.
Proof.
  intros Hex. eexists. split; [now apply build_markov_chains_returns|].
  pose proof (exact_counts_bounded ngrams Hex) as Hw.
  pose proof (exact_counts_nonempty ngrams [] (Forall_nil _)) as Hn.
  fold (exact_counts ngrams) in Hn. unfold within in Hw.
  apply Forall_map. rewrite Forall_forall in *.
  intros pd Hin. cbn [snd].
  destruct (Hw pd Hin) as [H1 H2].
  apply quotients_distribution; [exact (Hn pd Hin) | exact H1 | exact H2].
Qed.

(** X2. From a frequency table whose counts are at least 1 and sum to at
    most [2 ** 53], [_build_markov_chains] returns chains in which every
    context maps to a probability distribution of doubles: it is not
    empty, each probability lies in (0, 1], and the numbers the
    probabilities of one context hold sum to 1 within [2 ** -53]. *)
Theorem build_chains_distributions (ngrams : freq) :
  exactly_counted ngrams ->
  exists ch : chains,
    _build_markov_chains ngrams = Returns ch
    /\ Forall (fun pd => is_distribution (snd pd)) ch.
Proof. apply build_chains_are_distributions. Qed.

Lemma build_chains_distributions_witness :
  exists ch : chains,
    _build_markov_chains
      [("the||cat", 3); ("a||b||c", 2); ("the||dog", 1); ("a||b||d", 4)]%Z
    = Returns ch
    /\ Forall (fun pd => is_distribution (snd pd)) ch.
Proof.
  apply (build_chains_distributions
           [("the||cat", 3); ("a||b||c", 2); ("the||dog", 1); ("a||b||d", 4)]%Z).
  split; [repeat constructor; simpl; lia | vm_compute; discriminate].
Defined.

(** *** Keys of any shape *)

(** X3. From a frequency table whose counts are at least 1 and sum to at
    most [2 ** 53], every key that splits into three parts [a], [b], [c] is
    found in the chains under the 2-tuple context [(a, b)] with the
    continuation [c]; its probability is the double nearest to the summed
    count of the entries contributing [c] to [(a, b)] divided by the summed
    count of the entries contributing to [(a, b)], a number of (0, 1]
    within a relative [2 ** -53] of that quotient. *)
Theorem build_chains_trigram_keys (ngrams : freq) (key : string) (count : Z)
  (a b c : string) :
  exactly_counted ngrams ->
  In (key, count) ngrams ->
  split "||" key = [a; b; c] ->
  exists (ch : chains) (d : dist) (p : Q),
    _build_markov_chains ngrams = Returns ch
    /\ get context_eqb (Ctx2 a b) ch = Some d
    /\ get String.eqb c d = Some (Finite p)
    /\ (1 <= continuation_count ngrams (Ctx2 a b) c
        <= context_count ngrams (Ctx2 a b))%Z
    /\ Finite p = quotient (continuation_count ngrams (Ctx2 a b) c)
                    (context_count ngrams (Ctx2 a b))
    /\ (0 < p)%Q /\ (p <= 1)%Q
    /\ (Qabs (p - ratio (continuation_count ngrams (Ctx2 a b) c)
                   (context_count ngrams (Ctx2 a b)))
        <= ratio (continuation_count ngrams (Ctx2 a b) c)
             (context_count ngrams (Ctx2 a b)) * pow2 (-53))%Q.
Proof.
  intros Hall Hin Hsplit.
  apply (build_chains_entry ngrams key count); try assumption.
  unfold entry_context. now rewrite Hsplit.
Qed.

Lemma build_chains_trigram_keys_witness :
  exists (ch : chains) (d : dist) (p : Q),
    _build_markov_chains
      [("a||b||c", 1); ("a||b||d", 3); ("b||c||a", 2)]%Z = Returns ch
    /\ get context_eqb (Ctx2 "a" "b") ch = Some d
    /\ get String.eqb "d" d = Some (Finite p)
    /\ (1 <= continuation_count
               [("a||b||c", 1); ("a||b||d", 3); ("b||c||a", 2)]%Z
               (Ctx2 "a" "b") "d"
        <= context_count
             [("a||b||c", 1); ("a||b||d", 3); ("b||c||a", 2)]%Z
             (Ctx2 "a" "b"))%Z
    /\ Finite p
       = quotient
           (continuation_count
              [("a||b||c", 1); ("a||b||d", 3); ("b||c||a", 2)]%Z
              (Ctx2 "a" "b") "d")
           (context_count
              [("a||b||c", 1); ("a||b||d", 3); ("b||c||a", 2)]%Z
              (Ctx2 "a" "b"))
    /\ (0 < p)%Q /\ (p <= 1)%Q
    /\ (Qabs (p - ratio
                   (continuation_count
                      [("a||b||c", 1); ("a||b||d", 3); ("b||c||a", 2)]%Z
                      (Ctx2 "a" "b") "d")
                   (context_count
                      [("a||b||c", 1); ("a||b||d", 3); ("b||c||a", 2)]%Z
                      (Ctx2 "a" "b")))
        <= ratio
             (continuation_count
                [("a||b||c", 1); ("a||b||d", 3); ("b||c||a", 2)]%Z
                (Ctx2 "a" "b") "d")
             (context_count
                [("a||b||c", 1); ("a||b||d", 3); ("b||c||a", 2)]%Z
                (Ctx2 "a" "b")) * pow2 (-53))%Q.
Proof.
  apply (build_chains_trigram_keys
           [("a||b||c", 1); ("a||b||d", 3); ("b||c||a", 2)]%Z
           "a||b||d" 3 "a" "b" "d").
  - split; [repeat constructor; simpl; lia | vm_compute; discriminate].
  - simpl. tauto.
  - reflexivity.
Defined.

Lemma fold_add_ngram_filter :
  forall (t : freq) (ch : chains),
    ofold add_ngram t ch
    = ofold add_ngram (filter (fun kc => well_formed_key (fst kc)) t) ch.
Proof.
  induction t as [|[key count] t IH]; intros ch; cbn [ofold filter fst];
    [reflexivity|].
  unfold well_formed_key at 1. rewrite add_ngram_entry.
  destruct (entry_context key) as [[ctx n]|] eqn:E; cbn [ofold obind].
  - rewrite add_ngram_entry, E.
    destruct (add_count ctx n count ch); cbn [obind];
      [apply IH | reflexivity | reflexivity].
  - apply IH.
Qed.

(** X4. [_build_markov_chains] ignores every key that does not split into
    two or three parts: the result is that of the table without those
    keys, and a table that holds only such keys (a unigram table, say)
    gives the empty chains without error, whatever its counts. *)
Theorem build_chains_ignores_other_keys (ngrams : freq) :
  _build_markov_chains ngrams
  = _build_markov_chains
      (filter (fun kc => well_formed_key (fst kc)) ngrams)
  /\ (Forall (fun kc => well_formed_key (fst kc) = false) ngrams ->
      _build_markov_chains ngrams = Returns []).
Proof.
  assert (H : _build_markov_chains ngrams
              = _build_markov_chains
                  (filter (fun kc => well_formed_key (fst kc)) ngrams)).
  { unfold _build_markov_chains, accumulate_counts.
    now rewrite fold_add_ngram_filter. }
  split; [exact H|].
  intros Hall. rewrite H.
  replace (filter (fun kc => well_formed_key (fst kc)) ngrams)
    with (@nil (string * Z)); [reflexivity|].
  clear H. induction Hall as [|kc t Hkc Ht IH]; cbn [filter]; [reflexivity|].
  rewrite Hkc. exact IH.
Qed.

Lemma build_chains_ignores_other_keys_witness :
  _build_markov_chains [("the", 3); ("a||b||c||d", 0); ("", -1)]%Z
  = Returns [].
Proof.
  apply (build_chains_ignores_other_keys
           [("the", 3); ("a||b||c||d", 0); ("", -1)]%Z).
  repeat constructor.
Defined.

Lemma frequencies_counted_returns (frequencies : freq) :
  counted frequencies ->
  exists d : dist,
    _frequencies_to_probabilities frequencies = Returns d
    /\ keys d = keys frequencies.
Proof.
  intros Hall. eexists.
  split; [now apply frequencies_to_probabilities_map|].
  unfold keys. rewrite map_map. apply map_ext. now intros [k c].
Qed.

(** X5. When the counts of the two unigram tables are at least 1, and
    those of the four bigram and trigram tables are at least 1 and sum, in
    each table, to at most [2 ** 53] (empty tables included), [__init__]
    raises nothing: the session holds the six tables as loaded, its two
    unigram models have the keys of the unigram tables, and every context
    of its four chains maps to a probability distribution. *)
Theorem init_returns (author data_dir : string)
  (cu cb ct wu wb wt : freq) (ld : option freq) :
  counted cu -> counted wu ->
  exactly_counted cb -> exactly_counted ct ->
  exactly_counted wb -> exactly_counted wt ->
  exists self : TextGenerator,
    init author data_dir cu cb ct wu wb wt ld = Returns self
    /\ (char_unigrams self, char_bigrams self, char_trigrams self)
       = (cu, cb, ct)
    /\ (word_unigrams self, word_bigrams self, word_trigrams self)
       = (wu, wb, wt)
    /\ length_distribution self = ld
    /\ keys (char_unigram_probs self) = keys cu
    /\ keys (word_unigram_probs self) = keys wu
    /\ Forall (fun pd => is_distribution (snd pd)) (char_bigram_chains self)
    /\ Forall (fun pd => is_distribution (snd pd)) (char_trigram_chains self)
    /\ Forall (fun pd => is_distribution (snd pd)) (word_bigram_chains self)
    /\ Forall (fun pd => is_distribution (snd pd)) (word_trigram_chains self).
Proof.
  intros Hcu Hwu Hcb Hct Hwb Hwt.
  destruct (frequencies_counted_returns cu Hcu) as [cup [Ecup Kcup]].
  destruct (frequencies_counted_returns wu Hwu) as [wup [Ewup Kwup]].
  destruct (build_chains_are_distributions cb Hcb) as [cbc [Ecb Dcb]].
  destruct (build_chains_are_distributions ct Hct) as [ctc [Ect Dct]].
  destruct (build_chains_are_distributions wb Hwb) as [wbc [Ewb Dwb]].
  destruct (build_chains_are_distributions wt Hwt) as [wtc [Ewt Dwt]].
  eexists. unfold init.
  rewrite Ecup, Ecb, Ect, Ewup, Ewb, Ewt. cbn [obind].
  split; [reflexivity|]. cbn.
  repeat (split; [first [reflexivity | assumption]|]). assumption.
Qed.

Lemma init_returns_witness :
  exists self : TextGenerator,
    init "austen" "JSON_Files" [("a", 2); ("b", 4)]%Z [("a||b", 2)]%Z []
      [("the", 3)]%Z [] [("the||cat||the", 1)]%Z None
    = Returns self
    /\ (char_unigrams self, char_bigrams self, char_trigrams self)
       = ([("a", 2); ("b", 4)]%Z, [("a||b", 2)]%Z, [])
    /\ (word_unigrams self, word_bigrams self, word_trigrams self)
       = ([("the", 3)]%Z, [], [("the||cat||the", 1)]%Z)
    /\ length_distribution self = None
    /\ keys (char_unigram_probs self) = keys [("a", 2); ("b", 4)]%Z
    /\ keys (word_unigram_probs self) = keys [("the", 3)]%Z
    /\ Forall (fun pd => is_distribution (snd pd)) (char_bigram_chains self)
    /\ Forall (fun pd => is_distribution (snd pd)) (char_trigram_chains self)
    /\ Forall (fun pd => is_distribution (snd pd)) (word_bigram_chains self)
    /\ Forall (fun pd => is_distribution (snd pd)) (word_trigram_chains self).
Proof.
  apply (init_returns "austen" "JSON_Files" [("a", 2); ("b", 4)]%Z
           [("a||b", 2)]%Z [] [("the", 3)]%Z [] [("the||cat||the", 1)]%Z None).
  - repeat constructor; simpl; lia.
  - repeat constructor; simpl; lia.
  - split; [repeat constructor; simpl; lia | vm_compute; discriminate].
  - split; [constructor | vm_compute; discriminate].
  - split; [constructor | vm_compute; discriminate].
  - split; [repeat constructor; simpl; lia | vm_compute; discriminate].
Defined.

(** An integer of [2 ** 1024] or more has no double. *)
Lemma of_int_overflows (n : Z) :
  (2 ^ 1024 <= n)%Z -> of_int n = Raises OverflowError.
Proof.
  intros Hn. unfold of_int, nearest_double. rewrite Qred_inject_Z.
  cbn [Qnum Qden inject_Z].
  assert (H0 : (0 < n)%Z).
  { pose proof (Z.pow_pos_nonneg 2 1024). lia. }
  destruct n as [|p|p]; try lia.
  pose proof (Z.log2_spec (Z.pos p) H0) as [Hlo _].
  assert (HL : (1024 <= Z.log2 (Z.pos p))%Z).
  { apply Z.log2_le_pow2; [lia | exact Hn]. }
  set (L := Z.log2 (Z.pos p)) in *.
  assert (Hexp : exponent (Z.pos p) 1 = L).
  { unfold exponent. change (Z.log2 (Z.pos 1)) with 0%Z.
    rewrite Z.sub_0_r. fold L.
    destruct (Z.leb_spec 0 L) as [_|]; [|lia].
    destruct (Z.leb_spec (Z.pos 1 * 2 ^ L) (Z.pos p)) as [_|]; [reflexivity|].
    lia. }
  assert (Hbit : last_bit (Z.pos p) 1 = (L - 52)%Z).
  { unfold last_bit. rewrite Hexp. lia. }
  unfold round_magnitude. rewrite Hbit.
  assert (Hsig : (2 ^ 52 <= significand (Z.pos p) 1)%Z).
  { unfold significand. rewrite Hbit. unfold scaled.
    destruct (Z.leb_spec 0 (L - 52)) as [_|]; [|lia]. cbn [fst snd].
    apply nearest_even_ge.
    - pose proof (Z.pow_pos_nonneg 2 (L - 52)). lia.
    - change (Z.pos 1) with 1%Z. rewrite Z.mul_1_l, <- Z.pow_add_r by lia.
      replace (52 + (L - 52))%Z with L by lia. exact Hlo. }
  assert (Hbig : (2 ^ 1024 <= significand (Z.pos p) 1 * 2 ^ (L - 52))%Z).
  { apply Z.le_trans with (2 ^ 52 * 2 ^ (L - 52))%Z.
    - rewrite <- Z.pow_add_r by lia. apply Z.pow_le_mono_r; lia.
    - apply Z.mul_le_mono_nonneg_r; [apply Z.pow_nonneg; lia | exact Hsig]. }
  destruct (Z.leb_spec 0 (L - 52)) as [_|]; [|lia].
  destruct (Z.leb_spec (2 ^ 1024) (significand (Z.pos p) 1 * 2 ^ (L - 52)))
    as [_|]; [reflexivity | lia].
Qed.

Lemma ofold_app {A B} (f : A -> B -> outcome A) (l1 l2 : list B) :
  forall a : A, ofold f (l1 ++ l2) a = obind (ofold f l1 a) (ofold f l2).
Proof.
  induction l1 as [|x l1 IH]; intros a; cbn [app ofold obind];
    [reflexivity|].
  destruct (f a x) as [a'| |]; cbn [obind]; [apply IH | |]; reflexivity.
Qed.

(** X30. When the keys before it are accumulated without error, a count
    of [2 ** 1024] or more under a key that splits into two or three parts
    makes [_build_markov_chains] raise [OverflowError]: the first loop adds
    the integer to a float, and no double is that large. *)
Theorem build_chains_overflow (before after : freq) (key : string)
  (count : Z) (acc : chains) :
  accumulate_counts before = Returns acc ->
  List.length (split "||" key) = 2 \/ List.length (split "||" key) = 3 ->
  (2 ^ 1024 <= count)%Z ->
  _build_markov_chains (before ++ (key, count) :: after)
  = Raises OverflowError.
Proof.
  intros Hacc Hparts Hcount.
  unfold _build_markov_chains, accumulate_counts in *.
  rewrite ofold_app, Hacc. cbn [obind ofold].
  assert (Hadd : add_ngram acc (key, count) = Raises OverflowError).
  { unfold add_ngram, add_count. rewrite (of_int_overflows count Hcount).
    destruct (split "||" key) as [|p0 [|p1 [|p2 [|p3 l]]]];
      cbn [List.length] in Hparts; try reflexivity;
      destruct Hparts; discriminate. }
  now rewrite Hadd.
Qed.

Lemma build_chains_overflow_witness :
  _build_markov_chains [("the||cat", 3); ("the||dog", 2 ^ 1024)]%Z
  = Raises OverflowError.
Proof.
  apply (build_chains_overflow [("the||cat", 3%Z)] [] "the||dog"
           (2 ^ 1024)%Z [(Ctx1 "the", [("cat", Finite 3)])]).
  - reflexivity.
  - left. reflexivity.
  - apply Z.le_refl.
Defined.

(** ** Sampling a sentence length *)

Lemma int_raises (s : string) (e : exn) :
  int s = Raises e -> e = int_error s.
Proof.
  unfold int.
  destruct (match rstrip (lstrip s) with
            | EmptyString => _ | String _ _ => _ end);
    [discriminate | now intros [= <-]].
Qed.

Lemma in_repeat_iff {A} (x y : A) (n : nat) :
  In y (repeat x n) <-> y = x /\ 0 < n.
Proof.
  split.
  - intros H. split; [now apply repeat_spec in H|].
    destruct n; [contradiction | lia].
  - intros [-> Hn]. destruct n; [lia | now left].
Qed.

(** The population rebuilt from the distribution holds exactly the
    lengths whose count is positive. *)
Lemma expand_lengths_In :
  forall (ld : freq) (lengths : list Z),
    expand_lengths ld = Returns lengths ->
    forall n : Z,
      In n lengths
      <-> exists key count,
            In (key, count) ld /\ int key = Returns n /\ (0 < count)%Z.
Proof.
  induction ld as [|[k c] rest IH]; intros lengths H n;
    cbn [expand_lengths] in H.
  - injection H as <-. split; [intros [] | intros [? [? [[] _]]]].
  - destruct (int k) as [m|e|] eqn:Ek; cbn [obind] in H; try discriminate.
    destruct (expand_lengths rest) as [more|e|] eqn:Er; cbn [obind] in H;
      try discriminate.
    injection H as <-. rewrite in_app_iff, in_repeat_iff, (IH more eq_refl).
    split.
    + intros [[-> Hc]|[key [count [Hin Hk]]]].
      * exists k, c. repeat split; [now left | exact Ek | lia].
      * exists key, count. split; [now right | exact Hk].
    + intros [key [count [[E|Hin] [Hk Hc]]]].
      * injection E as <- <-. left. rewrite Ek in Hk. injection Hk as <-.
        split; [reflexivity | lia].
      * right. now exists key, count.
Qed.

Lemma expand_lengths_raises :
  forall (before after : freq) (key : string) (count : Z) (e : exn),
    Forall (fun kc => exists n, int (fst kc) = Returns n) before ->
    int key = Raises e ->
    expand_lengths (before ++ (key, count) :: after) = Raises (int_error key).
Proof.
  induction before as [|[k c] rest IH]; intros after key count e Hall Hk;
    cbn [app expand_lengths].
  - rewrite Hk. cbn [obind]. now rewrite (int_raises key e Hk).
  - inversion Hall as [|? ? [n Hn] Hrest]; subst. cbn [fst] in Hn.
    rewrite Hn. cbn [obind].
    now rewrite (IH after key count e Hrest Hk).
Qed.



(** X7. When the keys of the length distribution before some key read
    as integers and that key does not, all of them ASCII strings of at
    most 4300 characters, [_sample_sentence_length] raises the
    [ValueError] of [int] for that key, whose message ends with the [repr]
    of the key, before anything is drawn from the random source. *)
Theorem sample_sentence_length_bad_key (self : TextGenerator)
  (before after : freq) (key : string) (count : Z) (e : exn) (r : rng) :
  length_distribution self = Some (before ++ (key, count) :: after) ->
  Forall (fun kc => plain_key (fst kc)) before ->
  Forall (fun kc => exists n, int (fst kc) = Returns n) before ->
  plain_key key ->
  int key = Raises e ->
  _sample_sentence_length self r
  = (Raises (ValueError
               ("invalid literal for int() with base 10: "
                ++ substring 0 200 (repr key))), r).
Proof.
  intros Hld _ Hbefore _ Hk. unfold _sample_sentence_length.
  rewrite Hld. unfold bind, lift.
  now rewrite (expand_lengths_raises before after key count e Hbefore Hk).
Qed.

Lemma sample_sentence_length_bad_key_witness :
  _sample_sentence_length
    (stats_only_session (Some [("12", 2); ("twelve", 1); ("7", 3)]%Z))
    counting
  = (Raises (ValueError "invalid literal for int() with base 10: 'twelve'"),
     counting).
Proof.
  apply (sample_sentence_length_bad_key
           (stats_only_session (Some [("12", 2); ("twelve", 1); ("7", 3)]%Z))
           [("12", 2)]%Z [("7", 3)]%Z "twelve" 1 (int_error "twelve")
           counting).
  - reflexivity.
  - constructor; [split; [reflexivity | simpl; lia] | constructor].
  - constructor; [now exists 12%Z | constructor].
  - split; [reflexivity | simpl; lia].
  - reflexivity.
Defined.

(** ** The character generators: lengths, errors, edge requests *)

Lemma char0_loop_spec :
  forall (n : nat) (r : rng),
    exists cs r',
      char0_loop n r = (Returns cs, r')
      /\ List.length cs = n
      /\ forallb alphabet_token cs = true.
Proof.
  induction n as [|n IH]; intros r; cbn [char0_loop].
  - now exists [], r.
  - unfold bind.
    destruct (choice_member chars r) as [i [c [Hc [_ [_ Hin]]]]];
      [discriminate|].
    rewrite Hc.
    destruct (IH (mkRng (source r) (S (pos r)))) as [cs [r' [Hl [Hlen Hall]]]].
    rewrite Hl. exists (c :: cs), r'. split; [reflexivity|].
    split; [simpl; now rewrite Hlen|].
    cbn [forallb]. rewrite Hall, andb_true_r.
    assert (Hchars : forallb alphabet_token chars = true) by reflexivity.
    rewrite forallb_forall in Hchars. now apply Hchars.
Qed.

Lemma join_alphabet_tokens (cs : list string) :
  forallb alphabet_token cs = true ->
  String.length (join "" cs) = List.length cs
  /\ forallb in_alphabet (list_ascii_of_string (join "" cs)) = true.
Proof.
  induction cs as [|c cs IH]; intros Hall; [now split|].
  cbn [forallb] in Hall. apply andb_true_iff in Hall.
  destruct Hall as [Hc Hcs]. destruct (IH Hcs) as [Hlen Hin].
  rewrite join_empty_cons.
  destruct c as [|a [|b c']]; try discriminate.
  cbn [append String.length list_ascii_of_string forallb List.length].
  cbn [alphabet_token] in Hc. rewrite Hlen, Hc, Hin. now split.
Qed.

(** X8. [generate_char_0] returns, in every session, a string of exactly
    [length] characters (none when [length] is negative), each of them one
    of the 26 lower-case letters or the space. *)
Theorem generate_char_0_length (self : TextGenerator) (length : Z) (r : rng) :
  exists out r',
    generate_char_0 self length r = (Returns out, r')
    /\ String.length out = Z.to_nat length
    /\ forallb in_alphabet (list_ascii_of_string out) = true.
Proof.
  unfold generate_char_0, bind.
  destruct (char0_loop_spec (Z.to_nat length) r) as [cs [r' [Hl [Hlen Hall]]]].
  rewrite Hl. exists (join "" cs), r'. split; [reflexivity|].
  destruct (join_alphabet_tokens cs Hall) as [H1 H2].
  split; [now rewrite H1 | exact H2].
Qed.

Section ExactLength.
Variable self : TextGenerator.
Hypothesis tokens : char_tokens single_char self.
Hypothesis unigrams : char_unigram_probs self <> [].

Lemma unigram_draw (r : rng) :
  exists c r',
    _weighted_choice (char_unigram_probs self) r = (Returns (Some c), r')
    /\ single_char c.
Proof.
  destruct tokens as [Huni _]. rewrite Forall_forall in Huni.
  destruct (weighted_choice_member (char_unigram_probs self) r unigrams)
    as [c [r' [Hc Hin]]].
  exists c, r'. split; [exact Hc | now apply Huni].
Qed.

Lemma seed_single (c : string) (result : list string) :
  single_char c -> seed (Some c) result = result ++ [c].
Proof. intros H. unfold seed. now rewrite single_char_truthy. Qed.

Lemma char1_loop_exact :
  forall (n : nat) (result : list string) (r : rng),
    Forall single_char result ->
    exists result' r',
      char1_loop self n result r = (Returns result', r')
      /\ Forall single_char result'
      /\ List.length result' = List.length result + n.
Proof.
  induction n as [|n IH]; intros result r Hres; cbn [char1_loop].
  - exists result, r. repeat split; [exact Hres | lia].
  - unfold bind. destruct (unigram_draw r) as [c [r1 [Hc HP]]].
    rewrite Hc, seed_single by exact HP.
    destruct (IH (result ++ [c]) r1) as [result' [r' [Hl [HP' Hlen]]]].
    { apply Forall_app. split; [exact Hres | now repeat constructor]. }
    exists result', r'. repeat split; [exact Hl | exact HP' |].
    rewrite Hlen, length_app. simpl. lia.
Qed.

(** One round of the loop of [generate_char_2] always draws a character. *)
Lemma char2_round (current : option string) (r : rng) :
  exists c r',
    (next_char <- _weighted_choice
                    (chain_get (char_bigram_chains self)
                               (option_map Ctx1 current)) ;;
     match next_char with
     | None => _weighted_choice (char_unigram_probs self)
     | Some _ => ret next_char
     end) r = (Returns (Some c), r')
    /\ single_char c.
Proof.
  unfold bind.
  set (bi := chain_get (char_bigram_chains self) (option_map Ctx1 current)).
  assert (Hbid : Forall single_char (keys bi)).
  { apply chain_get_satisfy. now destruct tokens as [_ [H _]]. }
  destruct (weighted_choice_returns bi r) as [[c1|] [r1 Ho1]]; rewrite Ho1.
  - exists c1, r1. split; [reflexivity|].
    exact (weighted_choice_satisfy single_char bi r r1 c1 Hbid Ho1).
  - apply unigram_draw.
Qed.

Lemma char2_loop_exact (length : Z) :
  forall (fuel : nat) (current : option string) (result : list string)
         (r : rng),
    (length - Z.of_nat (List.length result) <= Z.of_nat fuel)%Z ->
    Forall single_char result ->
    exists result' r',
      char2_loop self fuel length current result r = (Returns result', r')
      /\ Forall single_char result'
      /\ Z.of_nat (List.length result')
         = Z.max length (Z.of_nat (List.length result)).
Proof.
  induction fuel as [|fuel IH]; intros current result r Hfuel Hres.
  - rewrite char2_loop_done by lia. exists result, r.
    repeat split; [exact Hres | lia].
  - destruct (Z.ltb_spec (Z.of_nat (List.length result)) length) as [Hlt|Hge].
    2:{ rewrite char2_loop_done by lia. exists result, r.
        repeat split; [exact Hres | lia]. }
    cbn [char2_loop]. pose proof Hlt as Hlt'. apply Z.ltb_lt in Hlt'.
    rewrite Hlt'.
    destruct (char2_round current r) as [c [r1 [Hc HP]]].
    unfold bind in *.
    destruct (_weighted_choice
                (chain_get (char_bigram_chains self)
                   (option_map Ctx1 current)) r) as [[o1|e1|] r0];
      try discriminate.
    destruct ((match o1 with
               | None => _weighted_choice (char_unigram_probs self)
               | Some _ => ret o1
               end) r0) as [[o2|e2|] r2]; try discriminate.
    injection Hc as -> ->.
    rewrite (single_char_truthy c HP).
    destruct (IH (Some c) (result ++ [c]) r1) as [result' [r' [Hl [HP' Hlen]]]].
    + rewrite length_app. simpl. lia.
    + apply Forall_app. split; [exact Hres | now repeat constructor].
    + exists result', r'. repeat split; [exact Hl | exact HP' |].
      rewrite Hlen, length_app. simpl. lia.
Qed.

Lemma char3_loop_exact (length : Z) :
  forall (fuel : nat) (result : list string) (r : rng),
    (length - Z.of_nat (List.length result) <= Z.of_nat fuel)%Z ->
    2 <= List.length result ->
    Forall single_char result ->
    exists result' r',
      char3_loop self fuel length result r = (Returns result', r')
      /\ Forall single_char result'
      /\ Z.of_nat (List.length result')
         = Z.max length (Z.of_nat (List.length result)).
Proof.
  induction fuel as [|fuel IH]; intros result r Hfuel Hlen Hres.
  - rewrite char3_loop_done by lia. exists result, r.
    repeat split; [exact Hres | lia].
  - destruct (Z.ltb_spec (Z.of_nat (List.length result)) length) as [Hlt|Hge].
    2:{ rewrite char3_loop_done by lia. exists result, r.
        repeat split; [exact Hres | lia]. }
    cbn [char3_loop]. pose proof Hlt as Hlt'. apply Z.ltb_lt in Hlt'.
    rewrite Hlt'. unfold bind.
    destruct (char3_next_member single_char self tokens unigrams result r Hlen)
      as [c [r1 [Hc HP]]].
    rewrite Hc, (single_char_truthy c HP).
    destruct (IH (result ++ [c]) r1) as [result' [r' [Hl [HP' Hlen']]]].
    + rewrite length_app. simpl. lia.
    + rewrite length_app. simpl. lia.
    + apply Forall_app. split; [exact Hres | now repeat constructor].
    + exists result', r'. repeat split; [exact Hl | exact HP' |].
      rewrite Hlen', length_app. simpl. lia.
Qed.

End ExactLength.

Lemma slice_to_exact (toks : list string) (length : Z) :
  (0 <= length <= Z.of_nat (List.length toks))%Z ->
  Forall single_char toks ->
  Z.of_nat (String.length (join "" (slice_to toks length))) = length.
Proof.
  intros Hlen Htoks. unfold slice_to.
  destruct (Z.leb_spec 0 length) as [_|H]; [|lia].
  rewrite join_single_chars by now apply Forall_firstn_keeps.
  rewrite length_firstn. lia.
Qed.

Lemma generate_char_1_exact (self : TextGenerator) (length : Z) (r : rng) :
  (0 <= length)%Z ->
  char_tokens single_char self ->
  char_unigram_probs self <> [] ->
  exists out r',
    generate_char_1 self length r = (Returns out, r')
    /\ Z.of_nat (String.length out) = length.
Proof.
  intros Hlen Htok Huni. unfold generate_char_1, bind.
  destruct (char1_loop_exact self Htok Huni (Z.to_nat length) [] r
              (Forall_nil _)) as [result [r1 [Hl [HP Hn]]]].
  rewrite Hl. exists (join "" result), r1. split; [reflexivity|].
  rewrite join_single_chars by exact HP. simpl in Hn. lia.
Qed.

Lemma generate_char_2_exact (self : TextGenerator) (length : Z) (r : rng) :
  (0 <= length)%Z ->
  char_tokens single_char self ->
  char_unigram_probs self <> [] ->
  exists out r',
    generate_char_2 self length r = (Returns out, r')
    /\ Z.of_nat (String.length out) = length.
Proof.
  intros Hlen Htok Huni. unfold generate_char_2.
  destruct (char_bigram_chains self) as [|pd ch];
    [now apply generate_char_1_exact|].
  unfold bind.
  destruct (unigram_draw self Htok Huni r) as [c [r1 [Hc HP]]].
  rewrite Hc, seed_single by exact HP.
  destruct (char2_loop_exact self Htok Huni length (Z.to_nat length)
              (Some c) ([] ++ [c]) r1) as [result [r2 [Hl [HP' Hn]]]].
  - simpl. lia.
  - now repeat constructor.
  - rewrite Hl. eexists. exists r2. split; [reflexivity|].
    apply slice_to_exact; [|exact HP']. simpl in Hn. lia.
Qed.

Lemma generate_char_3_exact (self : TextGenerator) (length : Z) (r : rng) :
  (0 <= length)%Z ->
  char_tokens single_char self ->
  char_unigram_probs self <> [] ->
  exists out r',
    generate_char_3 self length r = (Returns out, r')
    /\ Z.of_nat (String.length out) = length.
Proof.
  intros Hlen Htok Huni. unfold generate_char_3.
  destruct (char_trigram_chains self) as [|pd ch];
    [now apply generate_char_2_exact|].
  unfold bind.
  destruct (unigram_draw self Htok Huni r) as [c1 [r1 [Hc1 HP1]]].
  destruct (unigram_draw self Htok Huni r1) as [c2 [r2 [Hc2 HP2]]].
  rewrite Hc1, Hc2, (seed_single c1), (seed_single c2) by assumption.
  destruct (char3_loop_exact self Htok Huni length (Z.to_nat length)
              (([] ++ [c1]) ++ [c2]) r2) as [result [r3 [Hl [HP' Hn]]]].
  - simpl. lia.
  - simpl. lia.
  - now repeat constructor.
  - rewrite Hl. eexists. exists r3. split; [reflexivity|].
    apply slice_to_exact; [|exact HP']. simpl in Hn. lia.
Qed.

(** X9. In a session whose character tokens are single characters and
    whose unigram distribution is not empty, [generate_char_1],
    [generate_char_2] and [generate_char_3] each return a string of exactly
    [length] characters, for every [length >= 0]. *)
Theorem char_generators_exact_length (self : TextGenerator) (length : Z)
  (r : rng) :
  (0 <= length)%Z ->
  char_tokens single_char self ->
  char_unigram_probs self <> [] ->
  (exists out r',
      generate_char_1 self length r = (Returns out, r')
      /\ Z.of_nat (String.length out) = length)
  /\ (exists out r',
         generate_char_2 self length r = (Returns out, r')
         /\ Z.of_nat (String.length out) = length)
  /\ (exists out r',
         generate_char_3 self length r = (Returns out, r')
         /\ Z.of_nat (String.length out) = length).
Proof.
  intros Hlen Htok Huni.
  split; [now apply generate_char_1_exact|].
  split; [now apply generate_char_2_exact | now apply generate_char_3_exact].
Qed.

Lemma full_session_single_chars : char_tokens single_char full_session.
Proof. unfold char_tokens, chains_satisfy. repeat constructor. Qed.

Lemma char_generators_exact_length_witness :
  (exists out r',
      generate_char_1 full_session 12 counting = (Returns out, r')
      /\ Z.of_nat (String.length out) = 12%Z)
  /\ (exists out r',
         generate_char_2 full_session 12 counting = (Returns out, r')
         /\ Z.of_nat (String.length out) = 12%Z)
  /\ (exists out r',
         generate_char_3 full_session 12 counting = (Returns out, r')
         /\ Z.of_nat (String.length out) = 12%Z).
Proof.
  apply (char_generators_exact_length full_session 12 counting).
  - lia.
  - exact full_session_single_chars.
  - discriminate.
Defined.

(** X10. In every session whose character trigram chains are not empty
    and whose character unigram distribution is empty, [generate_char_3]
    raises [IndexError] for every [length >= 1], without drawing anything,
    directly and through [generate]. *)
Theorem generate_char_3_raises (self : TextGenerator) (length : Z) (r : rng) :
  char_trigram_chains self <> [] ->
  char_unigram_probs self = [] ->
  (1 <= length)%Z ->
  generate_char_3 self length r = (Raises IndexError, r)
  /\ forall (num_sentences : Z) (anchor_words : option (list string)),
       generate self "char-3" length num_sentences anchor_words r
       = (Raises IndexError, r).
Proof.
  intros Htri Huni Hlen.
  assert (H : generate_char_3 self length r = (Raises IndexError, r)).
  { unfold generate_char_3.
    destruct (char_trigram_chains self) as [|pd ch]; [contradiction|].
    rewrite Huni. unfold bind. cbn [_weighted_choice ret seed].
    destruct (Z.to_nat length) as [|fuel] eqn:E; [lia|].
    cbn [char3_loop List.length].
    assert (Hlt : (Z.of_nat 0 <? length)%Z = true) by (apply Z.ltb_lt; lia).
    rewrite Hlt. reflexivity. }
  split; [exact H|]. intros num_sentences anchor_words. exact H.
Qed.

Lemma generate_char_3_raises_witness :
  generate_char_3 no_unigram_session 40 counting = (Raises IndexError, counting)
  /\ forall (num_sentences : Z) (anchor_words : option (list string)),
       generate no_unigram_session "char-3" 40 num_sentences anchor_words
         counting
       = (Raises IndexError, counting).
Proof.
  apply (generate_char_3_raises no_unigram_session 40 counting).
  - discriminate.
  - reflexivity.
  - lia.
Defined.

Lemma char1_loop_no_unigrams (self : TextGenerator) :
  char_unigram_probs self = [] ->
  forall (n : nat) (result : list string) (r : rng),
    char1_loop self n result r = (Returns result, r).
Proof.
  intros Huni. induction n as [|n IH]; intros result r; cbn [char1_loop];
    [reflexivity|].
  rewrite Huni. unfold bind. cbn [_weighted_choice ret seed]. apply IH.
Qed.

(** X11. In every session whose character unigram distribution is empty,
    [generate_char_1] and [generate_char_2] return the empty string for
    every [length] and draw nothing from the random source. *)
Theorem char_generators_without_unigrams (self : TextGenerator) (length : Z)
  (r : rng) :
  char_unigram_probs self = [] ->
  generate_char_1 self length r = (Returns "", r)
  /\ generate_char_2 self length r = (Returns "", r).
Proof.
  intros Huni.
  assert (H1 : generate_char_1 self length r = (Returns "", r)).
  { unfold generate_char_1, bind.
    now rewrite (char1_loop_no_unigrams self Huni). }
  split; [exact H1|].
  unfold generate_char_2.
  destruct (char_bigram_chains self) as [|pd ch]; [exact H1|].
  rewrite Huni. unfold bind. cbn [_weighted_choice ret seed].
  assert (Hloop : char2_loop self (Z.to_nat length) length None [] r
                  = (Returns [], r)).
  { destruct (Z.ltb_spec (Z.of_nat 0) length) as [Hlt|Hge].
    - destruct (Z.to_nat length) as [|fuel] eqn:E; [lia|].
      cbn [char2_loop List.length]. apply Z.ltb_lt in Hlt.
      rewrite Hlt, Huni. reflexivity.
    - apply char2_loop_done. simpl. lia. }
  rewrite Hloop. unfold slice_to.
  destruct (0 <=? length)%Z; now rewrite firstn_nil.
Qed.

Lemma char_generators_without_unigrams_witness :
  generate_char_1 no_unigram_session 40 counting = (Returns "", counting)
  /\ generate_char_2 no_unigram_session 40 counting = (Returns "", counting).
Proof.
  apply (char_generators_without_unigrams no_unigram_session 40 counting).
  reflexivity.
Defined.

Lemma slice_to_short {A} (l : list A) (n : Z) :
  (n <= 0)%Z -> (Z.of_nat (List.length l) + n <= 0)%Z -> slice_to l n = [].
Proof.
  intros Hn Hl. unfold slice_to.
  destruct (Z.leb_spec 0 n).
  - replace (Z.to_nat n) with 0 by lia. reflexivity.
  - replace (Z.to_nat (Z.of_nat (List.length l) + n)) with 0 by lia.
    reflexivity.
Qed.

(** X12. For a [length] that is zero or negative, [generate_char_0],
    [generate_char_1] and [generate_char_2] return the empty string in
    every session; so does [generate_char_3] when [length] is 0 or at most
    -2. *)
Theorem nonpositive_length_returns_empty (self : TextGenerator) (length : Z)
  (r : rng) :
  (length <= 0)%Z ->
  fst (generate_char_0 self length r) = Returns ""
  /\ fst (generate_char_1 self length r) = Returns ""
  /\ fst (generate_char_2 self length r) = Returns ""
  /\ (length <> (-1)%Z -> fst (generate_char_3 self length r) = Returns "").
Proof.
  intros Hlen.
  assert (Hnat : Z.to_nat length = 0) by lia.
  assert (H1 : forall r0, fst (generate_char_1 self length r0) = Returns "").
  { intros r0. unfold generate_char_1. now rewrite Hnat. }
  assert (H2 : forall r0, fst (generate_char_2 self length r0) = Returns "").
  { intros r0. unfold generate_char_2.
    destruct (char_bigram_chains self); [apply H1|].
    unfold bind.
    destruct (weighted_choice_returns (char_unigram_probs self) r0)
      as [o [r1 Ho]].
    rewrite Ho, char2_loop_done by lia.
    pose proof (seed_length o []) as Hs. simpl in Hs.
    destruct (Z.eq_dec length 0) as [->|Hneg]; [reflexivity|].
    rewrite slice_to_short by lia. reflexivity. }
  split; [unfold generate_char_0; now rewrite Hnat|].
  split; [apply H1|]. split; [apply H2|].
  intros Hnot. unfold generate_char_3.
  destruct (char_trigram_chains self); [apply H2|].
  unfold bind.
  destruct (weighted_choice_returns (char_unigram_probs self) r)
    as [o1 [r1 Ho1]].
  rewrite Ho1.
  destruct (weighted_choice_returns (char_unigram_probs self) r1)
    as [o2 [r2 Ho2]].
  rewrite Ho2, char3_loop_done by lia.
  pose proof (seed_length o1 []) as Hs1.
  pose proof (seed_length o2 (seed o1 [])) as Hs2. simpl in Hs1.
  destruct (Z.eq_dec length 0) as [->|Hneg]; [reflexivity|].
  rewrite slice_to_short by lia. reflexivity.
Qed.

Lemma nonpositive_length_returns_empty_witness :
  fst (generate_char_0 full_session (-3) counting) = Returns ""
  /\ fst (generate_char_1 full_session (-3) counting) = Returns ""
  /\ fst (generate_char_2 full_session (-3) counting) = Returns ""
  /\ fst (generate_char_3 full_session (-3) counting) = Returns "".
Proof.
  destruct (nonpositive_length_returns_empty full_session (-3) counting)
    as [H0 [H1 [H2 H3]]]; [lia|].
  split; [exact H0|]. split; [exact H1|]. split; [exact H2|].
  apply H3. discriminate.
Defined.

(** X13. With [length = -1], in a session whose character trigram chains
    and unigram distribution are not empty and whose character tokens are
    single characters, [generate_char_3] returns one character, the first
    of its two seeds: the slice [result[:-1]] drops only the second. *)
Theorem generate_char_3_minus_one (self : TextGenerator) (r : rng) :
  char_trigram_chains self <> [] ->
  char_unigram_probs self <> [] ->
  char_tokens single_char self ->
  exists c r1 r2,
    _weighted_choice (char_unigram_probs self) r = (Returns (Some c), r1)
    /\ generate_char_3 self (-1) r = (Returns c, r2)
    /\ String.length c = 1.
Proof.
  intros Htri Huni Htok. unfold generate_char_3.
  destruct (char_trigram_chains self) as [|pd ch]; [contradiction|].
  unfold bind.
  destruct (unigram_draw self Htok Huni r) as [c1 [r1 [Hc1 HP1]]].
  destruct (unigram_draw self Htok Huni r1) as [c2 [r2 [Hc2 HP2]]].
  exists c1, r1, r2. split; [exact Hc1|].
  rewrite Hc1, Hc2, (seed_single c1), (seed_single c2) by assumption.
  rewrite char3_loop_done by (simpl; lia).
  split; [reflexivity | exact HP1].
Qed.

Lemma generate_char_3_minus_one_witness :
  exists c r1 r2,
    _weighted_choice (char_unigram_probs full_session) counting
    = (Returns (Some c), r1)
    /\ generate_char_3 full_session (-1) counting = (Returns c, r2)
    /\ String.length c = 1.
Proof.
  apply (generate_char_3_minus_one full_session counting).
  - discriminate.
  - discriminate.
  - exact full_session_single_chars.
Defined.

(** X14. [generate_char_0], [generate_char_1] and [generate_char_2] return
    a string in every session, for every [length] and from every state of
    the random source: none of them raises. *)
Theorem low_order_char_generators_return (self : TextGenerator) (length : Z)
  (r : rng) :
  (exists out r', generate_char_0 self length r = (Returns out, r'))
  /\ (exists out r', generate_char_1 self length r = (Returns out, r'))
  /\ (exists out r', generate_char_2 self length r = (Returns out, r')).
Proof.
  split; [|split].
  - unfold generate_char_0, bind.
    destruct (char0_loop_spec (Z.to_nat length) r) as [cs [r' [Hl _]]].
    rewrite Hl. now eexists; eexists.
  - unfold generate_char_1, bind.
    destruct (char1_loop_returns (fun _ => True) self (any_token_holds self)
                (Z.to_nat length) [] r (Forall_nil _))
      as [result [r1 [Hl _]]].
    rewrite Hl. now eexists; eexists.
  - apply generate_char_2_returns.
Qed.

(** ** The word generators: sentences, counts, errors *)

Lemma sample_returns (self : TextGenerator) (r : rng) :
  lengths_parse self ->
  exists n r', _sample_sentence_length self r = (Returns n, r').
Proof.
  unfold lengths_parse, _sample_sentence_length. intros H.
  assert (Hdefault : exists n r', randint 5 20 r = (Returns n, r')).
  { destruct (randint_returns 5 20 r) as [n [Hn _]]; [lia|].
    exists n. eexists. exact Hn. }
  destruct (length_distribution self) as [ld|]; [|exact Hdefault].
  destruct H as [lengths Hl]. unfold bind, lift. rewrite Hl.
  destruct lengths as [|l ls]; [exact Hdefault|].
  destruct (choice_member (l :: ls) r) as [i [x [Hx _]]]; [discriminate|].
  exists x. eexists. exact Hx.
Qed.

Lemma sample_positive (self : TextGenerator) (r : rng) :
  lengths_positive self ->
  exists n r',
    _sample_sentence_length self r = (Returns n, r') /\ (1 <= n)%Z.
Proof.
  unfold lengths_positive, _sample_sentence_length. intros H.
  assert (Hdefault : exists n r',
             randint 5 20 r = (Returns n, r') /\ (1 <= n)%Z).
  { destruct (randint_returns 5 20 r) as [n [Hn [Hr _]]]; [lia|].
    exists n. eexists. split; [exact Hn | lia]. }
  destruct (length_distribution self) as [ld|]; [|exact Hdefault].
  destruct H as [lengths [Hl Hpos]]. unfold bind, lift. rewrite Hl.
  destruct lengths as [|l ls]; [exact Hdefault|].
  destruct (choice_member (l :: ls) r) as [i [x [Hx [_ [_ Hin]]]]];
    [discriminate|].
  exists x. eexists. split; [exact Hx|].
  rewrite Forall_forall in Hpos. now apply Hpos.
Qed.

Lemma lengths_positive_parse (self : TextGenerator) :
  lengths_positive self -> lengths_parse self.
Proof.
  unfold lengths_positive, lengths_parse.
  destruct (length_distribution self); [|auto].
  intros [lengths [H _]]. now exists lengths.
Qed.

(** Only words that are not empty are ever appended. *)
Lemma seed_nonempty (o : option string) (words : list string) :
  Forall nonempty words -> Forall nonempty (seed o words).
Proof.
  intros H. unfold seed. destruct o as [[|a w]|]; cbn [truthy]; try exact H.
  apply Forall_app. split; [exact H|].
  constructor; [discriminate | constructor].
Qed.

Lemma append_word_nonempty (w : string) (words : list string) :
  truthy (Some w) = true -> Forall nonempty words ->
  Forall nonempty (words ++ [w]).
Proof.
  intros Hw H. apply Forall_app. split; [exact H|].
  constructor; [|constructor]. destruct w; [discriminate | discriminate].
Qed.

Lemma join_nonempty_head (sep w : string) (rest : list string) :
  w <> EmptyString -> join sep (w :: rest) <> EmptyString.
Proof.
  intros Hw. destruct w as [|a w]; [contradiction|].
  rewrite join_cons_char. discriminate.
Qed.

(** A list of non-empty words, not itself empty, is formatted into a
    sentence. *)
Lemma format_sentence_shape (words : list string) :
  words <> [] -> Forall nonempty words ->
  exists s, format_sentence words = Returns s /\ sentence_shape s.
Proof.
  intros Hne Hall. destruct words as [|w rest]; [contradiction|].
  inversion Hall as [|? ? Hw _]; subst.
  unfold format_sentence.
  pose proof (join_nonempty_head " " w rest Hw) as Hj.
  destruct (join " " (w :: rest)) as [|c body]; [contradiction|].
  eexists. split; [reflexivity|].
  exists (String (upper_char c) body). split; [reflexivity | discriminate].
Qed.

Lemma append_sentence_shape (words sentences : list string) (r : rng) :
  Forall nonempty words -> Forall sentence_shape sentences ->
  exists sentences',
    append_sentence words sentences r = (Returns sentences', r)
    /\ Forall sentence_shape sentences'
    /\ List.length sentences'
       = List.length sentences + match words with [] => 0 | _ :: _ => 1 end.
Proof.
  intros Hw Hs. unfold append_sentence.
  destruct words as [|w rest].
  - exists sentences. repeat split; [exact Hs | lia].
  - destruct (format_sentence_shape (w :: rest)) as [s [Hf Hshape]];
      [discriminate | exact Hw |].
    unfold bind, lift. rewrite Hf.
    exists (sentences ++ [s]). split; [reflexivity|].
    split; [|rewrite length_app; reflexivity].
    apply Forall_app. split; [exact Hs | now repeat constructor].
Qed.

(** The inner loop of [generate_word_2] returns in every session, and
    keeps the words it was given. *)
Lemma word2_loop_returns (self : TextGenerator) (sentence_length : Z) :
  forall (fuel : nat) (current_word : option string) (words : list string)
         (r : rng),
    (sentence_length - Z.of_nat (List.length words) <= Z.of_nat fuel)%Z ->
    Forall nonempty words ->
    exists words' r',
      word2_loop self fuel sentence_length current_word words r
      = (Returns words', r')
      /\ Forall nonempty words'
      /\ List.length words <= List.length words'.
Proof.
  induction fuel as [|fuel IH]; intros current_word words r Hfuel Hall;
    cbn [word2_loop];
    destruct (Z.ltb_spec (Z.of_nat (List.length words)) sentence_length)
      as [Hlt|Hge];
    try (exists words, r; repeat split; [exact Hall | lia]); try lia.
  unfold bind.
  destruct (weighted_choice_returns
              (chain_get (word_bigram_chains self)
                 (option_map Ctx1 current_word)) r) as [o1 [r1 Ho1]].
  rewrite Ho1.
  assert (Hnext : exists o r2,
             (match o1 with
              | None => _weighted_choice (word_unigram_probs self)
              | Some _ => ret o1
              end) r1 = (Returns o, r2)).
  { destruct o1; [now eexists; eexists | apply weighted_choice_returns]. }
  destruct Hnext as [o [r2 Ho]]. rewrite Ho.
  destruct o as [w|];
    [|exists words, r2; repeat split; [exact Hall | lia]].
  destruct (truthy (Some w)) eqn:Hw;
    [|exists words, r2; repeat split; [exact Hall | lia]].
  destruct (IH (Some w) (words ++ [w]) r2) as [words' [r' [Hl [HP Hlen]]]].
  - rewrite length_app. simpl. lia.
  - now apply append_word_nonempty.
  - exists words', r'. repeat split; [exact Hl | exact HP |].
    rewrite length_app in Hlen. simpl in Hlen. lia.
Qed.

Lemma word3_next_returns (self : TextGenerator) (words : list string)
  (r : rng) :
  2 <= List.length words ->
  exists o r', word3_next self words r = (Returns o, r').
Proof.
  intros Hlen. destruct (last_pair_defined words Hlen) as [a [b [H2 H1]]].
  unfold word3_next, bind.
  rewrite (last_pair_returns words a b r H2 H1).
  destruct (weighted_choice_returns
              (chain_get (word_trigram_chains self) (Some (Ctx2 a b))) r)
    as [[w1|] [r1 Ho1]]; rewrite Ho1.
  - now eexists; eexists.
  - destruct (weighted_choice_returns
                (chain_get (word_bigram_chains self)
                   (option_map Ctx1 (last1 words))) r1)
      as [[w2|] [r2 Ho2]]; rewrite Ho2.
    + now eexists; eexists.
    + apply weighted_choice_returns.
Qed.

(** The inner loop of [generate_word_3] returns when it starts from two
    words. *)
Lemma word3_loop_returns (self : TextGenerator) (sentence_length : Z) :
  forall (fuel : nat) (words : list string) (r : rng),
    (sentence_length - Z.of_nat (List.length words) <= Z.of_nat fuel)%Z ->
    2 <= List.length words ->
    Forall nonempty words ->
    exists words' r',
      word3_loop self fuel sentence_length words r = (Returns words', r')
      /\ Forall nonempty words'
      /\ List.length words <= List.length words'.
Proof.
  induction fuel as [|fuel IH]; intros words r Hfuel Hlen Hall;
    cbn [word3_loop];
    destruct (Z.ltb_spec (Z.of_nat (List.length words)) sentence_length)
      as [Hlt|Hge];
    try (exists words, r; repeat split; [exact Hall | lia]); try lia.
  unfold bind.
  destruct (word3_next_returns self words r Hlen) as [o [r1 Ho]].
  rewrite Ho.
  destruct o as [w|];
    [|exists words, r1; repeat split; [exact Hall | lia]].
  destruct (truthy (Some w)) eqn:Hw;
    [|exists words, r1; repeat split; [exact Hall | lia]].
  destruct (IH (words ++ [w]) r1) as [words' [r' [Hl [HP Hlen']]]].
  - rewrite length_app. simpl. lia.
  - rewrite length_app. simpl. lia.
  - now apply append_word_nonempty.
  - exists words', r'. repeat split; [exact Hl | exact HP |].
    rewrite length_app in Hlen'. simpl in Hlen'. lia.
Qed.

Section WordSeeds.
Variable self : TextGenerator.
Hypothesis lengths : lengths_parse self.
Hypothesis unigrams : word_unigram_probs self <> [].
Hypothesis unigram_words : Forall nonempty (keys (word_unigram_probs self)).

Lemma word_draw (r : rng) :
  exists w r',
    _weighted_choice (word_unigram_probs self) r = (Returns (Some w), r')
    /\ truthy (Some w) = true.
Proof.
  destruct (weighted_choice_member (word_unigram_probs self) r unigrams)
    as [w [r' [Hw Hin]]].
  exists w, r'. split; [exact Hw|].
  rewrite Forall_forall in unigram_words.
  specialize (unigram_words w Hin). destruct w; [contradiction | reflexivity].
Qed.

Lemma seed_word (w : string) (words : list string) :
  truthy (Some w) = true -> seed (Some w) words = words ++ [w].
Proof. intros H. unfold seed. now rewrite H. Qed.

(** Each round of the outer loop of [generate_word_2] adds a sentence. *)
Lemma word2_sentences_exact :
  forall (n : nat) (sentences : list string) (r : rng),
    Forall sentence_shape sentences ->
    exists sentences' r',
      word2_sentences self n sentences r = (Returns sentences', r')
      /\ Forall sentence_shape sentences'
      /\ List.length sentences' = List.length sentences + n.
Proof.
  induction n as [|n IH]; intros sentences r Hs; cbn [word2_sentences].
  - exists sentences, r. repeat split; [exact Hs | lia].
  - unfold bind.
    destruct (sample_returns self r lengths) as [len [r1 Hlen]].
    rewrite Hlen.
    destruct (word_draw r1) as [w [r2 [Hw Htruthy]]].
    rewrite Hw, seed_word by exact Htruthy.
    destruct (word2_loop_returns self len (Z.to_nat len) (Some w)
                ([] ++ [w]) r2) as [words [r3 [Hl [Hall Hge]]]].
    { simpl. lia. }
    { now apply append_word_nonempty. }
    rewrite Hl.
    destruct (append_sentence_shape words sentences r3 Hall Hs)
      as [sentences1 [Ha [Hs1 Hlen1]]].
    rewrite Ha.
    destruct (IH sentences1 r3 Hs1) as [sentences' [r' [Hr [Hs' Hlen']]]].
    exists sentences', r'. repeat split; [exact Hr | exact Hs' |].
    destruct words; [simpl in Hge; lia | lia].
Qed.

(** Each round of the outer loop of [generate_word_3] adds a sentence. *)
Lemma word3_sentences_exact :
  forall (n : nat) (sentences : list string) (r : rng),
    Forall sentence_shape sentences ->
    exists sentences' r',
      word3_sentences self n sentences r = (Returns sentences', r')
      /\ Forall sentence_shape sentences'
      /\ List.length sentences' = List.length sentences + n.
Proof.
  induction n as [|n IH]; intros sentences r Hs; cbn [word3_sentences].
  - exists sentences, r. repeat split; [exact Hs | lia].
  - unfold bind.
    destruct (sample_returns self r lengths) as [len [r1 Hlen]].
    rewrite Hlen.
    destruct (word_draw r1) as [w1 [r2 [Hw1 Ht1]]].
    destruct (word_draw r2) as [w2 [r3 [Hw2 Ht2]]].
    rewrite Hw1, Hw2, (seed_word w1), (seed_word w2) by assumption.
    destruct (word3_loop_returns self len (Z.to_nat len)
                (([] ++ [w1]) ++ [w2]) r3) as [words [r4 [Hl [Hall Hge]]]].
    { simpl. lia. }
    { simpl. lia. }
    { apply append_word_nonempty; [exact Ht2|].
      now apply append_word_nonempty. }
    rewrite Hl.
    destruct (append_sentence_shape words sentences r4 Hall Hs)
      as [sentences1 [Ha [Hs1 Hlen1]]].
    rewrite Ha.
    destruct (IH sentences1 r4 Hs1) as [sentences' [r' [Hr [Hs' Hlen']]]].
    exists sentences', r'. repeat split; [exact Hr | exact Hs' |].
    destruct words; [simpl in Hge; lia | lia].
Qed.

Lemma word1_words_exact :
  forall (n : nat) (words : list string) (r : rng),
    Forall nonempty words ->
    exists words' r',
      word1_words self n words r = (Returns words', r')
      /\ Forall nonempty words'
      /\ List.length words' = List.length words + n.
Proof.
  induction n as [|n IH]; intros words r Hall; cbn [word1_words].
  - exists words, r. repeat split; [exact Hall | lia].
  - unfold bind. destruct (word_draw r) as [w [r1 [Hw Ht]]].
    rewrite Hw, seed_word by exact Ht.
    destruct (IH (words ++ [w]) r1) as [words' [r' [Hl [HP Hlen]]]];
      [now apply append_word_nonempty|].
    exists words', r'. repeat split; [exact Hl | exact HP |].
    rewrite Hlen, length_app. simpl. lia.
Qed.

End WordSeeds.

(** The loop of [generate_word_1] adds one sentence per attempt until the
    target or the cap of 100 attempts is reached. *)
Lemma word1_loop_exact (self : TextGenerator) (num_sentences : Z) :
  lengths_positive self ->
  word_unigram_probs self <> [] ->
  Forall nonempty (keys (word_unigram_probs self)) ->
  forall (fuel : nat) (sentences : list string) (attempts : Z) (r : rng),
    (max_attempts - attempts <= Z.of_nat fuel)%Z ->
    Forall sentence_shape sentences ->
    exists sentences' r',
      word1_loop self fuel num_sentences sentences attempts r
      = (Returns sentences', r')
      /\ Forall sentence_shape sentences'
      /\ Z.of_nat (List.length sentences')
         = (Z.of_nat (List.length sentences)
            + Z.max 0 (Z.min (num_sentences - Z.of_nat (List.length sentences))
                             (max_attempts - attempts)))%Z.
Proof.
  intros Hlen Huni Hkeys.
  induction fuel as [|fuel IH]; intros sentences attempts r Hfuel Hs;
    cbn [word1_loop];
    destruct (Z.ltb_spec (Z.of_nat (List.length sentences)) num_sentences);
    destruct (Z.ltb_spec attempts max_attempts); cbn [andb];
    try (exists sentences, r; repeat split; [exact Hs | lia]); try lia.
  unfold bind.
  destruct (sample_positive self r Hlen) as [n [r1 [Hn Hpos]]].
  rewrite Hn.
  destruct (word1_words_exact self Huni Hkeys (Z.to_nat n) [] r1
              (Forall_nil _)) as [words [r2 [Hw [Hall Hwl]]]].
  rewrite Hw.
  destruct (append_sentence_shape words sentences r2 Hall Hs)
    as [sentences1 [Ha [Hs1 Hlen1]]].
  rewrite Ha.
  destruct (IH sentences1 (attempts + 1)%Z r2) as [sentences' [r' [Hr [Hs' Hl']]]];
    [lia | exact Hs1 |].
  exists sentences', r'. repeat split; [exact Hr | exact Hs' |].
  destruct words as [|w ws]; [simpl in Hwl; lia|].
  rewrite Hl', Hlen1. lia.
Qed.


Lemma full_session_lengths : lengths_positive full_session.
Proof.
  unfold lengths_positive. cbn. exists [3; 3; 4]%Z.
  split; [reflexivity | repeat constructor; lia].
Qed.

Lemma full_session_words :
  Forall nonempty (keys (word_unigram_probs full_session)).
Proof. repeat constructor; discriminate. Qed.






Lemma word1_words_no_unigrams (self : TextGenerator) :
  word_unigram_probs self = [] ->
  forall (n : nat) (words : list string) (r : rng),
    word1_words self n words r = (Returns words, r).
Proof.
  intros Huni. induction n as [|n IH]; intros words r; cbn [word1_words];
    [reflexivity|].
  rewrite Huni. unfold bind. cbn [_weighted_choice ret seed]. apply IH.
Qed.

Lemma word1_loop_no_unigrams (self : TextGenerator) (num_sentences : Z) :
  lengths_parse self ->
  word_unigram_probs self = [] ->
  forall (fuel : nat) (sentences : list string) (attempts : Z) (r : rng),
    (max_attempts - attempts <= Z.of_nat fuel)%Z ->
    exists r',
      word1_loop self fuel num_sentences sentences attempts r
      = (Returns sentences, r').
Proof.
  intros Hlen Huni.
  induction fuel as [|fuel IH]; intros sentences attempts r Hfuel;
    cbn [word1_loop];
    destruct (Z.ltb_spec (Z.of_nat (List.length sentences)) num_sentences);
    destruct (Z.ltb_spec attempts max_attempts); cbn [andb];
    try (now exists r); try lia.
  unfold bind.
  destruct (sample_returns self r Hlen) as [n [r1 Hn]].
  rewrite Hn, (word1_words_no_unigrams self Huni).
  cbn [append_sentence ret]. apply IH. lia.
Qed.

Lemma word2_loop_no_unigrams (self : TextGenerator) (sentence_length : Z)
  (r : rng) :
  word_unigram_probs self = [] ->
  word2_loop self (Z.to_nat sentence_length) sentence_length None [] r
  = (Returns [], r).
Proof.
  intros Huni.
  destruct (Z.ltb_spec (Z.of_nat 0) sentence_length) as [Hlt|Hge].
  - destruct (Z.to_nat sentence_length) as [|fuel] eqn:E; [lia|].
    cbn [word2_loop List.length]. apply Z.ltb_lt in Hlt.
    rewrite Hlt, Huni. reflexivity.
  - destruct (Z.to_nat sentence_length); cbn [word2_loop List.length];
      apply Z.ltb_ge in Hge; now rewrite Hge.
Qed.

Lemma word2_sentences_no_unigrams (self : TextGenerator) :
  lengths_parse self ->
  word_unigram_probs self = [] ->
  forall (n : nat) (sentences : list string) (r : rng),
    exists r', word2_sentences self n sentences r = (Returns sentences, r').
Proof.
  intros Hlen Huni.
  induction n as [|n IH]; intros sentences r; cbn [word2_sentences];
    [now exists r|].
  unfold bind.
  destruct (sample_returns self r Hlen) as [len [r1 Hn]].
  rewrite Hn, Huni. cbn [_weighted_choice ret seed].
  rewrite (word2_loop_no_unigrams self len r1 Huni).
  cbn [append_sentence ret]. apply IH.
Qed.

(** The integration leaves the text alone when no anchor is a key of the
    word unigram table. *)
Lemma integrate_anchor_words_skip (self : TextGenerator) (text : string)
  (anchor_words : list string) (num_sentences : Z) (r : rng) :
  Forall (fun w => ~ In w (keys (word_unigrams self))) anchor_words ->
  _integrate_anchor_words self text anchor_words num_sentences r
  = (Returns text, r).
Proof.
  intros Hall. unfold _integrate_anchor_words.
  destruct anchor_words as [|a rest]; [reflexivity|].
  set (missing :=
         filter (fun w => negb (contains (lower w) (lower text))) (a :: rest)).
  assert (Hmiss : Forall (fun w => ~ In w (keys (word_unigrams self))) missing)
    by (apply Forall_filter; exact Hall).
  destruct missing as [|m ms]; [reflexivity|].
  unfold bind. rewrite anchors_loop_skip by exact Hmiss.
  unfold ret. f_equal. f_equal. apply join_split. discriminate.
Qed.



(** ** Anchor words: present, missing, replaced *)

Lemma Forall_filter_true {A} (P : A -> Prop) (f : A -> bool) (l : list A) :
  Forall (fun x => f x = true -> P x) l -> Forall P (filter f l).
Proof.
  induction 1 as [|x l Hx Hl IH]; cbn [filter]; [constructor|].
  destruct (f x) eqn:E; [constructor; auto | exact IH].
Qed.

(** X19. For a text and anchor words made of ASCII characters: when
    every requested anchor word either occurs in the text already (as a
    substring, ignoring case) or is not a key of the word unigram table,
    [_integrate_anchor_words] returns the text unchanged and draws
    nothing. *)
Theorem anchors_present_or_unknown (self : TextGenerator) (text : string)
  (anchor_words : list string) (num_sentences : Z) (r : rng) :
  is_ascii text = true ->
  forallb is_ascii anchor_words = true ->
  Forall (fun w => contains (lower w) (lower text) = true
                   \/ ~ In w (keys (word_unigrams self))) anchor_words ->
  _integrate_anchor_words self text anchor_words num_sentences r
  = (Returns text, r).
Proof.
  intros _ _ Hall. unfold _integrate_anchor_words.
  destruct anchor_words as [|a rest]; [reflexivity|].
  set (missing :=
         filter (fun w => negb (contains (lower w) (lower text))) (a :: rest)).
  assert (Hmiss : Forall (fun w => ~ In w (keys (word_unigrams self))) missing).
  { apply Forall_filter_true. eapply Forall_impl; [|exact Hall].
    intros w [Hc|Hn] Hf; [|exact Hn].
    rewrite Hc in Hf. discriminate. }
  destruct missing as [|m ms]; [reflexivity|].
  unfold bind. rewrite anchors_loop_skip by exact Hmiss.
  unfold ret. f_equal. f_equal. apply join_split. discriminate.
Qed.

Lemma anchors_present_or_unknown_witness :
  _integrate_anchor_words full_session "The cat. Dog the." ["CAT"; "owl"; ""]
    2 counting
  = (Returns "The cat. Dog the.", counting).
Proof.
  apply (anchors_present_or_unknown full_session "The cat. Dog the."
           ["CAT"; "owl"; ""] 2 counting); [reflexivity | reflexivity |].
  constructor; [left; reflexivity|].
  constructor; [right; simpl; intros H;
                repeat (destruct H as [H|H]; [discriminate|]); exact H|].
  constructor; [left; reflexivity | constructor].
Defined.

(** *** Strings: case and containment *)

Lemma lower_upper_char (c : ascii) :
  lower_char (upper_char c) = lower_char c.
Proof. destruct c as [[] [] [] [] [] [] [] []]; reflexivity. Qed.

Lemma lower_app (a b : string) :
  lower (a ++ b) = (lower a ++ lower b)%string.
Proof. induction a as [|c a IH]; simpl; [reflexivity | now rewrite IH]. Qed.

Lemma prefix_app (x b : string) : prefix x (x ++ b) = true.
Proof.
  induction x as [|c x IH]; [now destruct b|].
  simpl. destruct (ascii_dec c c); [exact IH | contradiction].
Qed.

Lemma contains_app_r (x a s : string) :
  contains x s = true -> contains x (a ++ s) = true.
Proof.
  intros H. induction a as [|c a IH]; [exact H|].
  cbn [append contains]. rewrite IH. apply orb_true_r.
Qed.

Lemma contains_middle (x a b : string) :
  contains x (a ++ x ++ b) = true.
Proof.
  apply contains_app_r.
  destruct (x ++ b)%string eqn:E; cbn [contains];
    rewrite <- E, prefix_app; reflexivity.
Qed.

Lemma app_assoc_string (a b c : string) :
  ((a ++ b) ++ c = a ++ (b ++ c))%string.
Proof. induction a as [|x a IH]; simpl; [reflexivity | now rewrite IH]. Qed.

Lemma prefix_weaken (x s b : string) :
  prefix x s = true -> prefix x (s ++ b) = true.
Proof.
  intros H. apply prefix_append in H.
  remember (drop (String.length x) s) as t eqn:Et. clear Et.
  subst s. rewrite app_assoc_string. apply prefix_app.
Qed.

(** Whatever contains [x] still does inside a longer string. *)
Lemma contains_inside (x s a b : string) :
  contains x s = true -> contains x (a ++ s ++ b) = true.
Proof.
  intros H. apply contains_app_r. clear a.
  induction s as [|c s IH].
  - cbn [contains] in H. rewrite orb_false_r in H.
    apply (prefix_weaken x EmptyString b) in H. cbn [append] in *.
    destruct b; cbn [contains]; rewrite H; reflexivity.
  - cbn [contains] in H. apply orb_true_iff in H.
    destruct H as [Hp|Hc].
    + apply (prefix_weaken x (String c s) b) in Hp.
      cbn [append] in *. cbn [contains]. now rewrite Hp.
    + cbn [append contains]. rewrite (IH Hc). apply orb_true_r.
Qed.

Lemma join_holds (sep w : string) (l : list string) :
  In w l -> exists pre post, join sep l = (pre ++ w ++ post)%string.
Proof.
  induction l as [|x l IH]; intros Hin; [contradiction|].
  destruct Hin as [->|Hin].
  - destruct l as [|y l].
    + exists EmptyString, EmptyString. simpl.
      clear. induction w as [|c w IH]; simpl; [reflexivity | now rewrite <- IH].
    + exists EmptyString, (sep ++ join sep (y :: l))%string. reflexivity.
  - destruct (IH Hin) as [pre [post E]].
    destruct l as [|y l]; [contradiction|].
    exists (x ++ sep ++ pre)%string, post.
    change (join sep (x :: y :: l))
      with (x ++ sep ++ join sep (y :: l))%string.
    rewrite E, !app_assoc_string. reflexivity.
Qed.

Lemma set_nth_In {A} (v : A) :
  forall (l : list A) (i : nat), i < List.length l -> In v (set_nth i v l).
Proof.
  induction l as [|x l IH]; intros i Hi; [simpl in Hi; lia|].
  destruct i as [|i]; [now left|]. right. apply IH. simpl in Hi. lia.
Qed.

Lemma set_nth_split {A} (v : A) :
  forall (l : list A) (i : nat),
    i < List.length l ->
    exists before after,
      set_nth i v l = before ++ v :: after
      /\ List.length before = i
      /\ List.length after = List.length l - S i.
Proof.
  induction l as [|x l IH]; intros i Hi; [simpl in Hi; lia|].
  destruct i as [|i].
  - exists [], l. repeat split. simpl. lia.
  - destruct (IH i) as [before [after [E [Hb Ha]]]]; [simpl in Hi; lia|].
    exists (x :: before), after. cbn [set_nth]. rewrite E.
    repeat split; simpl; lia.
Qed.

Lemma contains_empty (s : string) : contains EmptyString s = true.
Proof. destruct s; reflexivity. Qed.

Lemma missing_anchor_nonempty (anchor text : string) :
  contains (lower anchor) (lower text) = false -> anchor <> EmptyString.
Proof.
  intros H ->. cbn [lower] in H. rewrite contains_empty in H. discriminate.
Qed.

(** The formatted sentence of a list of words that holds [w] contains [w],
    ignoring case, and ends with a period. *)
Lemma format_sentence_holds (words : list string) (w : string) :
  In w words -> w <> EmptyString ->
  exists body,
    format_sentence words = Returns (body ++ ".")%string
    /\ contains (lower w) (lower (body ++ ".")) = true.
Proof.
  intros Hin Hw. destruct (join_holds " " w words Hin) as [pre [post E]].
  unfold format_sentence.
  destruct (join " " words) as [|c rest] eqn:Ej.
  - exfalso. destruct pre; [|discriminate]. destruct w; [contradiction|].
    discriminate.
  - exists (String (upper_char c) rest). split; [reflexivity|].
    rewrite lower_app. cbn [lower]. rewrite lower_upper_char.
    change (String (lower_char c) (lower rest)) with (lower (String c rest)).
    rewrite E, !lower_app, app_assoc_string, app_assoc_string.
    apply contains_middle.
Qed.

(** With a length distribution that reads, an attempt for a non-empty
    anchor yields a candidate that contains it. *)
Lemma attempt_succeeds (self : TextGenerator) (anchor : string) (r : rng) :
  lengths_parse self ->
  anchor <> EmptyString ->
  exists cand r1,
    attempt self anchor r = (Returns (Some cand), r1)
    /\ anchor_sentence anchor cand
    /\ contains (lower anchor) (lower cand) = true
    /\ exists body, cand = (body ++ ".")%string.
Proof.
  intros Hlen Hne. unfold attempt, bind.
  destruct (sample_returns self r Hlen) as [n [r0 Hn]]. rewrite Hn.
  destruct (generate_around_anchor_structure self anchor n r0)
    as [bc [r1 [prefix [r2 [suffix [r3 H]]]]]].
  destruct H as [_ [_ [_ [_ [_ [_ Hg]]]]]]. rewrite Hg.
  destruct (format_sentence_holds (rev prefix ++ [anchor] ++ suffix) anchor)
    as [body [Hf Hc]]; [|exact Hne|].
  { apply in_or_app. right. now left. }
  rewrite Hf. cbn [obind]. exists (body ++ ".")%string, r3.
  split; [reflexivity|]. split; [now exists prefix, suffix|].
  split; [exact Hc | now exists body].
Qed.

(** What the integration does for one missing anchor of the vocabulary:
    the first attempt succeeds and one sentence is replaced. *)
Lemma integrate_single_anchor_outcome (self : TextGenerator)
  (text anchor : string) (num_sentences : Z) (r : rng) :
  In anchor (keys (word_unigrams self)) ->
  contains (lower anchor) (lower text) = false ->
  lengths_parse self ->
  exists (cand : string) (r1 : rng) (sentences' : list string),
    attempt self anchor r = (Returns (Some cand), r1)
    /\ anchor_sentence anchor cand
    /\ contains (lower anchor) (lower cand) = true
    /\ (exists body, cand = (body ++ ".")%string)
    /\ replaced_at r1 cand (split ". " text) sentences'
    /\ _integrate_anchor_words self text [anchor] num_sentences r
       = (Returns (join ". " sentences'), mkRng (source r1) (S (pos r1)))
    /\ attempts_made self anchor 10 (split ". " text) r = 1.
Proof.
  intros Hin Hmiss Hlen.
  pose proof (missing_anchor_nonempty anchor text Hmiss) as Hne.
  destruct (attempt_succeeds self anchor r Hlen Hne)
    as [cand [r1 [Ha [Hs [Hc [body Hb]]]]]].
  assert (Htruthy : truthy (Some cand) = true).
  { rewrite Hb. destruct body; reflexivity. }
  set (sentences := split ". " text).
  assert (Hpieces : sentences <> []) by apply split_aux_nonempty.
  destruct (randint_returns 0 (Z.of_nat (List.length sentences) - 1) r1)
    as [idx [Hidx [Hrange Hval]]].
  { destruct sentences; [contradiction | cbn [List.length]; lia]. }
  replace (Z.to_nat (Z.of_nat (List.length sentences) - 1 + 1 - 0))
    with (List.length sentences) in Hval by lia.
  assert (Hnat : Z.to_nat idx
                 = N.to_nat (source r1 (pos r1)
                             mod N.of_nat (List.length sentences)))
    by (rewrite Hval; lia).
  exists cand, r1, (set_nth (Z.to_nat idx) cand sentences).
  split; [exact Ha|]. split; [exact Hs|]. split; [exact Hc|].
  split; [now exists body|]. split.
  { unfold replaced_at. rewrite <- Hnat. split; [lia | reflexivity]. }
  assert (Hmem : mem String.eqb anchor (word_unigrams self) = true).
  { destruct (mem String.eqb anchor (word_unigrams self)) eqn:E;
      [reflexivity|].
    apply mem_false_iff in E. contradiction. }
  split.
  - rewrite integrate_single_missing by exact Hmiss.
    unfold bind at 1. fold sentences.
    rewrite (attempts_loop_step self anchor 9 sentences r Hin), Ha.
    rewrite Htruthy, Hc. cbn [andb]. unfold bind. rewrite Hidx.
    reflexivity.
  - fold sentences. cbn [attempts_made]. rewrite Hmem, Ha, Htruthy, Hc.
    reflexivity.
Qed.



Lemma join_after (sep : string) (x : string) (rest : list string) :
  forall before : list string,
    exists pre, join sep (before ++ x :: rest)
                = (pre ++ join sep (x :: rest))%string.
Proof.
  induction before as [|b before IH].
  - now exists EmptyString.
  - destruct IH as [pre E]. exists (b ++ sep ++ pre)%string.
    cbn [app].
    destruct (before ++ x :: rest) as [|y l] eqn:El.
    { destruct before; discriminate. }
    change (join sep (b :: y :: l)) with (b ++ sep ++ join sep (y :: l))%string.
    rewrite E, !app_assoc_string. reflexivity.
Qed.



(** The bigram chains of a session are those built from its bigram
    table. *)
Lemma init_word_bigram_chains (author data_dir : string)
  (cu cb ct wu wb wt : freq) (ld : option freq) (self : TextGenerator) :
  init author data_dir cu cb ct wu wb wt ld = Returns self ->
  _build_markov_chains wb = Returns (word_bigram_chains self).
Proof.
  unfold init. intros H.
  destruct (_frequencies_to_probabilities cu); cbn [obind] in H;
    try discriminate.
  destruct (_build_markov_chains cb); cbn [obind] in H; try discriminate.
  destruct (_build_markov_chains ct); cbn [obind] in H; try discriminate.
  destruct (_frequencies_to_probabilities wu); cbn [obind] in H;
    try discriminate.
  destruct (_build_markov_chains wb); cbn [obind] in H; try discriminate.
  destruct (_build_markov_chains wt); cbn [obind] in H; try discriminate.
  injection H as <-. reflexivity.
Qed.

(** X22. In a session loaded from a word bigram table whose keys all have
    two parts, the bigram chains hold one-word contexts only, so the
    two-word lookups of [_generate_around_anchor] find nothing: whatever
    [num_words] is, the sentence has at most one word before the anchor
    and one after it. *)
Theorem anchor_sentence_at_most_three_words (author data_dir : string)
  (cu cb ct wu wb wt : freq) (ld : option freq) (self : TextGenerator)
  (anchor : string) (num_words : Z) (r : rng) :
  init author data_dir cu cb ct wu wb wt ld = Returns self ->
  Forall (fun kc => two_part (fst kc)) wb ->
  exists (prefix suffix : list string) (r' : rng),
    List.length prefix <= 1
    /\ List.length suffix <= 1
    /\ _generate_around_anchor self anchor num_words r
       = (obind (format_sentence (rev prefix ++ [anchor] ++ suffix))
            (fun sentence => Returns (Some sentence)), r').
Proof.
  intros Hinit Hkeys.
  pose proof (init_word_bigram_chains _ _ _ _ _ _ _ _ _ _ Hinit) as Hb.
  assert (no_pair : forall a b : string,
             chain_get (word_bigram_chains self) (Some (Ctx2 a b)) = []).
  { intros a b. exact (pair_context_absent wb _ a b Hkeys Hb). }
  destruct (randint_returns 2 5 r) as [bc [Hbc _]]; [lia|].
  set (r1 := mkRng (source r) (S (pos r))) in *.
  destruct (around_loop_one_word self no_pair anchor (Z.to_nat bc) r1)
    as [prefix [r2 [Hp Hlp]]].
  destruct (around_loop_one_word self no_pair anchor
              (Z.to_nat (num_words - bc)) r2)
    as [suffix [r3 [Hs Hls]]].
  exists prefix, suffix, r3.
  split; [exact Hlp|]. split; [exact Hls|].
  unfold _generate_around_anchor, bind. rewrite Hbc, Hp, Hs.
  cbn [rev slice_from1 tl]. rewrite <- app_assoc.
  destruct (rev prefix ++ [anchor] ++ suffix) as [|w ws] eqn:E.
  - exfalso. apply app_eq_nil in E. destruct E as [_ E]. discriminate.
  - unfold lift. destruct (format_sentence (w :: ws)); reflexivity.
Qed.

Lemma anchor_sentence_at_most_three_words_witness :
  exists (prefix suffix : list string) (r' : rng),
    List.length prefix <= 1
    /\ List.length suffix <= 1
    /\ _generate_around_anchor full_session "dog" 10 counting
       = (obind (format_sentence (rev prefix ++ ["dog"] ++ suffix))
            (fun sentence => Returns (Some sentence)), r').
Proof.
  apply (anchor_sentence_at_most_three_words "demo" "JSON_Files"
           [("a", 2); ("b", 4)]%Z
           [("a||b", 2); ("b||a", 1); ("b||b", 2)]%Z
           [("a||b||b", 1); ("b||b||a", 1)]%Z
           [("the", 3); ("cat", 2); ("dog", 1)]%Z
           [("the||cat", 3); ("the||dog", 1); ("cat||the", 1)]%Z
           [("the||cat||the", 1)]%Z
           (Some [("3", 2); ("4", 1)]%Z)
           full_session "dog" 10 counting).
  - vm_compute. reflexivity.
  - repeat constructor; eexists; eexists; reflexivity.
Defined.

(* ------------------------------------------------------------------ *)
(** ** From [analyze.py] to the generator: the sentence lengths        *)
(* ------------------------------------------------------------------ *)

Lemma digits_step (c : ascii) (s : string) (need : bool) (acc k : Z) :
  is_digit c = true -> Z.of_nat (nat_of_ascii c - 48) = k ->
  digits need acc (String c s) = digits false (10 * acc + k)%Z s.
Proof. intros Hd <-. cbn [digits]. now rewrite Hd. Qed.

Lemma digits_of_uint_acc :
  forall (d : Decimal.uint) (acc : positive) (need : bool),
    d <> Decimal.Nil \/ need = false ->
    digits need (Z.pos acc) (DecimalString.NilEmpty.string_of_uint d)
    = Some (Z.pos (Pos.of_uint_acc d acc)).
Proof.
  induction d as [|d IH|d IH|d IH|d IH|d IH|d IH|d IH|d IH|d IH|d IH];
    intros acc need H;
    cbn [DecimalString.NilEmpty.string_of_uint Pos.of_uint_acc].
  - destruct H as [H | ->]; [now contradiction H | reflexivity].
  - rewrite (digits_step "0"%char _ _ _ 0%Z eq_refl eq_refl).
    etransitivity; [|apply (IH _ false); now right]. f_equal; lia.
  - rewrite (digits_step "1"%char _ _ _ 1%Z eq_refl eq_refl).
    etransitivity; [|apply (IH _ false); now right]. f_equal; lia.
  - rewrite (digits_step "2"%char _ _ _ 2%Z eq_refl eq_refl).
    etransitivity; [|apply (IH _ false); now right]. f_equal; lia.
  - rewrite (digits_step "3"%char _ _ _ 3%Z eq_refl eq_refl).
    etransitivity; [|apply (IH _ false); now right]. f_equal; lia.
  - rewrite (digits_step "4"%char _ _ _ 4%Z eq_refl eq_refl).
    etransitivity; [|apply (IH _ false); now right]. f_equal; lia.
  - rewrite (digits_step "5"%char _ _ _ 5%Z eq_refl eq_refl).
    etransitivity; [|apply (IH _ false); now right]. f_equal; lia.
  - rewrite (digits_step "6"%char _ _ _ 6%Z eq_refl eq_refl).
    etransitivity; [|apply (IH _ false); now right]. f_equal; lia.
  - rewrite (digits_step "7"%char _ _ _ 7%Z eq_refl eq_refl).
    etransitivity; [|apply (IH _ false); now right]. f_equal; lia.
  - rewrite (digits_step "8"%char _ _ _ 8%Z eq_refl eq_refl).
    etransitivity; [|apply (IH _ false); now right]. f_equal; lia.
  - rewrite (digits_step "9"%char _ _ _ 9%Z eq_refl eq_refl).
    etransitivity; [|apply (IH _ false); now right]. f_equal; lia.
Qed.

Lemma digits_of_uint :
  forall (d : Decimal.uint) (need : bool),
    d <> Decimal.Nil \/ need = false ->
    digits need 0 (DecimalString.NilEmpty.string_of_uint d)
    = Some (Z.of_N (Pos.of_uint d)).
Proof.
  induction d as [|d IH|d IH|d IH|d IH|d IH|d IH|d IH|d IH|d IH|d IH];
    intros need H;
    cbn [DecimalString.NilEmpty.string_of_uint Pos.of_uint].
  - destruct H as [H | ->]; [now contradiction H | reflexivity].
  - rewrite (digits_step "0"%char _ _ _ 0%Z eq_refl eq_refl).
    apply IH. now right.
  - rewrite (digits_step "1"%char _ _ _ 1%Z eq_refl eq_refl).
    apply (digits_of_uint_acc d 1 false). now right.
  - rewrite (digits_step "2"%char _ _ _ 2%Z eq_refl eq_refl).
    apply (digits_of_uint_acc d 2 false). now right.
  - rewrite (digits_step "3"%char _ _ _ 3%Z eq_refl eq_refl).
    apply (digits_of_uint_acc d 3 false). now right.
  - rewrite (digits_step "4"%char _ _ _ 4%Z eq_refl eq_refl).
    apply (digits_of_uint_acc d 4 false). now right.
  - rewrite (digits_step "5"%char _ _ _ 5%Z eq_refl eq_refl).
    apply (digits_of_uint_acc d 5 false). now right.
  - rewrite (digits_step "6"%char _ _ _ 6%Z eq_refl eq_refl).
    apply (digits_of_uint_acc d 6 false). now right.
  - rewrite (digits_step "7"%char _ _ _ 7%Z eq_refl eq_refl).
    apply (digits_of_uint_acc d 7 false). now right.
  - rewrite (digits_step "8"%char _ _ _ 8%Z eq_refl eq_refl).
    apply (digits_of_uint_acc d 8 false). now right.
  - rewrite (digits_step "9"%char _ _ _ 9%Z eq_refl eq_refl).
    apply (digits_of_uint_acc d 9 false). now right.
Qed.

(** The decimal digits of a number hold no blank: stripping keeps them. *)
Lemma rstrip_of_uint (d : Decimal.uint) :
  rstrip (DecimalString.NilEmpty.string_of_uint d)
  = DecimalString.NilEmpty.string_of_uint d.
Proof.
  induction d as [|d IH|d IH|d IH|d IH|d IH|d IH|d IH|d IH|d IH|d IH];
    cbn [DecimalString.NilEmpty.string_of_uint rstrip];
    [reflexivity|..];
    rewrite IH;
    now destruct (DecimalString.NilEmpty.string_of_uint d).
Qed.

Lemma to_uint_not_nil (p : positive) : Pos.to_uint p <> Decimal.Nil.
Proof.
  intros E. pose proof (DecimalPos.Unsigned.of_to p) as H.
  rewrite E in H. discriminate.
Qed.

(** The digits of a positive number, parsed as [int] does. *)
Lemma int_of_digits (d : Decimal.uint) :
  d <> Decimal.Nil ->
  int (DecimalString.NilEmpty.string_of_uint d)
  = Returns (Z.of_N (Pos.of_uint d)).
Proof.
  intros Hd. unfold int.
  assert (Hl : lstrip (DecimalString.NilEmpty.string_of_uint d)
               = DecimalString.NilEmpty.string_of_uint d).
  { destruct d; reflexivity. }
  rewrite Hl, rstrip_of_uint.
  pose proof (digits_of_uint d true (or_introl Hd)) as Hdig.
  destruct d; try (now contradiction Hd);
    cbn [DecimalString.NilEmpty.string_of_uint] in *;
    now rewrite Hdig.
Qed.

(** [int(str(n))] is [n]. *)
Lemma int_str (n : Z) : int (str n) = Returns n.
Proof.
  unfold str. destruct n as [|p|p]; cbn [Z.to_int].
  - reflexivity.
  - cbn [DecimalString.NilZero.string_of_int].
    pose proof (to_uint_not_nil p) as Hp.
    assert (E : DecimalString.NilZero.string_of_uint (Pos.to_uint p)
                = DecimalString.NilEmpty.string_of_uint (Pos.to_uint p)).
    { unfold DecimalString.NilZero.string_of_uint.
      destruct (Pos.to_uint p); [now contradiction Hp | reflexivity..]. }
    rewrite E, (int_of_digits _ Hp), DecimalPos.Unsigned.of_to. reflexivity.
  - cbn [DecimalString.NilZero.string_of_int].
    pose proof (to_uint_not_nil p) as Hp.
    assert (E : DecimalString.NilZero.string_of_uint (Pos.to_uint p)
                = DecimalString.NilEmpty.string_of_uint (Pos.to_uint p)).
    { unfold DecimalString.NilZero.string_of_uint.
      destruct (Pos.to_uint p); [now contradiction Hp | reflexivity..]. }
    rewrite E. unfold int.
    change (lstrip (String "-" ?s)) with (String "-" s).
    cbn [lstrip rstrip]. rewrite rstrip_of_uint.
    pose proof (digits_of_uint _ true (or_introl Hp)) as Hdig.
    rewrite DecimalPos.Unsigned.of_to in Hdig.
    destruct (DecimalString.NilEmpty.string_of_uint (Pos.to_uint p)) eqn:Es.
    + destruct (Pos.to_uint p); try discriminate; now contradiction Hp.
    + rewrite Hdig. reflexivity.
Qed.

(** Counting one more sentence length adds that length once to what the
    generator reads from the table. *)
Lemma expand_count_length (n : Z) :
  forall (t : freq) (lengths : list Z),
    Forall (fun kc => (0 <= snd kc)%Z) t ->
    expand_lengths t = Returns lengths ->
    exists lengths',
      expand_lengths (count_length t n) = Returns lengths'
      /\ Permutation lengths' (n :: lengths).
Proof.
  induction t as [|[k c] t IH]; intros lengths Hpos Hexp;
    unfold count_length; cbn [update expand_lengths] in *.
  - injection Hexp as <-. rewrite int_str. cbn [obind].
    exists [n]. split; [reflexivity | apply Permutation_refl].
  - destruct (int k) as [m| |] eqn:Ek; cbn [obind] in Hexp;
      try discriminate.
    destruct (expand_lengths t) as [more| |] eqn:Et; cbn [obind] in Hexp;
      try discriminate.
    injection Hexp as <-.
    inversion Hpos as [|? ? Hc Hrest]; subst. cbn [snd] in Hc.
    destruct (String.eqb_spec (str n) k) as [<-|Hne];
      cbn [expand_lengths].
    + rewrite int_str in Ek. injection Ek as <-.
      rewrite int_str, Et. cbn [obind].
      replace (Z.to_nat (c + 1)) with (S (Z.to_nat c)) by lia.
      eexists. split; [reflexivity | apply Permutation_refl].
    + destruct (IH more Hrest eq_refl) as [l' [Hl' Hperm]].
      unfold count_length in Hl'. rewrite Ek, Hl'. cbn [obind].
      eexists. split; [reflexivity|].
      apply Permutation_trans with (repeat m (Z.to_nat c) ++ n :: more)%list.
      * now apply Permutation_app_head.
      * apply Permutation_sym, Permutation_middle.
Qed.

Lemma count_length_nonneg (n : Z) (t : freq) :
  Forall (fun kc => (0 <= snd kc)%Z) t ->
  Forall (fun kc => (0 <= snd kc)%Z) (count_length t n).
Proof.
  intros H. unfold count_length.
  apply (update_Forall String.eqb (fun c => (0 <= c)%Z));
    [lia | intros v Hv; lia | exact H].
Qed.

Lemma expand_fold_count_length :
  forall (sentence_lengths : list Z) (t : freq) (lengths : list Z),
    Forall (fun kc => (0 <= snd kc)%Z) t ->
    expand_lengths t = Returns lengths ->
    exists lengths',
      expand_lengths (fold_left count_length sentence_lengths t)
      = Returns lengths'
      /\ Permutation lengths' (sentence_lengths ++ lengths).
Proof.
  induction sentence_lengths as [|n rest IH]; intros t lengths Hpos Hexp;
    cbn [fold_left app].
  - exists lengths. split; [exact Hexp | apply Permutation_refl].
  - destruct (expand_count_length n t lengths Hpos Hexp) as [l1 [H1 P1]].
    destruct (IH (count_length t n) l1 (count_length_nonneg n t Hpos) H1)
      as [l2 [H2 P2]].
    exists l2. split; [exact H2|].
    apply Permutation_trans with (rest ++ l1)%list; [exact P2|].
    apply Permutation_trans with (rest ++ n :: lengths)%list.
    + now apply Permutation_app_head.
    + apply Permutation_sym, Permutation_middle.
Qed.




(* ------------------------------------------------------------------ *)
(** ** The command line: blending and defaults                         *)
(* ------------------------------------------------------------------ *)

Lemma skipn_nth_error {A} :
  forall (s : list A) (a : nat),
    skipn a s = match nth_error s a with
                | Some x => x :: skipn (S a) s
                | None => []
                end.
Proof.
  induction s as [|x s IH]; intros [|a]; try reflexivity.
  cbn [skipn nth_error]. apply IH.
Qed.

(** Picking the sentences of one author at the indices [a], [a + 1], ...
    gives the sentences from index [a] on. *)
Lemma pick_seq (s : list string) :
  forall (m a : nat),
    flat_map (fun i => pick i s) (seq a m) = firstn m (skipn a s).
Proof.
  induction m as [|m IH]; intros a; [reflexivity|].
  cbn [seq flat_map]. rewrite IH, (skipn_nth_error s a). unfold pick.
  destruct (nth_error s a) as [x|] eqn:E; [reflexivity|].
  cbn [app]. rewrite skipn_all2; [now rewrite firstn_nil|].
  apply nth_error_None in E. lia.
Qed.

Lemma flat_map_split {A B} (f g : A -> list B) (l : list A) :
  Permutation (flat_map (fun i => f i ++ g i) l)
              (flat_map f l ++ flat_map g l).
Proof.
  induction l as [|i l IH]; [apply Permutation_refl|].
  cbn [flat_map]. rewrite <- !app_assoc. apply Permutation_app_head.
  apply Permutation_trans with (g i ++ flat_map f l ++ flat_map g l).
  - now apply Permutation_app_head.
  - rewrite !app_assoc. apply Permutation_app_tail, Permutation_app_comm.
Qed.

(** The round-robin over at least as many indices as the longest author
    has sentences takes every sentence exactly once. *)
Lemma round_robin_permutation (max_sentences : nat) :
  forall sentences_by_author : list (list string),
    Forall (fun s => List.length s <= max_sentences) sentences_by_author ->
    Permutation (round_robin max_sentences sentences_by_author)
                (List.concat sentences_by_author).
Proof.
  induction sentences_by_author as [|s rest IH]; intros Hall;
    unfold round_robin, blend_row.
  - cbn [flat_map List.concat].
    induction (seq 0 max_sentences); [constructor | assumption].
  - inversion Hall as [|? ? Hs Hrest]; subst. cbn [flat_map List.concat].
    eapply Permutation_trans;
      [apply (flat_map_split (fun i => pick i s)
                (fun i => flat_map (pick i) rest))|].
    rewrite pick_seq. cbn [skipn]. rewrite firstn_all2 by exact Hs.
    apply Permutation_app_head. now apply IH.
Qed.

Lemma fold_max_bounds :
  forall (xs : list nat) (x : nat),
    x <= fold_left Nat.max xs x
    /\ Forall (fun y => y <= fold_left Nat.max xs x) xs.
Proof.
  induction xs as [|y xs IH]; intros x; cbn [fold_left].
  - split; [lia | constructor].
  - destruct (IH (Nat.max x y)) as [H1 H2]. split; [lia|].
    constructor; [lia | exact H2].
Qed.

Lemma max_of_bounds (xs : list nat) :
  xs <> [] ->
  exists m, max_of xs = Returns m /\ Forall (fun y => y <= m) xs.
Proof.
  destruct xs as [|x xs]; [now intros H|]. intros _.
  cbn [max_of]. eexists. split; [reflexivity|].
  destruct (fold_max_bounds xs x) as [H1 H2]. now constructor.
Qed.

(** X25. For a word level, the blend of the texts of the authors is made
    of the sentences of all the texts, each taken exactly once, joined by
    ['. ']; for a character level it is the texts joined by a space. *)
Theorem blend_keeps_every_sentence (level : string)
  (all_texts : list string) :
  all_texts <> [] ->
  (startswith level "char-" = false ->
   exists sentences : list string,
     blend level all_texts = Returns (join ". " sentences)
     /\ Permutation sentences (List.concat (map (split ". ") all_texts)))
  /\ (startswith level "char-" = true ->
      blend level all_texts = Returns (join " " all_texts)).
Proof.
  intros Hne. unfold blend. split; intros Hlevel; rewrite Hlevel;
    cbn [negb]; [|reflexivity].
  destruct (max_of_bounds
              (map (@List.length string) (map (split ". ") all_texts)))
    as [m [Hm Hall]].
  { destruct all_texts; [now contradiction Hne | discriminate]. }
  rewrite Hm. cbn [obind]. eexists. split; [reflexivity|].
  apply round_robin_permutation.
  rewrite Forall_map in Hall. exact Hall.
Qed.

Lemma blend_keeps_every_sentence_witness :
  (startswith "word-2" "char-" = false ->
   exists sentences : list string,
     blend "word-2" ["A b. C d."; "E f."] = Returns (join ". " sentences)
     /\ Permutation sentences
          (List.concat (map (split ". ") ["A b. C d."; "E f."])))
  /\ (startswith "word-2" "char-" = true ->
      blend "word-2" ["A b. C d."; "E f."]
      = Returns (join " " ["A b. C d."; "E f."])).
Proof.
  apply (blend_keeps_every_sentence "word-2" ["A b. C d."; "E f."]).
  discriminate.
Defined.

Lemma seq_cut (m i : nat) :
  i < m -> seq 0 m = seq 0 i ++ i :: seq (S i) (m - S i).
Proof.
  intros H. replace m with (i + S (m - S i)) at 1 by lia.
  rewrite seq_app. reflexivity.
Qed.

(** X26. When a sentence of the first text that ends with a period has a
    sentence of the second text at the same index, the word-level blend
    contains two periods in a row: the split on ['. '] leaves the period
    on the last sentence of a text, and the join adds another. *)
Theorem blend_doubles_period (level : string) (first second : string)
  (others : list string) (i : nat) (body next : string) :
  startswith level "char-" = false ->
  nth_error (split ". " first) i = Some (body ++ ".")%string ->
  nth_error (split ". " second) i = Some next ->
  exists out : string,
    blend level (first :: second :: others) = Returns out
    /\ contains ".. " out = true.
Proof.
  intros Hlevel H1 H2. unfold blend. rewrite Hlevel. cbn [negb].
  destruct (max_of_bounds
              (map (@List.length string)
                 (map (split ". ") (first :: second :: others))))
    as [m [Hm Hall]]; [discriminate|].
  rewrite Hm. cbn [obind]. eexists. split; [reflexivity|].
  assert (Hi : i < m).
  { cbn [map] in Hall. inversion Hall as [|? ? Hf _]; subst.
    assert (i < List.length (split ". " first)); [|lia].
    apply nth_error_Some. now rewrite H1. }
  unfold round_robin. rewrite (seq_cut m i Hi), flat_map_app.
  cbn [flat_map map]. unfold blend_row at 2. cbn [flat_map].
  unfold pick at 1 2. rewrite H1, H2. cbn [app].
  match goal with
  | |- contains _ (join _ (?before ++ _ :: _ :: ?after)) = true =>
      destruct (join_after ". " (body ++ ".")%string (next :: after) before)
        as [pre Ej]
  end.
  rewrite Ej.
  match goal with
  | |- contains _ (pre ++ join _ (_ :: _ :: ?after)) = true =>
      change (join ". " ((body ++ ".")%string :: next :: after))
        with ((body ++ ".") ++ ". " ++ join ". " (next :: after))%string;
      replace (pre ++ (body ++ ".") ++ ". " ++ join ". " (next :: after))%string
        with ((pre ++ body) ++ ".. " ++ join ". " (next :: after))%string
  end.
  - apply contains_middle.
  - rewrite !app_assoc_string. reflexivity.
Qed.

Lemma blend_doubles_period_witness :
  exists out : string,
    blend "word-2" ["A b. C d."; "E f. G h."] = Returns out
    /\ contains ".. " out = true.
Proof.
  apply (blend_doubles_period "word-2" "A b. C d." "E f. G h." [] 1
           "C d" "G h.").
  - reflexivity.
  - reflexivity.
  - reflexivity.
Defined.

(** X27. [cmd_generate] replaces a [--length] of 0 by the default: for a
    character level the text has [length] characters, and 100 when
    [length] is 0, whatever [--sentences] and [--anchors] are. *)
Theorem cmd_generate_length_default (gen : TextGenerator) (level : string)
  (length sentences : Z) (anchors : option string) (r : rng) :
  In level ["char-0"; "char-1"; "char-2"; "char-3"] ->
  (0 <= length)%Z ->
  char_tokens single_char gen ->
  char_unigram_probs gen <> [] ->
  exists out r',
    cmd_generate_text gen level length sentences anchors r
    = (Returns out, r')
    /\ Z.of_nat (String.length out)
       = (if (length =? 0)%Z then 100 else length)%Z.
Proof.
  intros Hlevel Hlen Htok Huni.
  assert (Hdef : (0 <= or_default length 100)%Z).
  { unfold or_default. destruct (length =? 0)%Z; lia. }
  fold (or_default length 100).
  destruct Hlevel as [<-|[<-|[<-|[<-|[]]]]].
  - change (cmd_generate_text gen "char-0" length sentences anchors)
      with (generate_char_0 gen (or_default length 100)).
    unfold generate_char_0, bind.
    destruct (char0_loop_spec (Z.to_nat (or_default length 100)) r)
      as [cs [r' [Hl [Hn Hall]]]].
    rewrite Hl. exists (join "" cs), r'. split; [reflexivity|].
    destruct (join_alphabet_tokens cs Hall) as [H1 _]. rewrite H1, Hn. lia.
  - now apply generate_char_1_exact.
  - now apply generate_char_2_exact.
  - now apply generate_char_3_exact.
Qed.

Lemma cmd_generate_length_default_witness :
  exists out r',
    cmd_generate_text full_session "char-2" 0 7 (Some "dog") counting
    = (Returns out, r')
    /\ Z.of_nat (String.length out) = 100%Z.
Proof.
  apply (cmd_generate_length_default full_session "char-2" 0 7 (Some "dog")
           counting).
  - simpl. tauto.
  - lia.
  - exact full_session_single_chars.
  - discriminate.
Defined.



(** X29. Every request to [generate] ends, with a text or with an
    exception: the [while] loops of [generate_char_2], [generate_char_3],
    [generate_word_1], [generate_word_2] and [generate_word_3] stop within
    the rounds their tests allow. *)
Theorem generate_returns_or_raises (self : TextGenerator) (level : string)
  (length num_sentences : Z) (anchor_words : option (list string))
  (r : rng) :
  exists r' : rng,
    (exists out : string,
        generate self level length num_sentences anchor_words r
        = (Returns out, r'))
    \/ (exists e : exn,
           generate self level length num_sentences anchor_words r
           = (Raises e, r')).
Proof.
  pose proof (generate_fueled self level length num_sentences anchor_words r)
    as H.
  destruct (generate self level length num_sentences anchor_words r)
    as [[out|e|] r'].
  - exists r'. left. now exists out.
  - exists r'. right. now exists e.
  - now contradiction H.
Qed.
